(** * PSC grid engine of simsopt ([simsopt/geo/psc_grid.py])

    A shallow embedding of the class [PSCgrid]: the two constructors
    [geo_setup_between_toroidal_surfaces] and [geo_setup_manual], the
    orientation update [setup_orientations], the flux and current solve and
    the objective [least_squares].

    Conventions of the embedding.
    - A NumPy [float64] is a real number of the Standard Library: the
      arithmetic is the exact one, without rounding, infinities or NaN.
    - A 1-D array is a [list R], a 2-D array a list of rows, an array of shape
      [(n, 3)] a list of triples.
    - The object [self] is a record that every method takes and returns.
    - [raise] is the left injection of a sum; only the two constructors raise.
    - The compiled kernels of [simsoptpp] and the collaborators of
      [simsopt.field], [simsopt.util], [numpy.linalg], [numpy.random] and
      [numpy.polynomial] are fields of two interface records, [sopp.t] and
      [ext.t], that the methods take as a parameter. *)

From Stdlib Require Import String Reals Lra Lia Bool Arith ZArith List.
Import ListNotations.
Open Scope R_scope.

(** ** Arrays *)

Definition vec := list R.
Definition matrix := list (list R).
Definition point := (R * R * R)%type.

Definition px (p : point) : R := fst (fst p).
Definition py (p : point) : R := snd (fst p).
Definition pz (p : point) : R := snd p.

Definition Rltb (x y : R) : bool := if Rlt_dec x y then true else false.
Definition Rleb (x y : R) : bool := if Rle_dec x y then true else false.
Definition Reqb (x y : R) : bool := if Req_dec_T x y then true else false.

(** ** The part of NumPy that the class uses *)

Module np.

Definition pi : R := PI.
Definition cos : R -> R := Rtrigo_def.cos.
Definition sin : R -> R := Rtrigo_def.sin.
Definition log : R -> R := ln.
Definition sqrt : R -> R := R_sqrt.sqrt.
Definition arcsin : R -> R := asin.
Definition abs : R -> R := Rabs.

Definition zeros (n : nat) : vec := repeat 0 n.
Definition arange (n : nat) : vec := map INR (seq 0 n).

(** Elementwise binary operation on two arrays of one shape. *)
Definition map2 {A B C} (f : A -> B -> C) (u : list A) (v : list B) : list C :=
  map (fun p => f (fst p) (snd p)) (combine u v).

Definition sum (v : vec) : R := fold_right Rplus 0 v.

(** [u @ v] on two 1-D arrays. *)
Definition dot (u v : vec) : R := sum (map2 Rmult u v).

(** [M @ v] on a 2-D and a 1-D array. *)
Definition matvec (M : matrix) (v : vec) : vec := map (fun row => dot row v) M.

Definition vneg (v : vec) : vec := map Ropp v.
Definition mneg (M : matrix) : matrix := map vneg M.
Definition vscale (c : R) (v : vec) : vec := map (Rmult c) v.
Definition vadd (u v : vec) : vec := map2 Rplus u v.
Definition vmul (u v : vec) : vec := map2 Rmult u v.
Definition vdiv (v : vec) (c : R) : vec := map (fun x => x / c) v.

(** [M[i, j]]. *)
Definition get (M : matrix) (i j : nat) : R := nth j (nth i M []) 0.

Definition ncols (M : matrix) : nat := length (hd [] M).

(** [M.T]: entry [(j, i)] of the result is entry [(i, j)] of [M]. *)
Definition transpose (M : matrix) : matrix :=
  map (fun j => map (fun row => nth j row 0) M) (seq 0 (ncols M)).

(** [A + B] on two 2-D arrays of one shape. *)
Definition madd (A B : matrix) : matrix := map2 (map2 Rplus) A B.

(** [M * c] with a scalar [c]. *)
Definition mscale (M : matrix) (c : R) : matrix := map (map (fun x => x * c)) M.

(** [np.fill_diagonal(M, d)]: every entry [(i, i)] becomes [d]. *)
Definition fill_diagonal (M : matrix) (d : R) : matrix :=
  map2 (fun i row => map2 (fun j x => if Nat.eqb i j then d else x)
                           (seq 0 (length row)) row)
       (seq 0 (length M)) M.

(** [v @ M] on a 1-D and a 2-D array: the combination of the rows of [M]
    with the entries of [v] as coefficients. *)
Definition vecmat (v : vec) (M : matrix) : vec :=
  fold_right (fun p acc => vadd (vscale (fst p) (snd p)) acc)
             (zeros (ncols M)) (combine v M).

(** [A @ B] on two 2-D arrays. *)
Definition matmul (A B : matrix) : matrix := map (fun row => vecmat row B) A.

(** [np.eye(n)]. *)
Definition eye (n : nat) : matrix :=
  map (fun i => map (fun j => if Nat.eqb i j then 1 else 0) (seq 0 n)) (seq 0 n).

(** [M[:, :n]] and [M[:, n:]]. *)
Definition cols_to (n : nat) (M : matrix) : matrix := map (firstn n) M.
Definition cols_from (n : nat) (M : matrix) : matrix := map (skipn n) M.

(** [M * v] with [v] broadcast over the rows of [M]. *)
Definition mrowmul (M : matrix) (v : vec) : matrix := map (fun row => vmul row v) M.

(** [v[:, None] * M]: row [i] of [M] times [v[i]]. *)
Definition mcolmul (v : vec) (M : matrix) : matrix := map2 vscale v M.

Definition hstack (A B : matrix) : matrix := map2 (@app R) A B.

(** [np.isclose(a, b)] with the default tolerances. *)
Definition rtol : R := 1 / 10 ^ 5.
Definition atol : R := 1 / 10 ^ 8.
Definition isclose (a b : R) : bool := Rleb (Rabs (a - b)) (atol + rtol * Rabs b).

(** [np.allclose] on two shapes of a 2-D array. *)
Definition allclose_shape (s t : nat * nat) : bool :=
  isclose (INR (fst s)) (INR (fst t)) && isclose (INR (snd s)) (INR (snd t)).

(** [np.copysign(m, x)]: the magnitude of [m] with the sign of [x]. *)
Definition copysign (m x : R) : R := if Rlt_dec x 0 then - Rabs m else Rabs m.

(** [np.arctan2(y, x)], the angle of the point [(x, y)] in [(-pi, pi]]. *)
Definition arctan2 (y x : R) : R :=
  if Rlt_dec 0 x then atan (y / x)
  else if Rlt_dec x 0 then
         (if Rle_dec 0 y then atan (y / x) + PI else atan (y / x) - PI)
  else if Rlt_dec 0 y then PI / 2
  else if Rlt_dec y 0 then - (PI / 2)
  else 0.

(** [np.linspace(a, b, n, endpoint=True)]. *)
Definition linspace (a b : R) (n : nat) : vec :=
  map (fun i => a + INR i * ((b - a) / INR (n - 1))) (seq 0 n).

(** [np.max] and [np.min] of a 1-D array. *)
Definition max (v : vec) : R := fold_right Rmax (hd 0 v) v.
Definition min (v : vec) : R := fold_right Rmin (hd 0 v) v.

(** [np.where(mask)] on a 1-D boolean array: the indices that hold. *)
Definition where_ (mask : list bool) : list nat :=
  map fst (filter snd (combine (seq 0 (length mask)) mask)).

(** [np.argmin]: the first index of the least entry. *)
Fixpoint argmin_from (i best : nat) (m : R) (v : vec) : nat :=
  match v with
  | [] => best
  | x :: v' => if Rlt_dec x m then argmin_from (S i) i x v'
               else argmin_from (S i) best m v'
  end.
Definition argmin (v : vec) : nat :=
  match v with
  | [] => O
  | x :: v' => argmin_from 1 0 x v'
  end.

End np.

(** ** Exceptions *)

Inductive exn : Type :=
| ValueError (msg : string)
| NameError (msg : string).

(** A computation that returns a value or raises. *)
Definition result (A : Type) : Type := (exn + A)%type.

Definition ret {A} (x : A) : result A := inr x.
Definition raise {A} (e : exn) : result A := inl e.
Definition bind {A B} (c : result A) (k : A -> result B) : result B :=
  match c with
  | inl e => inl e
  | inr x => k x
  end.

Notation "'do' x <- c ; k" := (bind c (fun x => k))
  (at level 10, x name, c at level 100, k at level 200).

(** ** Collaborators *)

(** A [Surface]: what the class reads off [plasma_boundary] and the two
    toroidal surfaces, each array already reshaped to [(-1, 3)]. *)
Record Surface : Type := mkSurface {
  s_nfp : nat;
  s_stellsym : bool;
  s_quadpoints_phi : vec;
  s_quadpoints_theta : vec;
  s_gamma : list point;
  s_unitnormal : list point;
  s_normal : list point;
  s_area : R;
  s_rc00 : R                       (* [get_rc(0, 0)] *)
}.

Record Coil : Type := mkCoil {
  c_current : R;
  c_gamma : list point;
  c_gammadash : list point
}.

(** A magnetic field object: [set_points(p)] followed by [B()]. *)
Definition Field : Type := list point -> list point.

(** A 2-D array with its shape, stored row by row. *)
Record Array2 : Type := mkArray2 {
  shape : (nat * nat)%type;
  ravel : vec
}.

(** The kernels of the compiled module [simsoptpp]. *)
Module sopp.
Record t : Type := mk {
  define_a_uniform_cartesian_grid_between_two_toroidal_surfaces :
    list point -> list point -> list point -> list point -> list point ->
    list point;
  L_matrix : list point -> vec -> vec -> vec -> vec -> matrix;
  update_alphas_deltas_xsimd :
    list point -> nat -> nat ->
    (list point * vec * vec * vec * vec * vec * vec)%type;
  flux_xyz : list point -> vec -> vec -> vec -> vec -> list point;
  flux_integration :
    list point -> (nat * nat * nat)%type -> vec -> list point -> vec -> vec;
  A_matrix_simd :
    list point -> list point -> vec -> vec -> list point -> R -> matrix;
  dA_dkappa_simd :
    list point -> list point -> vec -> vec -> list point -> vec -> vec -> R ->
    matrix;
  dpsi_dkappa :
    vec -> list (list point) -> list (list point) -> list point -> vec ->
    vec -> list point -> vec -> vec -> vec -> R -> vec
}.
End sopp.

(** The other collaborators. *)
Module ext.
Record t : Type := mk {
  leggauss : nat -> (vec * vec)%type;      (* [np.polynomial.legendre] *)
  random_rand : nat -> nat -> vec;         (* the k-th call of [np.random.rand(n)] *)
  linalg_inv : matrix -> matrix;           (* [np.linalg.inv] *)
  BiotSavart : list Coil -> Field;
  InterpolatedField :
    Field -> nat -> (R * R * nat)%type -> (R * R * nat)%type ->
    (R * R * nat)%type -> bool -> nat -> bool -> Field;
  calculate_on_axis_B : Field -> Surface -> (R * list point)%type;
                                           (* the value, and the points it leaves set *)
  to_RZFourier : Surface -> Surface;
  from_vmec_input_default : Surface;       (* the low resolution QA surface *)
  default_coils : nat -> bool -> list Coil (* four planar TF coils and their images *)
}.
End ext.

(** ** The object *)

(** What [_setup_uniform_grid] writes. *)
Record UniformGrid : Type := mkUniformGrid {
  xyz_inner : list point;
  xyz_outer : list point;
  dx : R;
  dy : R;
  dz : R;
  ug_R : R;                        (* [self.R] *)
  ug_a : R;                        (* [self.a] *)
  xyz_uniform : list point
}.

(** What [update_alphas_deltas] writes. *)
Record Expanded : Type := mkExpanded {
  coil_normals_all : list point;
  alphas_total : vec;
  deltas_total : vec;
  aaprime_aa : vec;
  aaprime_dd : vec;
  ddprime_dd : vec;
  ddprime_aa : vec
}.

(** What [update_psi] writes. *)
Record Flux : Type := mkFlux {
  flux_grid : list point;
  psi_total : vec;
  psi : vec
}.

(** What [setup_currents_and_fields] writes. *)
Record Currents : Type := mkCurrents {
  L_inv : matrix;
  I_all : vec;
  I_psc : vec;                     (* [self.I] *)
  A_matrix : matrix;
  Bn_PSC : vec
}.

(** The attributes of a [PSCgrid].  [coil_R] and [coil_a] are [self.R] and
    [self.a]; an attribute that is not assigned yet holds an empty array. *)
Record PSCgrid : Type := mkPSCgrid {
  (* __init__ *)
  mu0 : R;
  fac : R;
  BdotN2_list : list R;
  quad_points_phi : vec;
  quad_weights : vec;
  quad_points_rho : vec;
  (* the constructors *)
  coil_R : R;
  coil_a : R;
  grid_xyz : list point;
  num_psc : nat;
  plasma_boundary : Surface;
  nfp : nat;
  stellsym : bool;
  symmetry : nat;
  stell_list : list R;
  nphi : nat;
  ntheta : nat;
  plasma_unitnormals : list point;
  plasma_points : list point;
  grid_normalization : vec;
  Bn_plasma : Array2;
  plasma_boundary_full : Surface;
  coils_TF : list Coil;            (* [I_TF], [dl_TF], [gamma_TF] *)
  B_TF : Field;
  normalization : R;
  fac2_norm : R;
  ugrid : option UniformGrid;
  (* the orientation and what follows from it *)
  alphas : vec;
  deltas : vec;
  coil_normals : list point;
  grid_xyz_all : list point;
  grid_xyz_all_normalized : list point;
  expanded : Expanded;
  L : matrix;
  flux : Flux;
  currents : Currents;
  b_opt : vec;
  kappas : vec
}.

(** Assignments to the attributes that the methods write after construction. *)

Definition set_angles (al de : vec) (cn : list point) (st : PSCgrid) : PSCgrid :=
  mkPSCgrid (mu0 st) (fac st) (BdotN2_list st) (quad_points_phi st)
    (quad_weights st) (quad_points_rho st) (coil_R st) (coil_a st)
    (grid_xyz st) (num_psc st) (plasma_boundary st) (nfp st) (stellsym st)
    (symmetry st) (stell_list st) (nphi st) (ntheta st)
    (plasma_unitnormals st) (plasma_points st) (grid_normalization st)
    (Bn_plasma st) (plasma_boundary_full st) (coils_TF st) (B_TF st)
    (normalization st) (fac2_norm st) (ugrid st)
    al de cn
    (grid_xyz_all st) (grid_xyz_all_normalized st) (expanded st) (L st)
    (flux st) (currents st) (b_opt st) (kappas st).

Definition set_full_grid (all alln : list point) (st : PSCgrid) : PSCgrid :=
  mkPSCgrid (mu0 st) (fac st) (BdotN2_list st) (quad_points_phi st)
    (quad_weights st) (quad_points_rho st) (coil_R st) (coil_a st)
    (grid_xyz st) (num_psc st) (plasma_boundary st) (nfp st) (stellsym st)
    (symmetry st) (stell_list st) (nphi st) (ntheta st)
    (plasma_unitnormals st) (plasma_points st) (grid_normalization st)
    (Bn_plasma st) (plasma_boundary_full st) (coils_TF st) (B_TF st)
    (normalization st) (fac2_norm st) (ugrid st)
    (alphas st) (deltas st) (coil_normals st)
    all alln (expanded st) (L st)
    (flux st) (currents st) (b_opt st) (kappas st).

Definition set_expanded (e : Expanded) (st : PSCgrid) : PSCgrid :=
  mkPSCgrid (mu0 st) (fac st) (BdotN2_list st) (quad_points_phi st)
    (quad_weights st) (quad_points_rho st) (coil_R st) (coil_a st)
    (grid_xyz st) (num_psc st) (plasma_boundary st) (nfp st) (stellsym st)
    (symmetry st) (stell_list st) (nphi st) (ntheta st)
    (plasma_unitnormals st) (plasma_points st) (grid_normalization st)
    (Bn_plasma st) (plasma_boundary_full st) (coils_TF st) (B_TF st)
    (normalization st) (fac2_norm st) (ugrid st)
    (alphas st) (deltas st) (coil_normals st)
    (grid_xyz_all st) (grid_xyz_all_normalized st) e (L st)
    (flux st) (currents st) (b_opt st) (kappas st).

Definition set_L (l : matrix) (st : PSCgrid) : PSCgrid :=
  mkPSCgrid (mu0 st) (fac st) (BdotN2_list st) (quad_points_phi st)
    (quad_weights st) (quad_points_rho st) (coil_R st) (coil_a st)
    (grid_xyz st) (num_psc st) (plasma_boundary st) (nfp st) (stellsym st)
    (symmetry st) (stell_list st) (nphi st) (ntheta st)
    (plasma_unitnormals st) (plasma_points st) (grid_normalization st)
    (Bn_plasma st) (plasma_boundary_full st) (coils_TF st) (B_TF st)
    (normalization st) (fac2_norm st) (ugrid st)
    (alphas st) (deltas st) (coil_normals st)
    (grid_xyz_all st) (grid_xyz_all_normalized st) (expanded st) l
    (flux st) (currents st) (b_opt st) (kappas st).

Definition set_flux (f : Flux) (st : PSCgrid) : PSCgrid :=
  mkPSCgrid (mu0 st) (fac st) (BdotN2_list st) (quad_points_phi st)
    (quad_weights st) (quad_points_rho st) (coil_R st) (coil_a st)
    (grid_xyz st) (num_psc st) (plasma_boundary st) (nfp st) (stellsym st)
    (symmetry st) (stell_list st) (nphi st) (ntheta st)
    (plasma_unitnormals st) (plasma_points st) (grid_normalization st)
    (Bn_plasma st) (plasma_boundary_full st) (coils_TF st) (B_TF st)
    (normalization st) (fac2_norm st) (ugrid st)
    (alphas st) (deltas st) (coil_normals st)
    (grid_xyz_all st) (grid_xyz_all_normalized st) (expanded st) (L st)
    f (currents st) (b_opt st) (kappas st).

Definition set_currents (c : Currents) (st : PSCgrid) : PSCgrid :=
  mkPSCgrid (mu0 st) (fac st) (BdotN2_list st) (quad_points_phi st)
    (quad_weights st) (quad_points_rho st) (coil_R st) (coil_a st)
    (grid_xyz st) (num_psc st) (plasma_boundary st) (nfp st) (stellsym st)
    (symmetry st) (stell_list st) (nphi st) (ntheta st)
    (plasma_unitnormals st) (plasma_points st) (grid_normalization st)
    (Bn_plasma st) (plasma_boundary_full st) (coils_TF st) (B_TF st)
    (normalization st) (fac2_norm st) (ugrid st)
    (alphas st) (deltas st) (coil_normals st)
    (grid_xyz_all st) (grid_xyz_all_normalized st) (expanded st) (L st)
    (flux st) c (b_opt st) (kappas st).

Definition set_b_opt (b : vec) (st : PSCgrid) : PSCgrid :=
  mkPSCgrid (mu0 st) (fac st) (BdotN2_list st) (quad_points_phi st)
    (quad_weights st) (quad_points_rho st) (coil_R st) (coil_a st)
    (grid_xyz st) (num_psc st) (plasma_boundary st) (nfp st) (stellsym st)
    (symmetry st) (stell_list st) (nphi st) (ntheta st)
    (plasma_unitnormals st) (plasma_points st) (grid_normalization st)
    (Bn_plasma st) (plasma_boundary_full st) (coils_TF st) (B_TF st)
    (normalization st) (fac2_norm st) (ugrid st)
    (alphas st) (deltas st) (coil_normals st)
    (grid_xyz_all st) (grid_xyz_all_normalized st) (expanded st) (L st)
    (flux st) (currents st) b (kappas st).

Definition set_kappas (k : vec) (st : PSCgrid) : PSCgrid :=
  mkPSCgrid (mu0 st) (fac st) (BdotN2_list st) (quad_points_phi st)
    (quad_weights st) (quad_points_rho st) (coil_R st) (coil_a st)
    (grid_xyz st) (num_psc st) (plasma_boundary st) (nfp st) (stellsym st)
    (symmetry st) (stell_list st) (nphi st) (ntheta st)
    (plasma_unitnormals st) (plasma_points st) (grid_normalization st)
    (Bn_plasma st) (plasma_boundary_full st) (coils_TF st) (B_TF st)
    (normalization st) (fac2_norm st) (ugrid st)
    (alphas st) (deltas st) (coil_normals st)
    (grid_xyz_all st) (grid_xyz_all_normalized st) (expanded st) (L st)
    (flux st) (currents st) (b_opt st) k.

Definition set_BdotN2_list (h : list R) (st : PSCgrid) : PSCgrid :=
  mkPSCgrid (mu0 st) (fac st) h (quad_points_phi st)
    (quad_weights st) (quad_points_rho st) (coil_R st) (coil_a st)
    (grid_xyz st) (num_psc st) (plasma_boundary st) (nfp st) (stellsym st)
    (symmetry st) (stell_list st) (nphi st) (ntheta st)
    (plasma_unitnormals st) (plasma_points st) (grid_normalization st)
    (Bn_plasma st) (plasma_boundary_full st) (coils_TF st) (B_TF st)
    (normalization st) (fac2_norm st) (ugrid st)
    (alphas st) (deltas st) (coil_normals st)
    (grid_xyz_all st) (grid_xyz_all_normalized st) (expanded st) (L st)
    (flux st) (currents st) (b_opt st) (kappas st).

Definition set_field (b : Field) (n f2 : R) (st : PSCgrid) : PSCgrid :=
  mkPSCgrid (mu0 st) (fac st) (BdotN2_list st) (quad_points_phi st)
    (quad_weights st) (quad_points_rho st) (coil_R st) (coil_a st)
    (grid_xyz st) (num_psc st) (plasma_boundary st) (nfp st) (stellsym st)
    (symmetry st) (stell_list st) (nphi st) (ntheta st)
    (plasma_unitnormals st) (plasma_points st) (grid_normalization st)
    (Bn_plasma st) (plasma_boundary_full st) (coils_TF st) b
    n f2 (ugrid st)
    (alphas st) (deltas st) (coil_normals st)
    (grid_xyz_all st) (grid_xyz_all_normalized st) (expanded st) (L st)
    (flux st) (currents st) (b_opt st) (kappas st).

(** ** Helpers shared by the methods *)

(** [a[lo:hi]] with [lo <= hi]. *)
Definition slice {A} (lo hi : nat) (a : list A) : list A :=
  firstn (hi - lo) (skipn lo a).

(** [a[lo:lo + len(block), :] = block].  The code only assigns a block that
    fits in [a]; NumPy refuses any other with a broadcast error. *)
Definition assign_rows {A} (lo : nat) (block a : list A) : list A :=
  firstn lo a ++ block ++ skipn (lo + length block) a.

(** [np.array([c0, c1, c2]).T]: row [i] holds the entries [i] of the three. *)
Definition stack3T (c0 c1 c2 : vec) : list point :=
  np.map2 (fun xy z => (xy, z)) (combine c0 c1) c2.

(** The statement
    [n[np.logical_and(np.isclose(n, 0.0), np.copysign(1.0, n) < 0)] *= -1.0]
    on one entry of [n]. *)
Definition flip_negative_zero (x : R) : R :=
  if np.isclose x 0 && Rltb (np.copysign 1 x) 0 then x * -1 else x.

Definition flip_negative_zeros (n : list point) : list point :=
  map (fun p => (flip_negative_zero (px p), flip_negative_zero (py p),
                 flip_negative_zero (pz p))) n.

(** The normals that the three places of the code build from the angles. *)
Definition normals_of_angles (al de : vec) : list point :=
  stack3T (np.map2 Rmult (map np.cos al) (map np.sin de))
          (np.vneg (map np.sin al))
          (np.map2 Rmult (map np.cos al) (map np.cos de)).

(** The iterations of
    [for fp in range(nfp): for stell in stell_list: ...; q += 1],
    each with its value of [q]. *)
Definition symmetry_loop (nfp : nat) (stell_list : list R)
  : list (nat * (nat * R)) :=
  let body := list_prod (seq 0 nfp) stell_list in
  combine (seq 0 (length body)) body.

(** The image of a point under the rotation by [phi0 = (2 pi / nfp) * fp]
    about the z axis, after its y and z components are multiplied by
    [stell]. *)
Definition replica (nfp fp : nat) (stell : R) (p : point) : point :=
  let phi0 := (2 * np.pi / INR nfp) * INR fp in
  (px p * np.cos phi0 - py p * np.sin phi0 * stell,
   px p * np.sin phi0 + py p * np.cos phi0 * stell,
   pz p * stell).

(** Euclidean distance of two centers. *)
Definition dist (p q : point) : R :=
  np.sqrt ((px p - px q) ^ 2 + (py p - py q) ^ 2 + (pz p - pz q) ^ 2).

(** ** The methods *)

Section Methods.

Variable S : sopp.t.
Variable E : ext.t.

(** [__init__].  The attributes that the constructors assign are blank. *)
Definition blank_surface : Surface := mkSurface 0 false [] [] [] [] [] 0 0.

Definition init : PSCgrid :=
  let mu0 := 4 * np.pi * (1 / 10 ^ 7) in
  let fac := 1 / 10 ^ 7 in
  let num_quad := 8%nat in
  let quad_points_phi := fst (ext.leggauss E num_quad) in
  let quad_weights := snd (ext.leggauss E num_quad) in
  mkPSCgrid mu0 fac []
    (map (fun x => x * np.pi + np.pi) quad_points_phi)
    quad_weights
    (map (fun x => x * (5 / 10) + 5 / 10) quad_points_phi)
    0 0 [] 0 blank_surface 0 false 0 [] 0 0 [] [] [] (mkArray2 (0, 0)%nat [])
    blank_surface [] (fun _ => []) 0 0 None
    [] [] [] [] [] (mkExpanded [] [] [] [] [] [] []) []
    (mkFlux [] [] []) (mkCurrents [] [] [] [] []) [] [].

(** [update_alphas_deltas]. *)
Definition update_alphas_deltas (st : PSCgrid) : PSCgrid :=
  match sopp.update_alphas_deltas_xsimd S (coil_normals st) (nfp st)
          (Nat.b2n (stellsym st)) with
  | (cna, at_, dt, aa_aa, aa_dd, dd_dd, dd_aa) =>
      set_expanded (mkExpanded cna at_ dt aa_aa aa_dd dd_dd dd_aa) st
  end.

(** [setup_full_grid]. *)
Definition setup_full_grid (st : PSCgrid) : PSCgrid :=
  let nn := num_psc st in
  let zeros3 := repeat (0, 0, 0) (nn * symmetry st) in
  let grid_xyz_all :=
    fold_left
      (fun all it =>
         let q := fst it in
         let fp := fst (snd it) in
         let stell := snd (snd it) in
         (* get new locations by flipping the y and z components, then
            rotating by phi0 *)
         assign_rows (nn * q) (map (replica (nfp st) fp stell) (grid_xyz st))
                     all)
      (symmetry_loop (nfp st) (stell_list st)) zeros3 in
  let grid_xyz_all_normalized :=
    map (fun p => (px p / coil_R st, py p / coil_R st, pz p / coil_R st))
        grid_xyz_all in
  update_alphas_deltas (set_full_grid grid_xyz_all grid_xyz_all_normalized st).

(** [setup_orientations]. *)
Definition setup_orientations (st : PSCgrid) (alphas deltas : vec) : PSCgrid :=
  let coil_normals := normals_of_angles alphas deltas in
  (* deal with -0 terms in the normals *)
  let coil_normals := flip_negative_zeros coil_normals in
  let st := set_angles alphas deltas coil_normals st in
  (* Apply discrete symmetries to the alphas and deltas and coordinates *)
  let st := update_alphas_deltas st in
  (* Recompute the inductance matrices with the newly rotated coils *)
  let L_total :=
    sopp.L_matrix S (grid_xyz_all_normalized st)
      (alphas_total (expanded st)) (deltas_total (expanded st))
      (quad_points_phi st) (quad_weights st) in
  let L_total := np.madd L_total (np.transpose L_total) in
  (* Add in self-inductances *)
  let L_total :=
    np.fill_diagonal L_total
      ((np.log (8 * coil_R st / coil_a st) - 2) * 4 * np.pi) in
  (* rescale inductance *)
  set_L (np.mscale L_total (coil_R st)) st.

(** [update_psi]. *)
Definition update_psi (st : PSCgrid) : PSCgrid :=
  let flux_grid :=
    sopp.flux_xyz S (grid_xyz_all st) (alphas_total (expanded st))
      (deltas_total (expanded st)) (quad_points_rho st) (quad_points_phi st) in
  let N := length (quad_points_rho st) in
  let psi_total :=
    sopp.flux_integration S (B_TF st flux_grid)
      (length (alphas_total (expanded st)), N, N)
      (quad_points_rho st) (coil_normals_all (expanded st)) (quad_weights st) in
  set_flux (mkFlux flux_grid psi_total (firstn (num_psc st) psi_total)) st.

(** [setup_A_matrix]: the value that it assigns to [self.A_matrix]. *)
Definition setup_A_matrix (st : PSCgrid) : matrix :=
  let nn := num_psc st in
  let A_matrix :=
    fold_left
      (fun A it =>
         let q := fst it in
         np.madd A
           (sopp.A_matrix_simd S
              (slice (q * nn) ((q + 1) * nn) (grid_xyz_all st))
              (plasma_points st)
              (slice (q * nn) ((q + 1) * nn) (alphas_total (expanded st)))
              (slice (q * nn) ((q + 1) * nn) (deltas_total (expanded st)))
              (plasma_unitnormals st)
              (coil_R st)))
      (symmetry_loop (nfp st) (stell_list st))
      (repeat (np.zeros nn) (nphi st * ntheta st)) in
  map (np.vscale 2) A_matrix.

(** [setup_currents_and_fields]. *)
Definition setup_currents_and_fields (st : PSCgrid) : PSCgrid :=
  let L_inv := ext.linalg_inv E (L st) in
  let I_all :=
    np.vdiv (np.matvec (np.mneg L_inv) (psi_total (flux st))) (fac st) in
  let I := firstn (num_psc st) I_all in
  let A_matrix := setup_A_matrix st in
  let Bn_PSC := np.matvec A_matrix I in
  set_currents (mkCurrents L_inv I_all I A_matrix Bn_PSC) st.

(** [b_vector]. *)
Definition b_vector (st : PSCgrid) : PSCgrid :=
  let Bn_plasma := ravel (Bn_plasma st) in
  let Bn_TF :=
    np.map2 (fun b n => px b * px n + py b * py n + pz b * pz n)
      (B_TF st (plasma_points st)) (plasma_unitnormals st) in
  set_b_opt (np.vdiv (np.vadd Bn_TF Bn_plasma) (fac st)) st.

(** [least_squares]: the value returned and the object afterwards. *)
Definition least_squares (st : PSCgrid) (kappas : vec) : R * PSCgrid :=
  let st := setup_orientations st (firstn (num_psc st) kappas)
                               (skipn (num_psc st) kappas) in
  let st := update_psi st in
  let st := setup_currents_and_fields st in
  let Ax_b :=
    np.vmul (np.vadd (Bn_PSC (currents st)) (b_opt st)) (grid_normalization st) in
  let BdotN2 := np.dot (np.vscale (5 / 10) Ax_b) Ax_b * fac2_norm st in
  (BdotN2, set_BdotN2_list (BdotN2_list st ++ [BdotN2]) st).

(** [A_deriv]. *)
Definition A_deriv (st : PSCgrid) : matrix :=
  let nn := num_psc st in
  let dA_dkappa :=
    fold_left
      (fun acc it =>
         let q := fst it in
         let dA :=
           sopp.dA_dkappa_simd S
             (slice (q * nn) ((q + 1) * nn) (grid_xyz_all st)) (plasma_points st)
             (slice (q * nn) ((q + 1) * nn) (alphas_total (expanded st)))
             (slice (q * nn) ((q + 1) * nn) (deltas_total (expanded st)))
             (plasma_unitnormals st) (quad_points_phi st) (quad_weights st)
             (coil_R st) in
         let left :=
           np.madd (np.cols_to nn acc)
             (np.madd
                (np.mrowmul (np.cols_to nn dA) (slice (q * nn) ((q + 1) * nn) (aaprime_aa (expanded st))))
                (np.mrowmul (np.cols_from nn dA) (slice (q * nn) ((q + 1) * nn) (ddprime_aa (expanded st))))) in
         let right :=
           np.madd (np.cols_from nn acc)
             (np.madd
                (np.mrowmul (np.cols_from nn dA) (slice (q * nn) ((q + 1) * nn) (ddprime_dd (expanded st))))
                (np.mrowmul (np.cols_to nn dA) (slice (q * nn) ((q + 1) * nn) (aaprime_dd (expanded st))))) in
         np.hstack left right)
      (symmetry_loop (nfp st) (stell_list st))
      (repeat (np.zeros (2 * nn)) (length (plasma_points st))) in
  np.mscale dA_dkappa np.pi.

(** [psi_deriv]. *)
Definition psi_deriv (st : PSCgrid) : vec :=
  let nn := num_psc st in
  let I_TF := map c_current (coils_TF st) in
  let dl_TF := map c_gammadash (coils_TF st) in
  let gamma_TF := map c_gamma (coils_TF st) in
  let psi_deriv :=
    fold_left
      (fun acc it =>
         let q := fst it in
         let dpsi :=
           sopp.dpsi_dkappa S I_TF dl_TF gamma_TF
             (slice (q * nn) ((q + 1) * nn) (grid_xyz_all st))
             (slice (q * nn) ((q + 1) * nn) (alphas_total (expanded st)))
             (slice (q * nn) ((q + 1) * nn) (deltas_total (expanded st)))
             (slice (q * nn) ((q + 1) * nn) (coil_normals_all (expanded st)))
             (quad_points_rho st) (quad_points_phi st) (quad_weights st)
             (coil_R st) in
         np.vadd (firstn nn acc)
           (np.vadd (np.vmul (firstn nn dpsi) (slice (q * nn) ((q + 1) * nn) (aaprime_aa (expanded st))))
                    (np.vmul (skipn nn dpsi) (slice (q * nn) ((q + 1) * nn) (ddprime_aa (expanded st)))))
         ++
         np.vadd (skipn nn acc)
           (np.vadd (np.vmul (firstn nn dpsi) (slice (q * nn) ((q + 1) * nn) (aaprime_dd (expanded st))))
                    (np.vmul (skipn nn dpsi) (slice (q * nn) ((q + 1) * nn) (ddprime_dd (expanded st))))))
      (symmetry_loop (nfp st) (stell_list st))
      (np.zeros (2 * nn)) in
  map (fun x => x * (1 / INR (length (hd [] gamma_TF))) / INR (nfp st)
                / (INR (Nat.b2n (stellsym st)) + 1))
      psi_deriv.

(** [least_squares_jacobian]: the gradient returned and the object afterwards. *)
Definition least_squares_jacobian (st : PSCgrid) (kappas : vec) : vec * PSCgrid :=
  let st := setup_orientations st (firstn (num_psc st) kappas)
                               (skipn (num_psc st) kappas) in
  let st := update_psi st in
  let st := setup_currents_and_fields st in
  let nn := num_psc st in
  let Ax_b :=
    np.vmul (np.vadd (Bn_PSC (currents st)) (b_opt st)) (grid_normalization st) in
  let A_deriv := A_deriv st in
  let grad_alpha1 := np.mrowmul (np.cols_to nn A_deriv) (I_psc (currents st)) in
  let grad_delta1 := np.mrowmul (np.cols_from nn A_deriv) (I_psc (currents st)) in
  let grad_kappa1 :=
    np.mcolmul (grid_normalization st) (np.hstack grad_alpha1 grad_delta1) in
  let psi_deriv := psi_deriv st in
  let Linv := np.cols_to nn (firstn nn (L_inv (currents st))) in
  let I_deriv2 := np.mrowmul (np.mneg Linv) (firstn nn psi_deriv) in
  let I_deriv3 := np.mrowmul (np.mneg Linv) (skipn nn psi_deriv) in
  let grad_alpha3 := np.matmul (A_matrix (currents st)) I_deriv2 in
  let grad_delta3 := np.matmul (A_matrix (currents st)) I_deriv3 in
  let grad_kappa3 :=
    np.mcolmul (grid_normalization st) (np.hstack grad_alpha3 grad_delta3) in
  (map (fun x => x * fac2_norm st)
       (np.vecmat Ax_b (np.madd grad_kappa1 grad_kappa3)),
   st).

(** ** The constructors *)

(** [kwargs.pop(key, default)]. *)
Definition pop {A} (o : option A) (default : A) : A :=
  match o with
  | Some x => x
  | None => default
  end.

Record GridKwargs : Type := mkGridKwargs {
  gkw_Bn_plasma : option Array2;
  gkw_plasma_boundary_full : option Surface;
  gkw_Nx : option Z;
  gkw_Ny : option Z;
  gkw_Nz : option Z;
  gkw_poff : option R;
  gkw_interpolated_field : option bool;
  gkw_initialization : option string
}.

Record ManualKwargs : Type := mkManualKwargs {
  kw_a : option R;
  kw_alphas : option vec;
  kw_deltas : option vec;
  kw_plasma_boundary : option Surface;
  kw_Bn_plasma : option Array2;
  kw_plasma_boundary_full : option Surface;
  kw_coils_TF : option (list Coil);
  kw_interpolated_field : option bool
}.

Definition msg_shape : string :=
  "Plasma magnetic field surface data is incorrect shape.".
Definition msg_N : string := "Nx, Ny, and Nz should be positive integers".
Definition msg_plane : string :=
  "The PSC coils are initialized such that they may intersect with a discrete symmetry plane, preventing the proper symmetrization of the coils under stellarator and field-period symmetries. Please reinitialize the coils.".
Definition msg_diameter : string :=
  "There is a PSC coil initialized such that it is within a diameterof another PSC coil. Please reinitialize the coils.".

(** [phi2] in the loop of [_setup_uniform_grid]: no branch assigns it when
    [nfp] is not 2, 3 or 4, and reading it raises. *)
Definition sector_phi2 (nfp : nat) (Rc rc00 : R) (p : point) (phi : R)
  : result R :=
  if Nat.eqb nfp 4 then ret (np.arctan2 Rc (px p))
  else if Nat.eqb nfp 3 then ret (np.arctan2 (py p + Rc) (px p - Rc) - phi)
  else if Nat.eqb nfp 2 then ret (np.arctan2 Rc rc00)
  else raise (NameError "phi2").

(** The loop over [i], [j], [k] of [_setup_uniform_grid] followed by
    [xyz_uniform[good_inds, :]]: the points of the grid, in the order of their
    index, without those that the loop appends to [inds]. *)
Fixpoint chop_sector (nfp : nat) (Rc rc00 : R) (pts : list point)
  : result (list point) :=
  match pts with
  | [] => ret []
  | p :: rest =>
      let phi := np.arctan2 (py p) (px p) in
      do phi2 <- sector_phi2 nfp Rc rc00 p phi;
      do rest' <- chop_sector nfp Rc rc00 rest;
      ret (if Rleb (np.pi / INR nfp - phi2) phi || Rltb phi 0
           then rest' else p :: rest')
  end.

(** [_setup_uniform_grid], from the attributes that it reads. *)
Definition _setup_uniform_grid
  (inner_toroidal_surface outer_toroidal_surface plasma_boundary : Surface)
  (Nx Ny Nz : Z) (poff : R) (nfp : nat) : result UniformGrid :=
  let xyz_inner := s_gamma inner_toroidal_surface in
  let xyz_outer := s_gamma outer_toroidal_surface in
  let x_outer := map px xyz_outer in
  let y_outer := map py xyz_outer in
  let z_outer := map pz xyz_outer in
  let x_max := np.max x_outer in
  let x_min := np.min x_outer in
  let y_max := np.max y_outer in
  let y_min := np.min y_outer in
  let z_max := np.max z_outer in
  let z_min := np.min z_outer in
  let z_max := Rmax z_max (Rabs z_min) in
  (* Initialize uniform grid *)
  let dx := (x_max - x_min) / IZR (Nx - 1) in
  let dy := (y_max - y_min) / IZR (Ny - 1) in
  let dz := 2 * z_max / IZR (Nz - 1) in
  let Nmin := Rmin dx (Rmin dy dz) in
  let Rc :=
    if Nat.eqb (s_nfp plasma_boundary) 2 then Nmin / (25 / 10)
    else if Nat.eqb (s_nfp plasma_boundary) 3 then Rmin (Nmin / 2) (poff / 3)
    else poff / (25 / 10) in
  let a := Rc / 100 in   (* Hard-coded aspect ratio of 100 right now *)
  let X :=
    if Nat.ltb 1 (s_nfp plasma_boundary)
    then np.linspace (dx / 2 + x_min) (x_max - dx / 2) (Z.to_nat Nx)
    else np.linspace x_min x_max (Z.to_nat Nx) in
  let Y :=
    if Nat.ltb 1 (s_nfp plasma_boundary)
    then np.linspace (dy / 2 + y_min) (y_max - dy / 2) (Z.to_nat Ny)
    else np.linspace y_min y_max (Z.to_nat Ny) in
  let Zs := np.linspace (- z_max) z_max (Z.to_nat Nz) in
  (* Make 3D mesh *)
  let xyz_uniform :=
    flat_map (fun x => flat_map (fun y => map (fun z => (x, y, z)) Zs) Y) X in
  (* Extra work for nfp > 1 to chop off points outside sector *)
  do xyz_uniform <-
     (if Nat.ltb 1 nfp
      then chop_sector nfp Rc (s_rc00 plasma_boundary) xyz_uniform
      else ret xyz_uniform);
  ret (mkUniformGrid xyz_inner xyz_outer dx dy dz Rc a xyz_uniform).

(** The list [inds] of the check for a symmetry plane. *)
Definition symmetry_plane_inds (nfp : nat) (Rc : R) (grid_xyz : list point)
  : list nat :=
  let phi0 := map (fun i => 2 * np.pi / INR nfp * i) (np.arange nfp) in
  let phi_grid := map (fun p => np.arctan2 (py p) (px p)) grid_xyz in
  let phi_dev :=
    map (fun p => np.arctan2 Rc (np.sqrt (px p ^ 2 + py p ^ 2))) grid_xyz in
  flat_map
    (fun i =>
       let conflicts :=
         np.where_
           (np.map2 (fun pg pd => Rltb (np.abs (pg - nth i phi0 0)) pd)
                    phi_grid phi_dev) in
       match conflicts with
       | [] => []
       | c :: _ => [c]
       end)
    (seq 0 nfp).

(** The two loops over [i] and [j > i] of the grid constructor: does some
    [dij < 2.0 * R] hold. *)
Definition diameter_conflict (Rc : R) (num_psc : nat) (grid_xyz : list point)
  : bool :=
  existsb
    (fun i =>
       existsb
         (fun j =>
            let dij := dist (nth i grid_xyz (0, 0, 0)) (nth j grid_xyz (0, 0, 0)) in
            Rltb dij (2 * Rc))
         (seq (i + 1) (num_psc - (i + 1))))
    (seq 0 num_psc).

Definition norm3 (p : point) : R := np.sqrt (px p ^ 2 + py p ^ 2 + pz p ^ 2).

(** The statements that end both constructors: the symmetrized grid, the
    fields and currents of the initial angles, [b_opt] and [kappas]. *)
Definition finish_setup (st : PSCgrid) : PSCgrid :=
  let st := setup_full_grid st in
  let st := setup_orientations st (alphas st) (deltas st) in
  let st := update_psi st in
  let st := setup_currents_and_fields st in
  let st := b_vector st in
  set_kappas (alphas st ++ deltas st) st.

(** The first part of [geo_setup_between_toroidal_surfaces], up to the
    assignment of [quad_points_rho]: the plasma data, the checks of the
    arguments, the uniform grid and the centers kept between the surfaces. *)
Definition geo_setup_between_toroidal_surfaces_grid
  (plasma_boundary0 : Surface) (coils_TF : list Coil)
  (inner_toroidal_surface0 outer_toroidal_surface0 : Surface)
  (kwargs : GridKwargs) : result PSCgrid :=
  let psc_grid := init in
  (* Get all the geometric data from the plasma boundary *)
  let plasma_boundary := ext.to_RZFourier E plasma_boundary0 in
  let nfp := s_nfp plasma_boundary0 in
  let stellsym := s_stellsym plasma_boundary0 in
  let symmetry := (s_nfp plasma_boundary0 * (Nat.b2n (s_stellsym plasma_boundary0) + 1))%nat in
  let stell_list := if stellsym then [1; -1] else [1] in
  let nphi := length (s_quadpoints_phi plasma_boundary) in
  let ntheta := length (s_quadpoints_theta plasma_boundary) in
  let plasma_unitnormals := s_unitnormal plasma_boundary in
  let plasma_points := s_gamma plasma_boundary in
  let Ngrid := (nphi * ntheta)%nat in
  let Nnorms := map norm3 (s_normal plasma_boundary) in
  let grid_normalization := map (fun x => np.sqrt (x / INR Ngrid)) Nnorms in
  let Bn_plasma :=
    pop (gkw_Bn_plasma kwargs)
        (mkArray2 (nphi, ntheta) (np.zeros (nphi * ntheta))) in
  if negb (np.allclose_shape (shape Bn_plasma) (nphi, ntheta))
  then raise (ValueError msg_shape)
  else
  let plasma_boundary_full :=
    pop (gkw_plasma_boundary_full kwargs) plasma_boundary in
  (* Get geometric data for initializing the PSCs *)
  let Nx := pop (gkw_Nx kwargs) 10%Z in
  let Ny := pop (gkw_Ny kwargs) Nx in
  let Nz := pop (gkw_Nz kwargs) Nx in
  let poff := pop (gkw_poff kwargs) 100 in
  if (Nx <=? 0)%Z || (Ny <=? 0)%Z || (Nz <=? 0)%Z
  then raise (ValueError msg_N)
  else
  let inner_toroidal_surface := ext.to_RZFourier E inner_toroidal_surface0 in
  let outer_toroidal_surface := ext.to_RZFourier E outer_toroidal_surface0 in
  (* Use the geometric info to initialize a grid of PSCs *)
  let normal_inner := s_unitnormal inner_toroidal_surface0 in
  let normal_outer := s_unitnormal outer_toroidal_surface0 in
  do ug <- _setup_uniform_grid inner_toroidal_surface outer_toroidal_surface
             plasma_boundary Nx Ny Nz poff nfp;
  (* Have the uniform grid, now need to loop through and eliminate cells. *)
  let grid_xyz :=
    sopp.define_a_uniform_cartesian_grid_between_two_toroidal_surfaces S
      normal_inner normal_outer (xyz_uniform ug) (xyz_inner ug) (xyz_outer ug) in
  let grid_xyz :=
    filter (fun p => negb (Reqb (px p) 0 && Reqb (py p) 0 && Reqb (pz p) 0))
           grid_xyz in
  let num_psc := length grid_xyz in
  ret (mkPSCgrid (mu0 psc_grid) (fac psc_grid) (BdotN2_list psc_grid)
         (quad_points_phi psc_grid) (quad_weights psc_grid)
         (map (fun x => x * ug_R ug) (quad_points_rho psc_grid))
         (ug_R ug) (ug_a ug) grid_xyz num_psc
         plasma_boundary nfp stellsym symmetry stell_list nphi ntheta
         plasma_unitnormals plasma_points grid_normalization
         Bn_plasma plasma_boundary_full coils_TF (B_TF psc_grid)
         (normalization psc_grid) (fac2_norm psc_grid) (Some ug)
         (alphas psc_grid) (deltas psc_grid) (coil_normals psc_grid)
         (grid_xyz_all psc_grid) (grid_xyz_all_normalized psc_grid)
         (expanded psc_grid) (L psc_grid) (flux psc_grid)
         (currents psc_grid) (b_opt psc_grid) (kappas psc_grid)).

(** The angles and normals of the keyword [initialization]. *)
Definition initial_orientation (psc_grid : PSCgrid) (B_points : list point)
  (initialization : string) : vec * vec * list point :=
  if String.eqb initialization "random" then
    (* Randomly initialize the coil orientations *)
    let alphas :=
      map (fun x => (x - 5 / 10) * np.pi)
          (ext.random_rand E 0 (num_psc psc_grid)) in
    let deltas :=
      map (fun x => (x - 5 / 10) * 2 * np.pi)
          (ext.random_rand E 1 (num_psc psc_grid)) in
    (alphas, deltas, normals_of_angles alphas deltas)
  else if String.eqb initialization "plasma" then
    (* determine the alphas and deltas from the plasma normal vectors *)
    let coil_normals :=
      map (fun point_ =>
             let dists :=
               map (fun q => (px point_ - px q) ^ 2 + (py point_ - py q) ^ 2
                             + (pz point_ - pz q) ^ 2)
                   (plasma_points psc_grid) in
             let min_ind := np.argmin dists in
             nth min_ind (plasma_unitnormals psc_grid) (0, 0, 0))
          (grid_xyz psc_grid) in
    let deltas := map (fun n => np.arctan2 (px n) (pz n)) coil_normals in
    let alphas := map (fun n => - np.arcsin (py n)) coil_normals in
    (alphas, deltas, coil_normals)
  else if String.eqb initialization "TF" then
    (* determine the alphas and deltas from these normal vectors *)
    let B := B_TF psc_grid B_points in
    let coil_normals :=
      map (fun b => (px b / norm3 b, py b / norm3 b, pz b / norm3 b)) B in
    let deltas := map (fun n => np.arctan2 (px n) (pz n)) coil_normals in
    let alphas := map (fun n => - np.arcsin (py n)) coil_normals in
    (alphas, deltas, coil_normals)
  else
    (* default is to initialize to zeros *)
    let alphas := np.zeros (num_psc psc_grid) in
    let deltas := np.zeros (num_psc psc_grid) in
    (alphas, deltas, normals_of_angles alphas deltas).

(** [geo_setup_between_toroidal_surfaces]. *)
Definition geo_setup_between_toroidal_surfaces
  (plasma_boundary0 : Surface) (coils_TF : list Coil)
  (inner_toroidal_surface0 outer_toroidal_surface0 : Surface)
  (kwargs : GridKwargs) : result PSCgrid :=
  do psc_grid <-
     geo_setup_between_toroidal_surfaces_grid plasma_boundary0 coils_TF
       inner_toroidal_surface0 outer_toroidal_surface0 kwargs;
  (* Setup the B field from the TF coils *)
  let interpolated_field := pop (gkw_interpolated_field kwargs) false in
  let B_TF0 := ext.BiotSavart E coils_TF in
  let B_TF :=
    if interpolated_field then
      let n := 40%nat in
      let degree := 3%nat in
      let Rc := coil_R psc_grid in
      let gamma_outer := s_gamma outer_toroidal_surface0 in
      let rs := map (fun p => np.sqrt (px p ^ 2 + py p ^ 2)) gamma_outer in
      let zs := map pz gamma_outer in
      let rrange := (0, np.max rs + Rc, n) in
      let phirange :=
        if Nat.ltb 1 (nfp psc_grid)
        then (0, 2 * np.pi / INR (nfp psc_grid), (n * 2)%nat)
        else (0, 2 * np.pi, (n * 2)%nat) in
      let zrange :=
        if stellsym psc_grid
        then (0, np.max zs + Rc, Nat.div n 2)
        else (np.min zs - Rc, np.max zs + Rc, Nat.div n 2) in
      ext.InterpolatedField E B_TF0 degree rrange phirange zrange true
        (nfp psc_grid) (stellsym psc_grid)
    else B_TF0 in
  let on_axis := ext.calculate_on_axis_B E B_TF (plasma_boundary psc_grid) in
  let B_axis := fst on_axis in
  (* Normalization of the ||A*Linv*psi - b||^2 objective *)
  let normalization := B_axis ^ 2 * s_area (plasma_boundary psc_grid) in
  let fac2_norm := fac psc_grid ^ 2 / normalization in
  let psc_grid := set_field B_TF normalization fac2_norm psc_grid in
  (* Random or B_TF aligned initialization of the coil orientations *)
  let initialization := pop (gkw_initialization kwargs) "zeros"%string in
  match initial_orientation psc_grid (snd on_axis) initialization with
  | (alphas, deltas, coil_normals) =>
      (* deal with -0 terms in the normals *)
      let coil_normals := flip_negative_zeros coil_normals in
      let psc_grid := set_angles alphas deltas coil_normals psc_grid in
      (* Check if the grid intersects a symmetry plane -- oops! *)
      let inds :=
        symmetry_plane_inds (nfp psc_grid) (coil_R psc_grid)
                            (grid_xyz psc_grid) in
      if Nat.ltb 0 (length inds) then raise (ValueError msg_plane)
      else if diameter_conflict (coil_R psc_grid) (num_psc psc_grid)
                                (grid_xyz psc_grid)
      then raise (ValueError msg_diameter)
      else ret (finish_setup psc_grid)
  end.

(** The default plasma boundary of [geo_setup_manual]: the surface read from
    the input file, with [nfp = 1] and [stellsym = False] assigned to it. *)
Definition default_surf : Surface :=
  let s := ext.from_vmec_input_default E in
  mkSurface 1 false (s_quadpoints_phi s) (s_quadpoints_theta s) (s_gamma s)
    (s_unitnormal s) (s_normal s) (s_area s) (s_rc00 s).

(** [geo_setup_manual]. *)
Definition geo_setup_manual (points : list point) (Rc : R)
  (kwargs : ManualKwargs) : result PSCgrid :=
  let psc_grid := init in
  (* Initialize geometric information of the PSC array *)
  let grid_xyz := points in
  let a := pop (kw_a kwargs) (Rc / 100) in
  let num_psc := length grid_xyz in
  let alphas :=
    pop (kw_alphas kwargs)
        (map (fun x => (x - 5 / 10) * np.pi) (ext.random_rand E 0 num_psc)) in
  let deltas :=
    pop (kw_deltas kwargs)
        (map (fun x => (x - 5 / 10) * 2 * np.pi) (ext.random_rand E 1 num_psc)) in
  let quad_points_rho := map (fun x => x * Rc) (quad_points_rho psc_grid) in
  (* initialize a default plasma boundary *)
  let default_surf := default_surf in
  (* Initialize all the plasma boundary information *)
  let plasma_boundary := pop (kw_plasma_boundary kwargs) default_surf in
  let nfp := s_nfp plasma_boundary in
  let stellsym := s_stellsym plasma_boundary in
  let nphi := length (s_quadpoints_phi plasma_boundary) in
  let ntheta := length (s_quadpoints_theta plasma_boundary) in
  let plasma_unitnormals := s_unitnormal plasma_boundary in
  let plasma_points := s_gamma plasma_boundary in
  let symmetry := (s_nfp plasma_boundary * (Nat.b2n (s_stellsym plasma_boundary) + 1))%nat in
  let stell_list := if stellsym then [1; -1] else [1] in
  let Ngrid := (nphi * ntheta)%nat in
  let Nnorms := map norm3 (s_normal plasma_boundary) in
  let grid_normalization := map (fun x => np.sqrt (x / INR Ngrid)) Nnorms in
  let Bn_plasma :=
    pop (kw_Bn_plasma kwargs)
        (mkArray2 (nphi, ntheta) (np.zeros (nphi * ntheta))) in
  if negb (np.allclose_shape (shape Bn_plasma) (nphi, ntheta))
  then raise (ValueError msg_shape)
  else
  let plasma_boundary_full :=
    pop (kw_plasma_boundary_full kwargs) plasma_boundary in
  (* Check if the grid intersects a symmetry plane -- oops! *)
  let inds := symmetry_plane_inds nfp Rc grid_xyz in
  if Nat.ltb 0 (length inds) then raise (ValueError msg_plane)
  else
  (* generate planar TF coils *)
  let default_coils := ext.default_coils E nfp stellsym in
  let coils_TF := pop (kw_coils_TF kwargs) default_coils in
  (* Setup the B field from the TF coils.  The interpolated field that the
     keyword [interpolated_field] asks for is assigned to [psc_grid.B_TF] and
     then replaced by [B_TF] below: it never reaches the object. *)
  let B_TF := ext.BiotSavart E coils_TF in
  let B_axis := fst (ext.calculate_on_axis_B E B_TF plasma_boundary) in
  (* Normalization of the ||A*Linv*psi - b||^2 objective *)
  let normalization := B_axis ^ 2 * s_area plasma_boundary in
  let fac2_norm := fac psc_grid ^ 2 / normalization in
  let coil_normals := normals_of_angles alphas deltas in
  (* deal with -0 terms in the normals *)
  let coil_normals := flip_negative_zeros coil_normals in
  let psc_grid :=
    mkPSCgrid (mu0 psc_grid) (fac psc_grid) (BdotN2_list psc_grid)
      (quad_points_phi psc_grid) (quad_weights psc_grid) quad_points_rho
      Rc a grid_xyz num_psc
      plasma_boundary nfp stellsym symmetry stell_list nphi ntheta
      plasma_unitnormals plasma_points grid_normalization
      Bn_plasma plasma_boundary_full coils_TF B_TF
      normalization fac2_norm None
      alphas deltas coil_normals
      (grid_xyz_all psc_grid) (grid_xyz_all_normalized psc_grid)
      (expanded psc_grid) (L psc_grid) (flux psc_grid)
      (currents psc_grid) (b_opt psc_grid) (kappas psc_grid) in
  ret (finish_setup psc_grid).

End Methods.

(** ** The symmetry expansion of the normals *)

(** Modelled from the spec: the kernel [update_alphas_deltas_xsimd] of
    simsoptpp, which expands the normals, is not among the sources.  The
    specification (SymmetryExpander) has the expanded normals computed like
    the expanded centers: for each of the [nfp] rotations combined with each
    stellarator-symmetry sign, a rotation by [phi0 = 2 pi fp / nfp] about the
    toroidal axis, with a sign flip of the y and z components under the
    stellarator-symmetric branch; the replicas follow one another in the
    order of the centers, the fundamental domain first. *)
Definition expand_normals_spec (nfp stellsym : nat) (coil_normals : list point)
  : list point :=
  let stell_list := if Nat.eqb stellsym 0 then [1] else [1; -1] in
  flat_map
    (fun it => map (replica nfp (fst it) (snd it)) coil_normals)
    (list_prod (seq 0 nfp) stell_list).

(** Modelled from the spec: the kernels [K] with the expanded normals of the
    specification in place of the first output of the missing kernel
    [update_alphas_deltas_xsimd]; the expanded angles and the four derivative
    factors, of which the specification gives no formula, stay those of [K]. *)
Definition with_spec_expander (K : sopp.t) : sopp.t :=
  sopp.mk
    (sopp.define_a_uniform_cartesian_grid_between_two_toroidal_surfaces K)
    (sopp.L_matrix K)
    (fun cn nfp ss =>
       match sopp.update_alphas_deltas_xsimd K cn nfp ss with
       | (_, at_, dt, aa_aa, aa_dd, dd_dd, dd_aa) =>
           (expand_normals_spec nfp ss cn, at_, dt, aa_aa, aa_dd, dd_dd, dd_aa)
       end)
    (sopp.flux_xyz K)
    (sopp.flux_integration K)
    (sopp.A_matrix_simd K)
    (sopp.dA_dkappa_simd K)
    (sopp.dpsi_dkappa K).

(** ** Shapes and the invariant of a constructed object *)

(** A 2-D array of shape [(n, m)]. *)
Definition has_shape (n m : nat) (M : matrix) : Prop :=
  length M = n /\ Forall (fun row => length row = m) M.

(** What both constructors establish of the symmetry attributes, and the
    methods keep. *)
Record consistent (st : PSCgrid) : Prop := mkConsistent {
  cons_num_psc : num_psc st = length (grid_xyz st);
  cons_nfp : (1 <= nfp st)%nat;
  cons_stell_list : stell_list st = if stellsym st then [1; -1] else [1];
  cons_symmetry : symmetry st = (nfp st * (Nat.b2n (stellsym st) + 1))%nat
}.

(** The value that the specification gives for the diagonal of [L], and the
    one that [setup_orientations] fills in. *)
Definition self_inductance_spec (Rc a : R) : R :=
  np.log (8 * Rc / a - 2) * 4 * np.pi * Rc.
Definition self_inductance (Rc a : R) : R :=
  (np.log (8 * Rc / a) - 2) * 4 * np.pi * Rc.

(** The attributes that only [__init__] and the constructors assign. *)
Definition fixed_attributes (st : PSCgrid) :=
  (mu0 st, fac st, quad_points_phi st, quad_weights st, quad_points_rho st,
   coil_R st, coil_a st, grid_xyz st, num_psc st, plasma_boundary st,
   nfp st, stellsym st, symmetry st, stell_list st, nphi st, ntheta st,
   plasma_unitnormals st, plasma_points st, grid_normalization st,
   Bn_plasma st, plasma_boundary_full st, coils_TF st, B_TF st,
   normalization st, fac2_norm st, ugrid st).

(** ** A small instance

    Kernels and collaborators simple enough to run the methods on: coils
    without mutual inductance in a uniform unit field along z. *)

Definition toy_kernels : sopp.t :=
  sopp.mk
    (fun _ _ _ _ _ => [(-1, 0, 0); (-1, 0, 1 / 10)])
    (fun pts _ _ _ _ => repeat (repeat 0 (length pts)) (length pts))
    (fun cn nfp ss => (expand_normals_spec nfp ss cn, [], [], [], [], [], []))
    (fun _ _ _ _ _ => [])
    (fun _ _ _ cn _ => map (fun _ => 1) cn)
    (fun _ _ _ _ _ _ => [])
    (fun _ _ _ _ _ _ _ _ => [])
    (fun _ _ _ _ _ _ _ _ _ _ _ => []).

Definition toy_surface (nfp : nat) (stellsym : bool) : Surface :=
  mkSurface nfp stellsym [] [] [] [] [] 1 1.

Definition toy_collaborators : ext.t :=
  ext.mk
    (fun n => (repeat 0 n, repeat 1 n))
    (fun _ n => repeat (5 / 10) n)
    (fun M => M)
    (fun _ pts => map (fun _ => (0, 0, 1)) pts)
    (fun f _ _ _ _ _ _ _ => f)
    (fun _ _ => (1, []))
    (fun s => s)
    (toy_surface 1 false)
    (fun _ _ => []).

Definition no_kwargs : ManualKwargs :=
  mkManualKwargs None None None None None None None None.

Definition no_grid_kwargs : GridKwargs :=
  mkGridKwargs None None None None None None None None.

(** One coil at [(-1, 0, 0)] with [R = 1] and [a = 1/100], without symmetry,
    before the first orientation update. *)
Definition toy_state : PSCgrid :=
  mkPSCgrid (4 * np.pi * (1 / 10 ^ 7)) (1 / 10 ^ 7) [] [] [] []
    1 (1 / 100) [(-1, 0, 0)] 1 (toy_surface 1 false) 1 false 1 [1] 0 0
    [] [] [] (mkArray2 (0, 0)%nat []) (toy_surface 1 false) []
    (fun pts => map (fun _ => (0, 0, 1)) pts) 1 (1 / 10 ^ 14) None
    [] [] [] [(-1, 0, 0)] [(-1, 0, 0)] (mkExpanded [] [] [] [] [] [] []) []
    (mkFlux [] [] []) (mkCurrents [] [] [] [] []) [] [].

(** ** The run of an optimizer

    After construction the optimizer calls [least_squares] and
    [least_squares_jacobian] any number of times, each on the object that the
    previous call left. *)
Inductive run (K : sopp.t) (E : ext.t) : PSCgrid -> PSCgrid -> Prop :=
| run_start : forall st, run K E st st
| run_least_squares : forall st st' kappas,
    run K E st st' -> run K E st (snd (least_squares K E st' kappas))
| run_jacobian : forall st st' kappas,
    run K E st st' -> run K E st (snd (least_squares_jacobian K E st' kappas)).

(** An object as one of the two constructors returns it. *)
Inductive constructed (K : sopp.t) (E : ext.t) : PSCgrid -> Prop :=
| constructed_grid : forall plasma_boundary coils_TF inner outer kwargs st,
    geo_setup_between_toroidal_surfaces K E plasma_boundary coils_TF inner
      outer kwargs = inr st ->
    constructed K E st
| constructed_manual : forall points Rc kwargs st,
    geo_setup_manual K E points Rc kwargs = inr st ->
    constructed K E st.

(** [B_axis] and the normalization of the objective, as both constructors
    compute them. *)
Definition B_axis (E : ext.t) (st : PSCgrid) : R :=
  fst (ext.calculate_on_axis_B E (B_TF st) (plasma_boundary st)).

Definition normalized (E : ext.t) (st : PSCgrid) : Prop :=
  fac st = 1 / 10 ^ 7
  /\ normalization st = B_axis E st ^ 2 * s_area (plasma_boundary st)
  /\ fac2_norm st = fac st ^ 2 / normalization st.

(** Keyword arguments of [geo_setup_manual]: a minor radius, and a plasma
    boundary with two field periods and stellarator symmetry. *)
Definition kwargs_a (a : R) : ManualKwargs :=
  mkManualKwargs (Some a) None None None None None None None.

Definition kwargs_nfp2 : ManualKwargs :=
  mkManualKwargs None None None (Some (toy_surface 2 true)) None None None None.

(** Two centers at distance 0.1, for coils of radius 0.1. *)
Definition close_points : list point := [(-1, 0, 0); (-1, 0, 1 / 10)].

(** An object whose inductance matrix is [[2]] and whose flux is [4], and
    collaborators whose [np.linalg.inv] returns [[1/2]]. *)
Definition solved_state : PSCgrid :=
  set_L [[2]] (set_flux (mkFlux [] [4] [4]) toy_state).

Definition halving : ext.t :=
  ext.mk
    (ext.leggauss toy_collaborators)
    (ext.random_rand toy_collaborators)
    (fun _ => [[1 / 2]])
    (ext.BiotSavart toy_collaborators)
    (ext.InterpolatedField toy_collaborators)
    (ext.calculate_on_axis_B toy_collaborators)
    (ext.to_RZFourier toy_collaborators)
    (ext.from_vmec_input_default toy_collaborators)
    (ext.default_coils toy_collaborators).

(** ** The remaining methods *)

(** A 3-D array: a list of 2-D arrays along its first axis. *)
Definition tensor := list matrix.

(** [L_deriv], for the array [L_deriv] that the kernel [sopp.L_deriv_simd]
    returned for the object. *)
Definition L_deriv (L_deriv_simd : tensor) (st : PSCgrid) : tensor :=
  let L_deriv := L_deriv_simd in
  let nsym := symmetry st in
  let L_deriv_copy := map (map (map (fun _ : R => 0))) L_deriv in
  (* Extra work required to impose the symmetries correctly *)
  let nn := num_psc st in
  let ncoils_sym := (nn * nsym)%nat in
  let L_deriv_copy :=
    if Nat.ltb 1 nsym then
      fold_left
        (fun copy it =>
           let q := fst it in
           let lo := slice (q * nn) ((q + 1) * nn) L_deriv in
           let hi :=
             slice (ncoils_sym + q * nn) (ncoils_sym + (q + 1) * nn) L_deriv in
           let copy :=
             assign_rows 0
               (np.map2 np.madd (slice 0 nn copy)
                  (np.map2 np.madd
                     (np.map2 np.mscale lo
                        (slice (q * nn) ((q + 1) * nn) (aaprime_aa (expanded st))))
                     (np.map2 np.mscale hi
                        (slice (q * nn) ((q + 1) * nn) (ddprime_aa (expanded st))))))
               copy in
           assign_rows ncoils_sym
             (np.map2 np.madd (slice ncoils_sym (ncoils_sym + nn) copy)
                (np.map2 np.madd
                   (np.map2 np.mscale lo
                      (slice (q * nn) ((q + 1) * nn) (aaprime_dd (expanded st))))
                   (np.map2 np.mscale hi
                      (slice (q * nn) ((q + 1) * nn) (ddprime_dd (expanded st))))))
             copy)
        (symmetry_loop (nfp st) (stell_list st)) L_deriv_copy
    else L_deriv in
  (* symmetrize it *)
  let L_deriv := map (fun M => np.madd M (np.transpose M)) L_deriv_copy in
  map (fun M => np.mscale M (coil_R st)) L_deriv.

(** [setup_curves]: the array [dofs] that the loop passes to [set_dofs] for
    the coil [ic < num_psc]. *)
Definition curve_dofs (st : PSCgrid) (ic : nat) : vec :=
  let alpha2 := nth ic (alphas st) 0 / 2 in
  let delta2 := nth ic (deltas st) 0 / 2 in
  let calpha2 := np.cos alpha2 in
  let salpha2 := np.sin alpha2 in
  let cdelta2 := np.cos delta2 in
  let sdelta2 := np.sin delta2 in
  let center := nth ic (grid_xyz st) (0, 0, 0) in
  [coil_R st; 0; 0;
   calpha2 * cdelta2; salpha2 * cdelta2; calpha2 * sdelta2; - salpha2 * sdelta2;
   px center; py center; pz center].

(** [plot_curves]: the array [I_all_with_sign_flips] that it assigns. *)
Definition I_all_with_sign_flips (st : PSCgrid) : vec :=
  let nn := num_psc st in
  fold_left
    (fun flips it =>
       let q := fst it in
       let stell := snd (snd it) in
       assign_rows (q * nn)
         (map (fun x => x * stell)
              (slice (q * nn) ((q + 1) * nn) (I_all (currents st))))
         flips)
    (symmetry_loop (nfp st) (stell_list st))
    (np.zeros (length (I_all (currents st)))).

(** ** What a call of the optimizer reads and writes *)

(** The attributes that [least_squares] and [least_squares_jacobian] read
    without assigning them first, and the ones that they recompute. *)
Definition static (st : PSCgrid) :=
  (fixed_attributes st, grid_xyz_all st, grid_xyz_all_normalized st, b_opt st).

Definition derived (st : PSCgrid) :=
  (alphas st, deltas st, coil_normals st, expanded st, L st, flux st,
   currents st).

(** The three updates that start both [least_squares] and
    [least_squares_jacobian]. *)
Definition recompute (K : sopp.t) (E : ext.t) (st : PSCgrid) (kappas : vec)
  : PSCgrid :=
  setup_currents_and_fields K E
    (update_psi K
       (setup_orientations K st (firstn (num_psc st) kappas)
                           (skipn (num_psc st) kappas))).

(** The square of the distance of a point from the z axis. *)
Definition rho2 (p : point) : R := px p ^ 2 + py p ^ 2.

(** ** The outcome of the shape check of the constructors *)

Definition grid_Bn_plasma_accepted (E : ext.t) (plasma_boundary0 : Surface)
  (kwargs : GridKwargs) : bool :=
  let plasma_boundary := ext.to_RZFourier E plasma_boundary0 in
  let nphi := length (s_quadpoints_phi plasma_boundary) in
  let ntheta := length (s_quadpoints_theta plasma_boundary) in
  np.allclose_shape
    (shape (pop (gkw_Bn_plasma kwargs)
                (mkArray2 (nphi, ntheta) (np.zeros (nphi * ntheta)))))
    (nphi, ntheta).

Definition manual_Bn_plasma_accepted (E : ext.t) (kwargs : ManualKwargs) : bool :=
  let plasma_boundary := pop (kw_plasma_boundary kwargs) (default_surf E) in
  let nphi := length (s_quadpoints_phi plasma_boundary) in
  let ntheta := length (s_quadpoints_theta plasma_boundary) in
  np.allclose_shape
    (shape (pop (kw_Bn_plasma kwargs)
                (mkArray2 (nphi, ntheta) (np.zeros (nphi * ntheta)))))
    (nphi, ntheta).

(** A center conflicts with the plane [phi0[i]] of the symmetry check. *)
Definition plane_conflict (nfp : nat) (Rc : R) (i : nat) (p : point) : Prop :=
  np.abs (np.arctan2 (py p) (px p) - 2 * np.pi / INR nfp * INR i)
  < np.arctan2 Rc (np.sqrt (px p ^ 2 + py p ^ 2)).



Definition grid_kwargs_Nx (Nx : Z) : GridKwargs :=
  mkGridKwargs None None (Some Nx) None None None None None.

Definition grid_kwargs_poff (poff : R) : GridKwargs :=
  mkGridKwargs None None None None None (Some poff) None None.

(** * Properties *)

(** ** Lists and arrays *)

Lemma nth_map_lt {A B} (f : A -> B) (l : list A) (i : nat) (d : B) (d' : A) :
  (i < length l)%nat -> nth i (map f l) d = f (nth i l d').
Proof.
  intros Hi. rewrite (nth_indep _ d (f d')).
  - apply map_nth.
  - now rewrite length_map.
Qed.

Lemma map2_length {A B C} (f : A -> B -> C) u v :
  length (np.map2 f u v) = Nat.min (length u) (length v).
Proof. unfold np.map2. now rewrite length_map, length_combine. Qed.

Lemma nth_map2 {A B C} (f : A -> B -> C) u v i d du dv :
  (i < length u)%nat -> (i < length v)%nat ->
  nth i (np.map2 f u v) d = f (nth i u du) (nth i v dv).
Proof.
  revert v i. induction u as [|x u IH]; intros [|y v] [|i] Hu Hv;
    simpl in *; try lia; auto.
  apply IH; lia.
Qed.

Lemma map2_cons {A B C} (f : A -> B -> C) x u y v :
  np.map2 f (x :: u) (y :: v) = f x y :: np.map2 f u v.
Proof. reflexivity. Qed.

Lemma dot_cons x u y v : np.dot (x :: u) (y :: v) = x * y + np.dot u v.
Proof. reflexivity. Qed.

Lemma dot_nil_l v : np.dot [] v = 0.
Proof. reflexivity. Qed.

Lemma dot_nil_r u : np.dot u [] = 0.
Proof. destruct u; reflexivity. Qed.

Lemma dot_vscale_l c u v : np.dot (np.vscale c u) v = c * np.dot u v.
Proof.
  revert v. induction u as [|x u IH]; intros [|y v]; simpl;
    rewrite ?dot_nil_l, ?dot_nil_r; try lra.
  change (np.dot (c * x :: np.vscale c u) (y :: v) = c * np.dot (x :: u) (y :: v)).
  rewrite !dot_cons, IH. ring.
Qed.

Lemma dot_vneg_r u v : np.dot u (np.vneg v) = - np.dot u v.
Proof.
  revert v. induction u as [|x u IH]; intros [|y v]; simpl;
    rewrite ?dot_nil_l, ?dot_nil_r; try lra.
  change (np.dot (x :: u) (- y :: np.vneg v) = - np.dot (x :: u) (y :: v)).
  rewrite !dot_cons, IH. ring.
Qed.

Lemma dot_vneg_l u v : np.dot (np.vneg u) v = - np.dot u v.
Proof.
  revert v. induction u as [|x u IH]; intros [|y v]; simpl;
    rewrite ?dot_nil_l, ?dot_nil_r; try lra.
  change (np.dot (- x :: np.vneg u) (y :: v) = - np.dot (x :: u) (y :: v)).
  rewrite !dot_cons, IH. ring.
Qed.

Lemma dot_self_nonneg v : 0 <= np.dot v v.
Proof.
  induction v as [|x v IH]; [rewrite dot_nil_l; lra|].
  rewrite dot_cons. nra.
Qed.

(** The helpers on a few small inputs. *)

Example symmetry_loop_2_stellsym :
  symmetry_loop 2 [1; -1]
  = [(0%nat, (0%nat, 1)); (1%nat, (0%nat, -1));
     (2%nat, (1%nat, 1)); (3%nat, (1%nat, -1))].
Proof. reflexivity. Qed.

Example symmetry_loop_3 :
  symmetry_loop 3 [1]
  = [(0%nat, (0%nat, 1)); (1%nat, (1%nat, 1)); (2%nat, (2%nat, 1))].
Proof. reflexivity. Qed.

Example where_mask : np.where_ [false; true; true; false; true] = [1; 2; 4]%nat.
Proof. reflexivity. Qed.

Example slice_block : slice 2 4 [10; 11; 12; 13; 14; 15]%nat = [12; 13]%nat.
Proof. reflexivity. Qed.

Example assign_rows_block :
  assign_rows 2 [7; 8]%nat [0; 0; 0; 0; 0; 0]%nat = [0; 0; 7; 8; 0; 0]%nat.
Proof. reflexivity. Qed.

Example transpose_2x2 :
  np.transpose [[1; 2]; [3; 4]] = [[1; 3]; [2; 4]].
Proof. reflexivity. Qed.

Example fill_diagonal_2x2 :
  np.fill_diagonal [[1; 2]; [3; 4]] 9 = [[9; 2]; [3; 9]].
Proof. reflexivity. Qed.

Example stack3T_rows :
  stack3T [1; 2] [3; 4] [5; 6] = [(1, 3, 5); (2, 4, 6)].
Proof. reflexivity. Qed.

(** ** The sign fix of the normals *)

Lemma Rltb_true x y : x < y -> Rltb x y = true.
Proof. intros H. unfold Rltb. destruct (Rlt_dec x y); [reflexivity|contradiction]. Qed.

Lemma Rltb_false x y : ~ x < y -> Rltb x y = false.
Proof. intros H. unfold Rltb. destruct (Rlt_dec x y); [contradiction|reflexivity]. Qed.

Lemma Rleb_true x y : x <= y -> Rleb x y = true.
Proof. intros H. unfold Rleb. destruct (Rle_dec x y); [reflexivity|contradiction]. Qed.

Lemma Rleb_false x y : ~ x <= y -> Rleb x y = false.
Proof. intros H. unfold Rleb. destruct (Rle_dec x y); [contradiction|reflexivity]. Qed.

Lemma atol_pos : 0 < np.atol.
Proof. unfold np.atol. apply Rdiv_lt_0_compat; [lra|]. apply pow_lt. lra. Qed.

Lemma isclose_zero x : np.isclose x 0 = Rleb (Rabs x) np.atol.
Proof.
  unfold np.isclose. f_equal.
  - f_equal. ring.
  - rewrite Rabs_R0. ring.
Qed.

Lemma copysign_one_neg x : Rltb (np.copysign 1 x) 0 = Rltb x 0.
Proof.
  unfold np.copysign. rewrite Rabs_R1.
  destruct (Rlt_dec x 0) as [H|H].
  - rewrite !Rltb_true; auto; lra.
  - rewrite !Rltb_false; auto; lra.
Qed.

(** A component in [[-1e-8, 0)] changes sign; any other one is kept. *)
Lemma flip_negative_zero_small x :
  - np.atol <= x -> x < 0 -> flip_negative_zero x = - x.
Proof.
  intros H1 H2. unfold flip_negative_zero.
  rewrite isclose_zero, copysign_one_neg, Rltb_true by assumption.
  rewrite Rleb_true; [simpl; ring|].
  rewrite Rabs_left by assumption. lra.
Qed.

Lemma flip_negative_zero_other x :
  0 <= x \/ x < - np.atol -> flip_negative_zero x = x.
Proof.
  intros H. unfold flip_negative_zero.
  rewrite isclose_zero, copysign_one_neg.
  destruct H as [H|H].
  - rewrite (Rltb_false x 0) by lra. now rewrite andb_false_r.
  - rewrite Rleb_false; [reflexivity|].
    pose proof atol_pos. rewrite Rabs_left by lra. lra.
Qed.

(** ** What the methods leave alone *)

Ltac case_xsimd :=
  match goal with
  | |- context [sopp.update_alphas_deltas_xsimd ?K ?a ?b ?c] =>
      destruct (sopp.update_alphas_deltas_xsimd K a b c)
        as [[[[[[? ?] ?] ?] ?] ?] ?]
  end.

Lemma fixed_set_angles al de cn st :
  fixed_attributes (set_angles al de cn st) = fixed_attributes st.
Proof. reflexivity. Qed.

Lemma fixed_set_full_grid g gn st :
  fixed_attributes (set_full_grid g gn st) = fixed_attributes st.
Proof. reflexivity. Qed.

Lemma fixed_set_expanded e st :
  fixed_attributes (set_expanded e st) = fixed_attributes st.
Proof. reflexivity. Qed.

Lemma fixed_set_L l st : fixed_attributes (set_L l st) = fixed_attributes st.
Proof. reflexivity. Qed.

Lemma fixed_set_flux f st : fixed_attributes (set_flux f st) = fixed_attributes st.
Proof. reflexivity. Qed.

Lemma fixed_set_currents c st :
  fixed_attributes (set_currents c st) = fixed_attributes st.
Proof. reflexivity. Qed.

Lemma fixed_set_b_opt b st : fixed_attributes (set_b_opt b st) = fixed_attributes st.
Proof. reflexivity. Qed.

Lemma fixed_set_kappas k st :
  fixed_attributes (set_kappas k st) = fixed_attributes st.
Proof. reflexivity. Qed.

Lemma fixed_set_BdotN2_list h st :
  fixed_attributes (set_BdotN2_list h st) = fixed_attributes st.
Proof. reflexivity. Qed.

Lemma update_alphas_deltas_fixed K st :
  fixed_attributes (update_alphas_deltas K st) = fixed_attributes st.
Proof. unfold update_alphas_deltas. case_xsimd. apply fixed_set_expanded. Qed.

Lemma setup_orientations_fixed K st al de :
  fixed_attributes (setup_orientations K st al de) = fixed_attributes st.
Proof.
  unfold setup_orientations. cbv zeta.
  rewrite fixed_set_L, update_alphas_deltas_fixed. apply fixed_set_angles.
Qed.

Lemma update_psi_fixed K st :
  fixed_attributes (update_psi K st) = fixed_attributes st.
Proof. unfold update_psi. cbv zeta. apply fixed_set_flux. Qed.

Lemma setup_currents_and_fields_fixed K E st :
  fixed_attributes (setup_currents_and_fields K E st) = fixed_attributes st.
Proof. unfold setup_currents_and_fields. cbv zeta. apply fixed_set_currents. Qed.

Lemma b_vector_fixed st : fixed_attributes (b_vector st) = fixed_attributes st.
Proof. unfold b_vector. cbv zeta. apply fixed_set_b_opt. Qed.

Lemma setup_full_grid_fixed K st :
  fixed_attributes (setup_full_grid K st) = fixed_attributes st.
Proof.
  unfold setup_full_grid. cbv zeta.
  rewrite update_alphas_deltas_fixed. apply fixed_set_full_grid.
Qed.

Lemma least_squares_fixed K E st kappas :
  fixed_attributes (snd (least_squares K E st kappas)) = fixed_attributes st.
Proof.
  unfold least_squares. cbv zeta. cbn [snd].
  now rewrite fixed_set_BdotN2_list, setup_currents_and_fields_fixed,
    update_psi_fixed, setup_orientations_fixed.
Qed.

Lemma least_squares_jacobian_fixed K E st kappas :
  fixed_attributes (snd (least_squares_jacobian K E st kappas))
  = fixed_attributes st.
Proof.
  unfold least_squares_jacobian. cbv zeta. cbn [snd].
  now rewrite setup_currents_and_fields_fixed, update_psi_fixed,
    setup_orientations_fixed.
Qed.

Lemma finish_setup_fixed K E st :
  fixed_attributes (finish_setup K E st) = fixed_attributes st.
Proof.
  unfold finish_setup. cbv zeta.
  now rewrite fixed_set_kappas, b_vector_fixed, setup_currents_and_fields_fixed,
    update_psi_fixed, setup_orientations_fixed, setup_full_grid_fixed.
Qed.

(** Two objects with the same fixed attributes agree on each of them. *)
Lemma fixed_attributes_inv st st' :
  fixed_attributes st' = fixed_attributes st ->
  fac st' = fac st /\ coil_R st' = coil_R st /\ coil_a st' = coil_a st
  /\ grid_xyz st' = grid_xyz st /\ num_psc st' = num_psc st
  /\ plasma_boundary st' = plasma_boundary st
  /\ nfp st' = nfp st /\ stellsym st' = stellsym st
  /\ symmetry st' = symmetry st /\ stell_list st' = stell_list st
  /\ grid_normalization st' = grid_normalization st
  /\ B_TF st' = B_TF st /\ normalization st' = normalization st
  /\ fac2_norm st' = fac2_norm st.
Proof.
  unfold fixed_attributes. intros H. injection H. intros. repeat split; assumption.
Qed.

Lemma consistent_fixed st st' :
  fixed_attributes st' = fixed_attributes st -> consistent st -> consistent st'.
Proof.
  intros H [H1 H2 H3 H4].
  destruct (fixed_attributes_inv _ _ H)
    as (_ & _ & _ & Hg & Hn & _ & Hnfp & Hs & Hsym & Hsl & _).
  split; rewrite ?Hn, ?Hg, ?Hnfp, ?Hs, ?Hsym, ?Hsl; assumption.
Qed.

(** ** The orientation update *)

Lemma update_alphas_deltas_keeps K st :
  alphas (update_alphas_deltas K st) = alphas st
  /\ deltas (update_alphas_deltas K st) = deltas st
  /\ coil_normals (update_alphas_deltas K st) = coil_normals st
  /\ grid_xyz_all (update_alphas_deltas K st) = grid_xyz_all st
  /\ grid_xyz_all_normalized (update_alphas_deltas K st)
     = grid_xyz_all_normalized st
  /\ BdotN2_list (update_alphas_deltas K st) = BdotN2_list st
  /\ b_opt (update_alphas_deltas K st) = b_opt st.
Proof. unfold update_alphas_deltas. case_xsimd. repeat split. Qed.

Lemma setup_orientations_keeps K st al de :
  alphas (setup_orientations K st al de) = al
  /\ deltas (setup_orientations K st al de) = de
  /\ coil_normals (setup_orientations K st al de)
     = flip_negative_zeros (normals_of_angles al de)
  /\ grid_xyz_all (setup_orientations K st al de) = grid_xyz_all st
  /\ grid_xyz_all_normalized (setup_orientations K st al de)
     = grid_xyz_all_normalized st
  /\ BdotN2_list (setup_orientations K st al de) = BdotN2_list st
  /\ b_opt (setup_orientations K st al de) = b_opt st.
Proof.
  unfold setup_orientations. cbv zeta.
  set (st1 := set_angles al de _ st).
  destruct (update_alphas_deltas_keeps K st1) as (Ha & Hd & Hc & Hg & Hgn & Hh & Hb).
  cbn [alphas deltas coil_normals grid_xyz_all grid_xyz_all_normalized
       BdotN2_list b_opt set_L].
  rewrite Ha, Hd, Hc, Hg, Hgn, Hh, Hb. repeat split.
Qed.

Lemma nth_combine_lt {A B} (u : list A) (v : list B) i du dv :
  (i < length u)%nat -> (i < length v)%nat ->
  nth i (combine u v) (du, dv) = (nth i u du, nth i v dv).
Proof.
  revert v i. induction u as [|x u IH]; intros [|y v] [|i] Hu Hv;
    simpl in *; try lia; auto.
  apply IH; lia.
Qed.

Lemma nth_stack3T c0 c1 c2 i :
  (i < length c0)%nat -> (i < length c1)%nat -> (i < length c2)%nat ->
  nth i (stack3T c0 c1 c2) (0, 0, 0) = (nth i c0 0, nth i c1 0, nth i c2 0).
Proof.
  intros H0 H1 H2. unfold stack3T.
  rewrite (nth_map2 _ _ _ _ _ (0, 0) 0).
  - now rewrite nth_combine_lt.
  - rewrite length_combine. lia.
  - assumption.
Qed.

Lemma nth_normals_of_angles al de i :
  (i < length al)%nat -> (i < length de)%nat ->
  nth i (normals_of_angles al de) (0, 0, 0)
  = (np.cos (nth i al 0) * np.sin (nth i de 0),
     - np.sin (nth i al 0),
     np.cos (nth i al 0) * np.cos (nth i de 0)).
Proof.
  intros Ha Hd. unfold normals_of_angles.
  rewrite nth_stack3T.
  - rewrite !(nth_map2 _ _ _ _ _ 0 0) by now rewrite length_map.
    unfold np.vneg.
    rewrite !(nth_map_lt _ _ _ _ 0) by now rewrite ?length_map.
    reflexivity.
  - rewrite map2_length, !length_map. lia.
  - unfold np.vneg. now rewrite !length_map.
  - rewrite map2_length, !length_map. lia.
Qed.

Lemma length_normals_of_angles al de :
  length (normals_of_angles al de) = Nat.min (length al) (length de).
Proof.
  unfold normals_of_angles, stack3T, np.vneg.
  rewrite !map2_length, length_combine, !map2_length, !length_map. lia.
Qed.

Lemma nth_coil_normals_setup_orientations K st alphas deltas i :
  (i < length alphas)%nat -> (i < length deltas)%nat ->
  nth i (coil_normals (setup_orientations K st alphas deltas)) (0, 0, 0)
  = (flip_negative_zero (np.cos (nth i alphas 0) * np.sin (nth i deltas 0)),
     flip_negative_zero (- np.sin (nth i alphas 0)),
     flip_negative_zero (np.cos (nth i alphas 0) * np.cos (nth i deltas 0))).
Proof.
  intros Ha Hd.
  destruct (setup_orientations_keeps K st alphas deltas) as (_ & _ & Hc & _).
  rewrite Hc. unfold flip_negative_zeros.
  rewrite (nth_map_lt _ _ _ _ (0, 0, 0))
    by (rewrite length_normals_of_angles; lia).
  rewrite nth_normals_of_angles by assumption. reflexivity.
Qed.

(** C7, as the code has it.  For every coil [i] and angles passed to
    [setup_orientations], each component of the stored normal of the coil is
    the component [c] of
    [(cos(alpha_i) sin(delta_i), -sin(alpha_i), cos(alpha_i) cos(delta_i))]
    after the sign fix of the code: a component with [-1e-8 <= c < 0] is
    stored as [-c], any other one as [c]. *)
Theorem setup_orientations_stored_normal K st alphas deltas i :
  (i < length alphas)%nat -> (i < length deltas)%nat ->
  let al := nth i alphas 0 in
  let de := nth i deltas 0 in
  nth i (coil_normals (setup_orientations K st alphas deltas)) (0, 0, 0)
  = (flip_negative_zero (np.cos al * np.sin de),
     flip_negative_zero (- np.sin al),
     flip_negative_zero (np.cos al * np.cos de))
  /\ (forall c, - (1 / 10 ^ 8) <= c -> c < 0 -> flip_negative_zero c = - c)
  /\ (forall c, 0 <= c \/ c < - (1 / 10 ^ 8) -> flip_negative_zero c = c).
Proof.
  intros Ha Hd al de. split; [|split].
  - now apply nth_coil_normals_setup_orientations.
  - intros c H1 H2. now apply flip_negative_zero_small.
  - intros c H. now apply flip_negative_zero_other.
Qed.

Lemma setup_orientations_stored_normal_witness :
  nth 0 (coil_normals (setup_orientations toy_kernels toy_state [0] [0])) (0, 0, 0)
  = (flip_negative_zero (np.cos 0 * np.sin 0),
     flip_negative_zero (- np.sin 0),
     flip_negative_zero (np.cos 0 * np.cos 0))
  /\ (forall c, - (1 / 10 ^ 8) <= c -> c < 0 -> flip_negative_zero c = - c)
  /\ (forall c, 0 <= c \/ c < - (1 / 10 ^ 8) -> flip_negative_zero c = c).
Proof.
  apply (setup_orientations_stored_normal toy_kernels toy_state [0] [0] 0);
    simpl; lia.
Defined.

(** C7, as the specification has it, fails for a coil whose angle [alpha]
    has [sin(alpha) = 1e-9]: the second component of the formula is [-1e-9]
    and the stored one is [1e-9]. *)
Lemma stored_normal_not_formula :
  let al := asin (1 / 10 ^ 9) in
  nth 0 (coil_normals (setup_orientations toy_kernels toy_state [al] [0]))
      (0, 0, 0)
  <> (np.cos al * np.sin 0, - np.sin al, np.cos al * np.cos 0).
Proof.
  intros al.
  rewrite (nth_coil_normals_setup_orientations toy_kernels toy_state [al] [0] 0)
    by (simpl; lia).
  cbn [nth].
  assert (Hs : np.sin al = 1 / 10 ^ 9).
  { unfold al, np.sin. apply sin_asin. split; lra. }
  rewrite Hs.
  rewrite (flip_negative_zero_small (- (1 / 10 ^ 9))) by (unfold np.atol; lra).
  intros Heq. injection Heq as _ Hy. lra.
Qed.

(** ** The objective *)

Lemma update_psi_keeps K st :
  alphas (update_psi K st) = alphas st
  /\ deltas (update_psi K st) = deltas st
  /\ coil_normals (update_psi K st) = coil_normals st
  /\ expanded (update_psi K st) = expanded st
  /\ L (update_psi K st) = L st
  /\ grid_xyz_all (update_psi K st) = grid_xyz_all st
  /\ BdotN2_list (update_psi K st) = BdotN2_list st
  /\ b_opt (update_psi K st) = b_opt st.
Proof. repeat split. Qed.

Lemma setup_currents_and_fields_keeps K E st :
  alphas (setup_currents_and_fields K E st) = alphas st
  /\ deltas (setup_currents_and_fields K E st) = deltas st
  /\ coil_normals (setup_currents_and_fields K E st) = coil_normals st
  /\ expanded (setup_currents_and_fields K E st) = expanded st
  /\ L (setup_currents_and_fields K E st) = L st
  /\ flux (setup_currents_and_fields K E st) = flux st
  /\ grid_xyz_all (setup_currents_and_fields K E st) = grid_xyz_all st
  /\ BdotN2_list (setup_currents_and_fields K E st) = BdotN2_list st
  /\ b_opt (setup_currents_and_fields K E st) = b_opt st.
Proof. repeat split. Qed.

Lemma Bn_PSC_setup_currents_and_fields K E st :
  let c := currents (setup_currents_and_fields K E st) in
  Bn_PSC c = np.matvec (A_matrix c) (I_psc c).
Proof. reflexivity. Qed.

(** The state in which [least_squares] evaluates the residual. *)
Lemma least_squares_steps K E st kappas :
  let st3 :=
    setup_currents_and_fields K E
      (update_psi K
         (setup_orientations K st (firstn (num_psc st) kappas)
                             (skipn (num_psc st) kappas))) in
  let Ax_b :=
    np.vmul (np.vadd (Bn_PSC (currents st3)) (b_opt st3))
            (grid_normalization st3) in
  let BdotN2 := np.dot (np.vscale (5 / 10) Ax_b) Ax_b * fac2_norm st3 in
  least_squares K E st kappas
  = (BdotN2, set_BdotN2_list (BdotN2_list st3 ++ [BdotN2]) st3).
Proof. reflexivity. Qed.

Lemma least_squares_state_attrs K E st al de :
  let st3 :=
    setup_currents_and_fields K E (update_psi K (setup_orientations K st al de)) in
  b_opt st3 = b_opt st /\ BdotN2_list st3 = BdotN2_list st
  /\ grid_normalization st3 = grid_normalization st
  /\ fac2_norm st3 = fac2_norm st
  /\ alphas st3 = al /\ deltas st3 = de.
Proof.
  intros st3.
  destruct (setup_currents_and_fields_keeps K E
              (update_psi K (setup_orientations K st al de)))
    as (Ha & Hd & _ & _ & _ & _ & _ & Hh & Hb).
  destruct (update_psi_keeps K (setup_orientations K st al de))
    as (Ha1 & Hd1 & _ & _ & _ & _ & Hh1 & Hb1).
  destruct (setup_orientations_keeps K st al de)
    as (Ha2 & Hd2 & _ & _ & _ & Hh2 & Hb2).
  assert (Hf : fixed_attributes st3 = fixed_attributes st).
  { unfold st3.
    now rewrite setup_currents_and_fields_fixed, update_psi_fixed,
      setup_orientations_fixed. }
  destruct (fixed_attributes_inv _ _ Hf)
    as (_ & _ & _ & _ & _ & _ & _ & _ & _ & _ & Hgn & _ & _ & Hf2).
  subst st3. repeat split; congruence.
Qed.

(** C1.  For every [kappas] of length [2 * num_psc], [least_squares] splits it
    into [alphas = kappas[:num_psc]] and [deltas = kappas[num_psc:]], each of
    length [num_psc]; recomputes the expanded normals, the inductance matrix,
    the fluxes, the currents and the coupling matrix from those angles by
    [setup_orientations], [update_psi] and [setup_currents_and_fields]; and
    returns [0.5 * fac2_norm * ||(A_matrix @ I + b_opt) * grid_normalization||^2]
    with the recomputed [A_matrix] and [I]. *)
Theorem least_squares_value K E st kappas :
  length kappas = (2 * num_psc st)%nat ->
  let alphas' := firstn (num_psc st) kappas in
  let deltas' := skipn (num_psc st) kappas in
  let st3 :=
    setup_currents_and_fields K E
      (update_psi K (setup_orientations K st alphas' deltas')) in
  let residual :=
    np.vmul
      (np.vadd (np.matvec (A_matrix (currents st3)) (I_psc (currents st3)))
               (b_opt st))
      (grid_normalization st) in
  length alphas' = num_psc st /\ length deltas' = num_psc st
  /\ alphas' ++ deltas' = kappas
  /\ alphas st3 = alphas' /\ deltas st3 = deltas'
  /\ snd (least_squares K E st kappas)
     = set_BdotN2_list
         (BdotN2_list st ++ [fst (least_squares K E st kappas)]) st3
  /\ fst (least_squares K E st kappas)
     = 5 / 10 * fac2_norm st * np.dot residual residual.
Proof.
  intros Hlen alphas' deltas' st3 residual.
  destruct (least_squares_state_attrs K E st alphas' deltas')
    as (Hb & Hh & Hgn & Hf2 & Ha & Hd).
  fold st3 in Hb, Hh, Hgn, Hf2, Ha, Hd.
  pose proof (least_squares_steps K E st kappas) as Hls.
  cbv zeta in Hls. fold alphas' deltas' st3 in Hls.
  rewrite Hls. cbn [fst snd].
  rewrite Hb, Hh, Hgn, Hf2.
  repeat split.
  - unfold alphas'. rewrite length_firstn. lia.
  - unfold deltas'. rewrite length_skipn. lia.
  - apply firstn_skipn.
  - assumption.
  - assumption.
  - rewrite dot_vscale_l.
    change (Bn_PSC (currents st3))
      with (np.matvec (A_matrix (currents st3)) (I_psc (currents st3))).
    fold residual. ring.
Qed.

Lemma least_squares_value_witness :
  let st3 :=
    setup_currents_and_fields toy_kernels toy_collaborators
      (update_psi toy_kernels (setup_orientations toy_kernels toy_state [0] [0])) in
  let residual :=
    np.vmul
      (np.vadd (np.matvec (A_matrix (currents st3)) (I_psc (currents st3)))
               (b_opt toy_state))
      (grid_normalization toy_state) in
  fst (least_squares toy_kernels toy_collaborators toy_state [0; 0])
  = 5 / 10 * fac2_norm toy_state * np.dot residual residual.
Proof.
  apply (least_squares_value toy_kernels toy_collaborators toy_state [0; 0]).
  reflexivity.
Defined.

(** ** The constructors *)

Lemma run_fixed K E st st' :
  run K E st st' -> fixed_attributes st' = fixed_attributes st.
Proof.
  induction 1 as [st | st st' kappas _ IH | st st' kappas _ IH].
  - reflexivity.
  - now rewrite least_squares_fixed.
  - now rewrite least_squares_jacobian_fixed.
Qed.

(** What [geo_setup_manual] returns when no check raises. *)
Lemma geo_setup_manual_inv K E points Rc kwargs st :
  geo_setup_manual K E points Rc kwargs = inr st ->
  exists pre,
    st = finish_setup K E pre
    /\ coil_R pre = Rc
    /\ coil_a pre = pop (kw_a kwargs) (Rc / 100)
    /\ grid_xyz pre = points
    /\ num_psc pre = length points
    /\ normalized E pre
    /\ plasma_boundary pre = pop (kw_plasma_boundary kwargs) (default_surf E)
    /\ nfp pre = s_nfp (plasma_boundary pre)
    /\ stellsym pre = s_stellsym (plasma_boundary pre)
    /\ stell_list pre = (if stellsym pre then [1; -1] else [1])
    /\ symmetry pre = (nfp pre * (Nat.b2n (stellsym pre) + 1))%nat
    /\ ugrid pre = None
    /\ symmetry_plane_inds (nfp pre) Rc points = [].
Proof.
  unfold geo_setup_manual. cbv zeta.
  destruct (negb (np.allclose_shape _ _)); [discriminate|].
  destruct (symmetry_plane_inds _ Rc points) eqn:Hinds; [|discriminate].
  cbn [length Nat.ltb Nat.leb]. intros H. injection H as <-.
  eexists. split; [reflexivity|]. repeat split. exact Hinds.
Qed.

Lemma _setup_uniform_grid_inv inner outer pb Nx Ny Nz poff nfp ug :
  _setup_uniform_grid inner outer pb Nx Ny Nz poff nfp = inr ug ->
  ug_a ug = ug_R ug / 100.
Proof.
  unfold _setup_uniform_grid. cbv zeta. unfold bind.
  destruct (if Nat.ltb 1 nfp then _ else _); [discriminate|].
  intros H. injection H as <-. reflexivity.
Qed.

(** What the first part of the grid constructor returns. *)
Lemma geo_setup_between_toroidal_surfaces_grid_inv K E pb coils inner outer kw g :
  geo_setup_between_toroidal_surfaces_grid K E pb coils inner outer kw = inr g ->
  coil_a g = coil_R g / 100
  /\ num_psc g = length (grid_xyz g)
  /\ fac g = 1 / 10 ^ 7
  /\ nfp g = s_nfp pb
  /\ stellsym g = s_stellsym pb
  /\ stell_list g = (if stellsym g then [1; -1] else [1])
  /\ symmetry g = (nfp g * (Nat.b2n (stellsym g) + 1))%nat
  /\ ugrid g <> None.
Proof.
  unfold geo_setup_between_toroidal_surfaces_grid. cbv zeta.
  destruct (negb (np.allclose_shape _ _)); [discriminate|].
  destruct (_ || _); [discriminate|].
  unfold bind.
  destruct (_setup_uniform_grid _ _ _ _ _ _ _ _) as [e|ug] eqn:Hug; [discriminate|].
  intros H. injection H as <-.
  apply _setup_uniform_grid_inv in Hug.
  cbn. repeat split; try assumption. discriminate.
Qed.

(** What [geo_setup_between_toroidal_surfaces] returns when no check raises. *)
Lemma geo_setup_between_toroidal_surfaces_inv K E pb coils inner outer kw st :
  geo_setup_between_toroidal_surfaces K E pb coils inner outer kw = inr st ->
  exists g pre,
    geo_setup_between_toroidal_surfaces_grid K E pb coils inner outer kw = inr g
    /\ st = finish_setup K E pre
    /\ coil_R pre = coil_R g
    /\ coil_a pre = coil_a g
    /\ grid_xyz pre = grid_xyz g
    /\ num_psc pre = num_psc g
    /\ normalized E pre
    /\ nfp pre = nfp g
    /\ stellsym pre = stellsym g
    /\ stell_list pre = stell_list g
    /\ symmetry pre = symmetry g
    /\ ugrid pre = ugrid g
    /\ symmetry_plane_inds (nfp g) (coil_R g) (grid_xyz g) = []
    /\ diameter_conflict (coil_R g) (num_psc g) (grid_xyz g) = false.
Proof.
  unfold geo_setup_between_toroidal_surfaces. unfold bind at 1.
  destruct (geo_setup_between_toroidal_surfaces_grid _ _ _ _ _ _ _)
    as [e|g] eqn:Hg; [discriminate|].
  cbv zeta.
  destruct (initial_orientation _ _ _ _) as [[al de] cn].
  cbn [nfp coil_R grid_xyz num_psc set_angles set_field].
  destruct (symmetry_plane_inds _ _ _) eqn:Hinds; [|discriminate].
  cbn [length Nat.ltb Nat.leb].
  destruct (diameter_conflict _ _ _) eqn:Hd; [discriminate|].
  intros H. injection H as <-.
  destruct (geo_setup_between_toroidal_surfaces_grid_inv _ _ _ _ _ _ _ _ Hg)
    as (_ & _ & Hfac & _).
  exists g. eexists. split; [reflexivity|]. split; [reflexivity|].
  repeat split; assumption.
Qed.

Lemma constructed_normalized K E st : constructed K E st -> normalized E st.
Proof.
  assert (Hfin : forall pre, normalized E pre -> normalized E (finish_setup K E pre)).
  { intros pre (H1 & H2 & H3).
    destruct (fixed_attributes_inv _ _ (finish_setup_fixed K E pre))
      as (Hf & _ & _ & _ & _ & Hpb & _ & _ & _ & _ & _ & HB & Hn & Hf2).
    unfold normalized, B_axis in *. rewrite Hf, Hpb, HB, Hn, Hf2. auto. }
  intros [pb coils inner outer kw st' H | points Rc kw st' H].
  - apply geo_setup_between_toroidal_surfaces_inv in H.
    destruct H as (g & pre & _ & -> & _ & _ & _ & _ & Hn & _). now apply Hfin.
  - apply geo_setup_manual_inv in H.
    destruct H as (pre & -> & _ & _ & _ & _ & Hn & _). now apply Hfin.
Qed.

(** ** Evaluating the checks of the constructors *)

Lemma isclose_refl x : np.isclose x x = true.
Proof.
  unfold np.isclose. apply Rleb_true.
  replace (x - x) with 0 by ring. rewrite Rabs_R0.
  pose proof atol_pos. pose proof (Rabs_pos x).
  assert (0 < np.rtol) by (unfold np.rtol; apply Rdiv_lt_0_compat; [lra|apply pow_lt; lra]).
  nra.
Qed.

Lemma allclose_shape_refl s : np.allclose_shape s s = true.
Proof. unfold np.allclose_shape. now rewrite !isclose_refl. Qed.

Lemma map2_map_same {A B C D} (h : B -> C -> D) (f : A -> B) (g : A -> C) l :
  np.map2 h (map f l) (map g l) = map (fun p => h (f p) (g p)) l.
Proof. induction l as [|x l IH]; [reflexivity|]. cbn. f_equal. exact IH. Qed.

Lemma where_all_false mask :
  Forall (fun b => b = false) mask -> np.where_ mask = [].
Proof.
  unfold np.where_. generalize 0%nat.
  induction mask as [|b mask IH]; intros n H; [reflexivity|].
  inversion H as [|? ? Hb Hm]; subst. cbn. now apply IH.
Qed.

(** No center conflicts with a plane [phi0[i]]: the list [inds] is empty. *)
Lemma symmetry_plane_inds_nil nfp Rc pts :
  (forall i p, (i < nfp)%nat -> In p pts ->
     ~ np.abs (np.arctan2 (py p) (px p) - 2 * np.pi / INR nfp * INR i)
       < np.arctan2 Rc (np.sqrt (px p ^ 2 + py p ^ 2))) ->
  symmetry_plane_inds nfp Rc pts = [].
Proof.
  intros H. unfold symmetry_plane_inds. cbv zeta.
  rewrite flat_map_concat_map. apply concat_nil_Forall, Forall_map, Forall_forall.
  intros i Hi. apply in_seq in Hi.
  rewrite map2_map_same, where_all_false; [reflexivity|].
  apply Forall_map, Forall_forall. intros p Hp.
  apply Rltb_false.
  unfold np.arange.
  rewrite (nth_map_lt _ _ _ _ 0) by (rewrite length_map, length_seq; lia).
  rewrite (nth_map_lt _ _ _ _ 0%nat) by (rewrite length_seq; lia).
  rewrite seq_nth by lia. apply H; [lia|assumption].
Qed.

Lemma arctan2_le_PI2 y x : 0 <= x -> np.arctan2 y x <= PI / 2.
Proof.
  intros Hx. unfold np.arctan2. pose proof PI_RGT_0.
  destruct (Rlt_dec 0 x).
  - pose proof (atan_bound (y / x)). lra.
  - destruct (Rlt_dec x 0); [lra|].
    destruct (Rlt_dec 0 y); [lra|].
    destruct (Rlt_dec y 0); lra.
Qed.

Lemma arctan2_neg_x_axis x : x < 0 -> np.arctan2 0 x = PI.
Proof.
  intros Hx. unfold np.arctan2.
  destruct (Rlt_dec 0 x); [lra|].
  destruct (Rlt_dec x 0); [|lra].
  destruct (Rle_dec 0 0); [|lra].
  replace (0 / x) with 0 by (field; lra). rewrite atan_0. ring.
Qed.

Lemma arctan2_pos_y_axis y : 0 < y -> np.arctan2 y 0 = PI / 2.
Proof.
  intros Hy. unfold np.arctan2.
  destruct (Rlt_dec 0 0); [lra|].
  destruct (Rlt_dec 0 0); [lra|].
  destruct (Rlt_dec 0 y); [reflexivity|lra].
Qed.


(** [geo_setup_manual] returns an object exactly when the shape of
    [Bn_plasma] is accepted and no center conflicts with a plane [phi0[i]]:
    it makes no other check. *)
Lemma geo_setup_manual_accepts K E points Rc kwargs :
  let pb := pop (kw_plasma_boundary kwargs) (default_surf E) in
  let nphi := length (s_quadpoints_phi pb) in
  let ntheta := length (s_quadpoints_theta pb) in
  let Bn := pop (kw_Bn_plasma kwargs)
                (mkArray2 (nphi, ntheta) (np.zeros (nphi * ntheta))) in
  np.allclose_shape (shape Bn) (nphi, ntheta) = true ->
  symmetry_plane_inds (s_nfp pb) Rc points = [] ->
  exists st, geo_setup_manual K E points Rc kwargs = inr st.
Proof.
  intros pb nphi ntheta Bn Hshape Hinds.
  unfold geo_setup_manual. cbv zeta.
  fold pb. fold nphi ntheta. fold Bn. rewrite Hshape. cbn [negb].
  rewrite Hinds. cbn [length Nat.ltb Nat.leb].
  eexists. reflexivity.
Qed.

Lemma close_points_no_plane_conflict Rc :
  symmetry_plane_inds 1 Rc close_points = [].
Proof.
  apply symmetry_plane_inds_nil. intros i p Hi Hp.
  assert (i = 0%nat) as -> by lia.
  assert (Hphi : np.arctan2 (py p) (px p) = PI).
  { destruct Hp as [<-|[<-|[]]]; cbn [px py fst snd];
      apply arctan2_neg_x_axis; lra. }
  rewrite Hphi.
  pose proof (arctan2_le_PI2 Rc (np.sqrt (px p ^ 2 + py p ^ 2))
                (sqrt_pos _)) as Hdev.
  pose proof PI_RGT_0.
  unfold np.abs, np.pi. cbn [INR].
  replace (PI - 2 * PI / 1 * 0) with PI by (field; lra).
  rewrite Rabs_right by lra. lra.
Qed.

Lemma toy_manual_returns Rc kw_a :
  symmetry_plane_inds 1 Rc close_points = [] ->
  exists st,
    geo_setup_manual toy_kernels toy_collaborators close_points Rc
      (mkManualKwargs kw_a None None None None None None None) = inr st.
Proof.
  intros H. apply geo_setup_manual_accepts.
  - apply allclose_shape_refl.
  - exact H.
Qed.

(** The check works on the plane [phi = 0]: a center at [(1, 0, 0)] with
    [nfp = 1] is refused. *)
Lemma arctan2_pos_x_axis x : 0 < x -> np.arctan2 0 x = 0.
Proof.
  intros Hx. unfold np.arctan2. destruct (Rlt_dec 0 x); [|lra].
  replace (0 / x) with 0 by (field; lra). apply atan_0.
Qed.

Lemma arctan2_pos y x : 0 < y -> 0 < x -> 0 < np.arctan2 y x.
Proof.
  intros Hy Hx. unfold np.arctan2. destruct (Rlt_dec 0 x); [|lra].
  rewrite <- atan_0. apply atan_increasing. now apply Rdiv_lt_0_compat.
Qed.

Example manual_rejects_center_on_phi0 :
  geo_setup_manual toy_kernels toy_collaborators [(1, 0, 0)] (1 / 10) no_kwargs
  = inl (ValueError msg_plane).
Proof.
  unfold geo_setup_manual. cbv zeta.
  rewrite allclose_shape_refl. cbn [negb].
  assert (Hinds : symmetry_plane_inds 1 (1 / 10) [(1, 0, 0)] = [0%nat]).
  { unfold symmetry_plane_inds, np.arange. cbv zeta.
    cbn [seq map flat_map np.map2 combine nth px py fst snd INR].
    rewrite arctan2_pos_x_axis by lra.
    rewrite Rltb_true; [reflexivity|].
    replace (0 - 2 * np.pi / 1 * 0) with 0 by (unfold np.pi; field).
    unfold np.abs. rewrite Rabs_R0.
    apply arctan2_pos; [lra|].
    unfold np.sqrt. apply sqrt_lt_R0. lra. }
  cbn [pop no_kwargs kw_plasma_boundary default_surf s_nfp].
  rewrite Hinds. reflexivity.
Qed.

(** ** The radii of the coils *)

Lemma finish_setup_radii K E pre :
  coil_R (finish_setup K E pre) = coil_R pre
  /\ coil_a (finish_setup K E pre) = coil_a pre.
Proof.
  destruct (fixed_attributes_inv _ _ (finish_setup_fixed K E pre))
    as (_ & HR & Ha & _). now split.
Qed.

(** C9, as the code has it.  In grid mode the minor radius is [a = R / 100];
    in explicit-points mode the major radius is the argument [R] and the
    minor radius is the keyword argument [a] when the caller passes one, and
    [R / 100] otherwise; the calls of [least_squares] and
    [least_squares_jacobian] that follow leave both radii unchanged. *)
Theorem coil_radii K E :
  (forall plasma_boundary coils_TF inner outer kwargs st,
      geo_setup_between_toroidal_surfaces K E plasma_boundary coils_TF inner
        outer kwargs = inr st ->
      coil_a st = coil_R st / 100)
  /\ (forall points Rc kwargs st,
         geo_setup_manual K E points Rc kwargs = inr st ->
         coil_R st = Rc /\ coil_a st = pop (kw_a kwargs) (Rc / 100))
  /\ (forall st st',
         run K E st st' -> coil_R st' = coil_R st /\ coil_a st' = coil_a st).
Proof.
  split; [|split].
  - intros pb coils inner outer kw st H.
    apply geo_setup_between_toroidal_surfaces_inv in H.
    destruct H as (g & pre & Hg & -> & HR & Ha & _).
    apply geo_setup_between_toroidal_surfaces_grid_inv in Hg.
    destruct Hg as (Hga & _).
    destruct (finish_setup_radii K E pre) as [-> ->]. congruence.
  - intros points Rc kw st H.
    apply geo_setup_manual_inv in H.
    destruct H as (pre & -> & HR & Ha & _).
    destruct (finish_setup_radii K E pre) as [-> ->]. now split.
  - intros st st' H. apply run_fixed in H.
    destruct (fixed_attributes_inv _ _ H) as (_ & HR & Ha & _). now split.
Qed.

Lemma coil_radii_witness :
  exists st,
    geo_setup_manual toy_kernels toy_collaborators close_points (1 / 10)
      no_kwargs = inr st
    /\ coil_R st = 1 / 10 /\ coil_a st = 1 / 10 / 100.
Proof.
  destruct (toy_manual_returns (1 / 10) None (close_points_no_plane_conflict _))
    as [st H].
  exists st. split; [exact H|].
  exact (proj1 (proj2 (coil_radii toy_kernels toy_collaborators))
           close_points (1 / 10) no_kwargs st H).
Defined.

(** C9, as the specification has it, fails in explicit-points mode when the
    caller passes the keyword argument [a]: with [R = 1] and [a = 1/2] the
    constructor returns an object whose minor radius is [1/2], not [1/100]. *)
Lemma minor_radius_not_R_over_100 :
  exists st,
    geo_setup_manual toy_kernels toy_collaborators close_points 1
      (kwargs_a (1 / 2)) = inr st
    /\ coil_a st <> coil_R st / 100.
Proof.
  destruct (toy_manual_returns 1 (Some (1 / 2)) (close_points_no_plane_conflict _))
    as [st H].
  exists st. split; [exact H|].
  apply geo_setup_manual_inv in H.
  destruct H as (pre & -> & HR & Ha & _).
  destruct (finish_setup_radii toy_kernels toy_collaborators pre) as [-> ->].
  rewrite HR, Ha. cbn [pop kwargs_a kw_a]. lra.
Qed.

(** ** The sign of the objective *)

Lemma fac2_norm_pos E st :
  normalized E st -> B_axis E st <> 0 -> 0 < s_area (plasma_boundary st) ->
  fac2_norm st = (1 / 10 ^ 7) ^ 2 / (B_axis E st ^ 2 * s_area (plasma_boundary st))
  /\ 0 < fac2_norm st.
Proof.
  intros (Hf & Hn & Hf2) HB Harea.
  rewrite Hf2, Hn, Hf. split; [reflexivity|].
  apply Rdiv_lt_0_compat.
  - apply pow_lt. apply Rdiv_lt_0_compat; [lra|apply pow_lt; lra].
  - apply Rmult_lt_0_compat; [|assumption].
    assert (0 <= B_axis E st ^ 2) by apply pow2_ge_0.
    assert (B_axis E st ^ 2 <> 0) by (apply pow_nonzero; assumption).
    lra.
Qed.

Lemma run_normalized K E st st' :
  run K E st st' -> normalized E st -> normalized E st'
  /\ B_axis E st' = B_axis E st
  /\ plasma_boundary st' = plasma_boundary st.
Proof.
  intros Hrun (H1 & H2 & H3). apply run_fixed in Hrun.
  destruct (fixed_attributes_inv _ _ Hrun)
    as (Hf & _ & _ & _ & _ & Hpb & _ & _ & _ & _ & _ & HB & Hn & Hf2).
  unfold normalized, B_axis. rewrite Hf, Hpb, HB, Hn, Hf2. auto.
Qed.

(** C10.  On an object that a constructor returned, whose plasma boundary has
    a positive area and a field on axis that is not zero, and after any calls
    of the optimizer, [fac2_norm = fac^2 / (B_axis^2 * area)] is positive and
    the value that [least_squares] returns for any [kappas] has the form
    [0.5 * (v . v) * fac2_norm], so that it is not negative. *)
Theorem least_squares_nonneg K E st0 st kappas :
  constructed K E st0 -> run K E st0 st ->
  B_axis E st0 <> 0 -> 0 < s_area (plasma_boundary st0) ->
  fac2_norm st
  = (1 / 10 ^ 7) ^ 2 / (B_axis E st0 ^ 2 * s_area (plasma_boundary st0))
  /\ 0 < fac2_norm st
  /\ (exists v,
         fst (least_squares K E st kappas) = 5 / 10 * np.dot v v * fac2_norm st)
  /\ 0 <= fst (least_squares K E st kappas).
Proof.
  intros Hc Hrun HB Harea.
  apply constructed_normalized in Hc.
  destruct (run_normalized K E st0 st Hrun Hc) as (Hn & HB' & Hpb).
  destruct (fac2_norm_pos E st Hn) as [Hval Hpos];
    [now rewrite HB' | now rewrite Hpb |].
  rewrite HB', Hpb in Hval.
  pose proof (least_squares_steps K E st kappas) as Hls. cbv zeta in Hls.
  destruct (least_squares_state_attrs K E st (firstn (num_psc st) kappas)
              (skipn (num_psc st) kappas)) as (_ & _ & _ & Hf2 & _).
  rewrite Hls. cbn [fst]. rewrite Hf2, dot_vscale_l.
  repeat split; try assumption.
  - eexists. reflexivity.
  - match goal with |- 0 <= 5 / 10 * np.dot ?v ?v * _ =>
      pose proof (dot_self_nonneg v) end.
    nra.
Qed.

Lemma least_squares_nonneg_witness :
  exists st,
    geo_setup_manual toy_kernels toy_collaborators close_points (1 / 10)
      no_kwargs = inr st
    /\ 0 <= fst (least_squares toy_kernels toy_collaborators st [0; 0; 0; 0]).
Proof.
  destruct (toy_manual_returns (1 / 10) None (close_points_no_plane_conflict _))
    as [st H].
  exists st. split; [exact H|].
  pose proof (geo_setup_manual_inv _ _ _ _ _ _ H)
    as (pre & Hst & _ & _ & _ & _ & _ & Hpb & _).
  assert (Hpb' : plasma_boundary st = toy_surface 1 false).
  { destruct (fixed_attributes_inv _ _
                (finish_setup_fixed toy_kernels toy_collaborators pre))
      as (_ & _ & _ & _ & _ & Hp & _).
    rewrite Hst, Hp, Hpb. reflexivity. }
  apply (least_squares_nonneg toy_kernels toy_collaborators st st [0; 0; 0; 0]).
  - exact (constructed_manual _ _ _ _ _ _ H).
  - apply run_start.
  - unfold B_axis. cbn. lra.
  - rewrite Hpb'. cbn. lra.
Defined.

(** ** The distance of two centers *)

Lemma diameter_conflict_true Rc n pts i j :
  (i < j)%nat -> (j < n)%nat ->
  dist (nth i pts (0, 0, 0)) (nth j pts (0, 0, 0)) < 2 * Rc ->
  diameter_conflict Rc n pts = true.
Proof.
  intros Hij Hj Hd. unfold diameter_conflict.
  apply existsb_exists. exists i. split; [apply in_seq; lia|].
  apply existsb_exists. exists j. split; [apply in_seq; lia|].
  now apply Rltb_true.
Qed.

Lemma diameter_conflict_false Rc n pts :
  diameter_conflict Rc n pts = false ->
  forall i j, (i < j)%nat -> (j < n)%nat ->
    2 * Rc <= dist (nth i pts (0, 0, 0)) (nth j pts (0, 0, 0)).
Proof.
  intros H i j Hij Hj.
  destruct (Rle_lt_dec (2 * Rc) (dist (nth i pts (0, 0, 0)) (nth j pts (0, 0, 0))))
    as [Hle|Hlt]; [assumption|].
  rewrite (diameter_conflict_true Rc n pts i j Hij Hj Hlt) in H. discriminate.
Qed.

Lemma dist_close_points :
  dist (nth 0 close_points (0, 0, 0)) (nth 1 close_points (0, 0, 0)) = 1 / 10.
Proof.
  unfold dist, close_points. cbn [nth px py pz fst snd].
  replace ((-1 - -1) ^ 2 + (0 - 0) ^ 2 + (0 - 1 / 10) ^ 2) with ((1 / 10) ^ 2)
    by field.
  unfold np.sqrt. apply sqrt_pow2. lra.
Qed.

(** C5, as the specification has it, fails: [geo_setup_manual] returns an
    object for two centers at distance 0.1 and coils of radius 0.1. *)
Lemma manual_accepts_close_centers :
  dist (nth 0 close_points (0, 0, 0)) (nth 1 close_points (0, 0, 0))
  < 2 * (1 / 10)
  /\ exists st,
       geo_setup_manual toy_kernels toy_collaborators close_points (1 / 10)
         no_kwargs = inr st.
Proof.
  split.
  - rewrite dist_close_points. lra.
  - apply (toy_manual_returns (1 / 10) None (close_points_no_plane_conflict _)).
Qed.

(** C5, as the code has it.  In grid mode, when two of the centers kept
    between the toroidal surfaces are at a distance strictly less than [2R],
    [geo_setup_between_toroidal_surfaces] raises a [ValueError]. *)
Theorem grid_rejects_close_centers K E plasma_boundary coils_TF inner outer
  kwargs g i j :
  geo_setup_between_toroidal_surfaces_grid K E plasma_boundary coils_TF inner
    outer kwargs = inr g ->
  (i < j)%nat -> (j < num_psc g)%nat ->
  dist (nth i (grid_xyz g) (0, 0, 0)) (nth j (grid_xyz g) (0, 0, 0))
  < 2 * coil_R g ->
  exists msg,
    geo_setup_between_toroidal_surfaces K E plasma_boundary coils_TF inner
      outer kwargs = inl (ValueError msg).
Proof.
  intros Hg Hij Hj Hd.
  unfold geo_setup_between_toroidal_surfaces. rewrite Hg. unfold bind.
  cbv zeta.
  destruct (initial_orientation _ _ _ _) as [[al de] cn].
  cbn [nfp coil_R grid_xyz num_psc set_angles set_field].
  destruct (Nat.ltb 0 _).
  - now exists msg_plane.
  - rewrite (diameter_conflict_true _ _ _ i j Hij Hj Hd). now exists msg_diameter.
Qed.

Lemma Reqb_false x y : x <> y -> Reqb x y = false.
Proof. intros H. unfold Reqb. destruct (Req_dec_T x y); [contradiction|reflexivity]. Qed.

Lemma toy_grid_returns :
  exists g,
    geo_setup_between_toroidal_surfaces_grid toy_kernels toy_collaborators
      (toy_surface 1 false) [] (toy_surface 1 false) (toy_surface 1 false)
      no_grid_kwargs = inr g
    /\ grid_xyz g = close_points
    /\ num_psc g = 2%nat
    /\ coil_R g = 100 / (25 / 10).
Proof.
  unfold geo_setup_between_toroidal_surfaces_grid. cbv zeta.
  rewrite allclose_shape_refl. cbn [negb].
  cbn [pop no_grid_kwargs gkw_Nx gkw_Ny gkw_Nz gkw_poff Z.leb Z.compare orb].
  unfold _setup_uniform_grid. cbv zeta.
  cbn [toy_collaborators ext.to_RZFourier toy_surface s_nfp Nat.ltb Nat.leb
       Nat.eqb bind ret].
  assert (Hf : filter
                 (fun p => negb (Reqb (px p) 0 && Reqb (py p) 0 && Reqb (pz p) 0))
                 close_points = close_points).
  { unfold close_points. cbn [filter px py pz fst snd].
    rewrite (Reqb_false (-1) 0) by lra. reflexivity. }
  eexists. split; [reflexivity|].
  cbn [grid_xyz num_psc coil_R ug_R toy_kernels
       sopp.define_a_uniform_cartesian_grid_between_two_toroidal_surfaces].
  fold close_points. rewrite Hf. repeat split.
Qed.

Lemma grid_rejects_close_centers_witness :
  exists msg,
    geo_setup_between_toroidal_surfaces toy_kernels toy_collaborators
      (toy_surface 1 false) [] (toy_surface 1 false) (toy_surface 1 false)
      no_grid_kwargs = inl (ValueError msg).
Proof.
  destruct toy_grid_returns as (g & Hg & Hxyz & Hn & HR).
  apply (grid_rejects_close_centers _ _ _ _ _ _ _ g 0 1 Hg).
  - lia.
  - rewrite Hn. lia.
  - rewrite Hxyz, HR, dist_close_points. lra.
Defined.

(** ** A center on the plane [phi = pi / nfp] *)

Lemma on_plane_no_conflict :
  symmetry_plane_inds 2 (1 / 10) [(0, 1, 0)] = [].
Proof.
  apply symmetry_plane_inds_nil. intros i p Hi [<-|[]].
  cbn [px py fst snd].
  rewrite arctan2_pos_y_axis by lra.
  pose proof (arctan2_le_PI2 (1 / 10) (np.sqrt (0 ^ 2 + 1 ^ 2)) (sqrt_pos _))
    as Hdev.
  pose proof PI_RGT_0.
  unfold np.abs, np.pi. change (INR 2) with (1 + 1).
  assert (i = 0%nat \/ i = 1%nat) as [-> | ->] by lia; cbn [INR].
  - replace (PI / 2 - 2 * PI / (1 + 1) * 0) with (PI / 2) by (field; lra).
    rewrite Rabs_right by lra. lra.
  - replace (PI / 2 - 2 * PI / (1 + 1) * 1) with (- (PI / 2)) by (field; lra).
    rewrite Rabs_left by lra. lra.
Qed.

(** C6 at a failing input.  With [nfp = 2] and stellarator symmetry the
    center [(0, 1, 0)] lies on the plane [phi = pi / nfp], and
    [geo_setup_manual] returns an object for it: the check compares [phi] with
    the planes [2 pi i / nfp] only. *)
Theorem manual_accepts_center_on_plane :
  np.arctan2 (py (0, 1, 0)) (px (0, 1, 0)) = np.pi / INR 2
  /\ exists st,
       geo_setup_manual toy_kernels toy_collaborators [(0, 1, 0)] (1 / 10)
         kwargs_nfp2 = inr st.
Proof.
  split.
  - cbn [px py fst snd]. rewrite arctan2_pos_y_axis by lra.
    unfold np.pi. change (INR 2) with (1 + 1). field.
  - apply geo_setup_manual_accepts.
    + apply allclose_shape_refl.
    + exact on_plane_no_conflict.
Qed.

(** ** Shapes and entries of 2-D arrays *)

Lemma has_shape_row n m M i :
  has_shape n m M -> (i < n)%nat -> length (nth i M []) = m.
Proof.
  intros [Hn HF] Hi. rewrite Forall_nth in HF. apply HF. lia.
Qed.

Lemma has_shape_intro n m M :
  length M = n -> (forall i, (i < n)%nat -> length (nth i M []) = m) ->
  has_shape n m M.
Proof.
  intros Hn H. split; [assumption|].
  apply Forall_nth. intros i d Hi.
  rewrite (nth_indep _ d []) by assumption. apply H. lia.
Qed.

Lemma matrix_ext n m A B :
  has_shape n m A -> has_shape n m B ->
  (forall i j, (i < n)%nat -> (j < m)%nat -> np.get A i j = np.get B i j) ->
  A = B.
Proof.
  intros HA HB H.
  apply (nth_ext _ _ [] []); [destruct HA, HB; congruence|].
  intros i Hi. destruct HA as [HnA HFA]. rewrite HnA in Hi.
  assert (HA : has_shape n m A) by (split; assumption).
  apply (nth_ext _ _ 0 0).
  - now rewrite (has_shape_row n m A), (has_shape_row n m B).
  - intros j Hj. rewrite (has_shape_row n m A) in Hj by assumption.
    now apply H.
Qed.

Lemma ncols_shape n m M : has_shape n m M -> (0 < n)%nat -> np.ncols M = m.
Proof.
  intros HM Hn. unfold np.ncols.
  rewrite <- (has_shape_row n m M 0 HM Hn). destruct M; reflexivity.
Qed.

Lemma shape_transpose n M : has_shape n n M -> has_shape n n (np.transpose M).
Proof.
  intros HM. destruct (Nat.eq_dec n 0) as [->|Hn].
  - destruct HM as [Hl _]. apply length_zero_iff_nil in Hl. subst M.
    split; [reflexivity|constructor].
  - unfold np.transpose. rewrite (ncols_shape n n M HM) by lia.
    apply has_shape_intro.
    + now rewrite length_map, length_seq.
    + intros i Hi.
      rewrite (nth_map_lt _ _ _ _ 0%nat) by (rewrite length_seq; lia).
      rewrite length_map. apply HM.
Qed.

Lemma get_transpose n M i j :
  has_shape n n M -> (i < n)%nat -> (j < n)%nat ->
  np.get (np.transpose M) i j = np.get M j i.
Proof.
  intros HM Hi Hj. unfold np.get, np.transpose.
  rewrite (ncols_shape n n M HM) by lia.
  rewrite (nth_map_lt _ _ _ _ 0%nat) by (rewrite length_seq; lia).
  rewrite seq_nth by lia. cbn [Nat.add].
  destruct HM as [Hl _].
  now rewrite (nth_map_lt _ _ _ _ []) by lia.
Qed.

Lemma shape_madd n m A B :
  has_shape n m A -> has_shape n m B -> has_shape n m (np.madd A B).
Proof.
  intros HA HB. unfold np.madd. apply has_shape_intro.
  - rewrite map2_length. destruct HA, HB. lia.
  - intros i Hi.
    rewrite (nth_map2 _ _ _ _ _ [] []) by (destruct HA, HB; lia).
    rewrite map2_length.
    rewrite (has_shape_row n m A), (has_shape_row n m B) by assumption. lia.
Qed.

Lemma get_madd n m A B i j :
  has_shape n m A -> has_shape n m B -> (i < n)%nat -> (j < m)%nat ->
  np.get (np.madd A B) i j = np.get A i j + np.get B i j.
Proof.
  intros HA HB Hi Hj. unfold np.get, np.madd.
  rewrite (nth_map2 _ _ _ _ _ [] []) by (destruct HA, HB; lia).
  apply nth_map2.
  - now rewrite (has_shape_row n m A).
  - now rewrite (has_shape_row n m B).
Qed.

Lemma shape_fill_diagonal n m M d :
  has_shape n m M -> has_shape n m (np.fill_diagonal M d).
Proof.
  intros HM. unfold np.fill_diagonal. apply has_shape_intro.
  - rewrite map2_length, length_seq. destruct HM. lia.
  - intros i Hi.
    rewrite (nth_map2 _ _ _ _ _ 0%nat [])
      by (rewrite ?length_seq; destruct HM; lia).
    rewrite map2_length, length_seq, (has_shape_row n m M) by assumption. lia.
Qed.

Lemma get_fill_diagonal n m M d i j :
  has_shape n m M -> (i < n)%nat -> (j < m)%nat ->
  np.get (np.fill_diagonal M d) i j = if Nat.eqb i j then d else np.get M i j.
Proof.
  intros HM Hi Hj. unfold np.get, np.fill_diagonal.
  pose proof (has_shape_row n m M i HM Hi) as Hrow.
  destruct HM as [Hl _].
  rewrite (nth_map2 _ _ _ _ _ 0%nat []) by (rewrite ?length_seq; lia).
  rewrite (nth_map2 _ _ _ _ _ 0%nat 0) by (rewrite ?length_seq; lia).
  rewrite !seq_nth by lia. reflexivity.
Qed.

Lemma shape_mscale n m M c : has_shape n m M -> has_shape n m (np.mscale M c).
Proof.
  intros HM. unfold np.mscale. apply has_shape_intro.
  - rewrite length_map. apply HM.
  - intros i Hi. rewrite (nth_map_lt _ _ _ _ []) by (destruct HM; lia).
    rewrite length_map. now apply (has_shape_row n m M).
Qed.

Lemma get_mscale n m M c i j :
  has_shape n m M -> (i < n)%nat -> (j < m)%nat ->
  np.get (np.mscale M c) i j = np.get M i j * c.
Proof.
  intros HM Hi Hj. unfold np.get, np.mscale.
  rewrite (nth_map_lt _ _ _ _ []) by (destruct HM; lia).
  now rewrite (nth_map_lt _ _ _ _ 0) by (rewrite (has_shape_row n m M); assumption).
Qed.

(** ** The inductance matrix *)

(** The matrix that [setup_orientations] stores, in terms of the matrix [M]
    that the kernel [L_matrix] returns for the new angles. *)
Lemma L_setup_orientations K st al de :
  exists a d q w,
    L (setup_orientations K st al de)
    = np.mscale
        (np.fill_diagonal
           (np.madd
              (sopp.L_matrix K (grid_xyz_all_normalized st) a d q w)
              (np.transpose
                 (sopp.L_matrix K (grid_xyz_all_normalized st) a d q w)))
           ((np.log (8 * coil_R st / coil_a st) - 2) * 4 * np.pi))
        (coil_R st).
Proof.
  unfold setup_orientations. cbv zeta.
  set (st0 := set_angles al de _ st).
  set (st1 := update_alphas_deltas K st0).
  assert (Hf : fixed_attributes st1 = fixed_attributes st).
  { unfold st1. rewrite update_alphas_deltas_fixed. apply fixed_set_angles. }
  destruct (fixed_attributes_inv _ _ Hf) as (_ & HR & Ha & _).
  destruct (update_alphas_deltas_keeps K st0) as (_ & _ & _ & _ & Hgn & _).
  fold st1 in Hgn.
  cbn [L set_L]. rewrite HR, Ha, Hgn.
  do 4 eexists. reflexivity.
Qed.

Lemma L_entries K st al de :
  (forall pts a d q w, exists n, has_shape n n (sopp.L_matrix K pts a d q w)) ->
  exists n M,
    has_shape n n M
    /\ has_shape n n (L (setup_orientations K st al de))
    /\ forall i j, (i < n)%nat -> (j < n)%nat ->
         np.get (L (setup_orientations K st al de)) i j
         = (if Nat.eqb i j
            then (np.log (8 * coil_R st / coil_a st) - 2) * 4 * np.pi
            else np.get M i j + np.get M j i) * coil_R st.
Proof.
  intros Hsq.
  destruct (L_setup_orientations K st al de) as (a & d & q & w & HL).
  destruct (Hsq (grid_xyz_all_normalized st) a d q w) as [n HM].
  set (M := sopp.L_matrix K (grid_xyz_all_normalized st) a d q w) in *.
  pose proof (shape_transpose n M HM) as HT.
  pose proof (shape_madd n n _ _ HM HT) as HA.
  pose proof (shape_fill_diagonal n n _
                ((np.log (8 * coil_R st / coil_a st) - 2) * 4 * np.pi) HA) as HF.
  exists n, M. rewrite HL. split; [assumption|]. split.
  - now apply shape_mscale.
  - intros i j Hi Hj.
    rewrite (get_mscale n n) by assumption.
    rewrite (get_fill_diagonal n n) by assumption.
    rewrite (get_madd n n) by assumption.
    now rewrite (get_transpose n) by assumption.
Qed.

(** C3.  For all angles passed to [setup_orientations], the inductance matrix
    that it assembles from a square matrix of the kernel [L_matrix] equals
    its transpose. *)
Theorem L_symmetric K st alphas deltas :
  (forall pts a d q w, exists n, has_shape n n (sopp.L_matrix K pts a d q w)) ->
  np.transpose (L (setup_orientations K st alphas deltas))
  = L (setup_orientations K st alphas deltas).
Proof.
  intros Hsq.
  destruct (L_entries K st alphas deltas Hsq) as (n & M & HM & HL & Hget).
  apply (matrix_ext n n); [now apply shape_transpose | assumption |].
  intros i j Hi Hj.
  rewrite (get_transpose n) by assumption.
  rewrite !Hget by assumption.
  rewrite (Nat.eqb_sym j i).
  destruct (Nat.eqb i j); [reflexivity|]. f_equal. ring.
Qed.

Lemma toy_L_matrix_square pts a d q w :
  exists n, has_shape n n (sopp.L_matrix toy_kernels pts a d q w).
Proof.
  exists (length pts). cbn [sopp.L_matrix toy_kernels]. split.
  - apply repeat_length.
  - apply Forall_forall. intros row Hrow.
    apply repeat_spec in Hrow. subst row. apply repeat_length.
Qed.

Lemma L_symmetric_witness :
  np.transpose (L (setup_orientations toy_kernels toy_state [0] [0]))
  = L (setup_orientations toy_kernels toy_state [0] [0]).
Proof.
  apply (L_symmetric toy_kernels toy_state [0] [0]).
  exact toy_L_matrix_square.
Defined.

(** C4, as the code has it.  After every call of [setup_orientations], every
    diagonal entry of [L] equals [(log(8R/a) - 2) * 4 pi * R]: the 2 is
    subtracted from the logarithm, not from its argument. *)
Theorem L_diagonal K st alphas deltas i :
  (forall pts a d q w, exists n, has_shape n n (sopp.L_matrix K pts a d q w)) ->
  let st' := setup_orientations K st alphas deltas in
  (i < length (L st'))%nat ->
  np.get (L st') i i
  = (np.log (8 * coil_R st' / coil_a st') - 2) * 4 * np.pi * coil_R st'.
Proof.
  intros Hsq st' Hi.
  destruct (L_entries K st alphas deltas Hsq) as (n & M & HM & HL & Hget).
  fold st' in HL, Hget.
  destruct (fixed_attributes_inv _ _ (setup_orientations_fixed K st alphas deltas))
    as (_ & HR & Ha & _).
  fold st' in HR, Ha. rewrite HR, Ha.
  destruct HL as [Hn _]. rewrite Hn in Hi.
  rewrite Hget by assumption. now rewrite Nat.eqb_refl.
Qed.

Lemma toy_L :
  L (setup_orientations toy_kernels toy_state [0] [0])
  = [[(np.log (8 * 1 / (1 / 100)) - 2) * 4 * np.pi * 1]].
Proof.
  destruct (L_setup_orientations toy_kernels toy_state [0] [0])
    as (a & d & q & w & HL).
  rewrite HL. reflexivity.
Qed.

Lemma L_diagonal_witness :
  let st' := setup_orientations toy_kernels toy_state [0] [0] in
  np.get (L st') 0 0
  = (np.log (8 * coil_R st' / coil_a st') - 2) * 4 * np.pi * coil_R st'.
Proof.
  apply (L_diagonal toy_kernels toy_state [0] [0] 0).
  - exact toy_L_matrix_square.
  - rewrite toy_L. simpl. lia.
Defined.

Lemma log_minus_2 : np.log 800 - 2 <> np.log (800 - 2).
Proof.
  unfold np.log. intros H.
  assert (Hexp : exp (ln 800) = exp (ln (800 - 2) + 2)) by (f_equal; lra).
  rewrite exp_plus, !exp_ln in Hexp by lra.
  pose proof (exp_ineq1 2 ltac:(lra)). lra.
Qed.

(** C4, as the specification has it, fails for one coil with [R = 1] and
    [a = 1/100]: the diagonal entry is [(log 800 - 2) * 4 pi], not
    [log 798 * 4 pi]. *)
Lemma L_diagonal_not_log_of_difference :
  let st' := setup_orientations toy_kernels toy_state [0] [0] in
  (0 < length (L st'))%nat
  /\ np.get (L st') 0 0
     <> np.log (8 * coil_R st' / coil_a st' - 2) * 4 * np.pi * coil_R st'.
Proof.
  intros st'.
  destruct (fixed_attributes_inv _ _
              (setup_orientations_fixed toy_kernels toy_state [0] [0]))
    as (_ & HR & Ha & _).
  fold st' in HR, Ha. rewrite HR, Ha. unfold st'. rewrite toy_L.
  split; [simpl; lia|].
  cbn [np.get nth coil_R coil_a toy_state].
  replace (8 * 1 / (1 / 100)) with 800 by field.
  pose proof log_minus_2 as Hlog. pose proof PI_RGT_0 as Hpi.
  unfold np.pi. intros H. apply Hlog.
  apply (Rmult_eq_reg_r (4 * PI * 1)); [lra|lra].
Qed.

(** ** Products of arrays *)

Lemma dot_vadd_l a b v :
  length a = length b -> np.dot (np.vadd a b) v = np.dot a v + np.dot b v.
Proof.
  revert b v. induction a as [|x a IH]; intros [|y b] v Hl; try discriminate.
  - rewrite !dot_nil_l. lra.
  - destruct v as [|z v]; [rewrite !dot_nil_r; lra|].
    change (np.vadd (x :: a) (y :: b)) with ((x + y) :: np.vadd a b).
    rewrite !dot_cons, IH by (simpl in Hl; lia). ring.
Qed.

Lemma dot_zeros_l k v : np.dot (np.zeros k) v = 0.
Proof.
  revert v. induction k as [|k IH]; intros v; [apply dot_nil_l|].
  destruct v as [|z v]; [apply dot_nil_r|].
  change (np.zeros (S k)) with (0 :: np.zeros k).
  rewrite dot_cons, IH. ring.
Qed.

Lemma length_vadd a b : length (np.vadd a b) = Nat.min (length a) (length b).
Proof. apply map2_length. Qed.

Lemma length_vscale c v : length (np.vscale c v) = length v.
Proof. apply length_map. Qed.

(** A combination of rows of length [k], started from [base]. *)
Lemma lincomb_spec k base r B v :
  length base = k -> Forall (fun row => length row = k) B ->
  let w := fold_right (fun p acc => np.vadd (np.vscale (fst p) (snd p)) acc)
                      base (combine r B) in
  length w = k /\ np.dot w v = np.dot base v + np.dot r (np.matvec B v).
Proof.
  intros Hb HB. revert r.
  induction HB as [|row B Hrow HB IH]; intros r.
  - assert (Hw : combine r (@nil (list R)) = []) by (destruct r; reflexivity).
    cbv zeta. rewrite Hw. cbn [fold_right].
    change (np.matvec [] v) with (@nil R). rewrite dot_nil_r. split; auto; lra.
  - destruct r as [|c r].
    + cbv zeta. cbn [combine fold_right]. rewrite dot_nil_l. split; auto; lra.
    + destruct (IH r) as [Hl Hd]. cbn [combine fold_right fst snd].
      split.
      * rewrite length_vadd, length_vscale. lia.
      * rewrite dot_vadd_l by (rewrite length_vscale; lia).
        rewrite dot_vscale_l, Hd.
        change (np.matvec (row :: B) v) with (np.dot row v :: np.matvec B v).
        rewrite dot_cons. ring.
Qed.

Lemma dot_vecmat n k r B v :
  has_shape n k B -> (0 < n)%nat ->
  np.dot (np.vecmat r B) v = np.dot r (np.matvec B v).
Proof.
  intros HB Hn. unfold np.vecmat.
  destruct (lincomb_spec k (np.zeros (np.ncols B)) r B v) as [_ Hd].
  - rewrite (ncols_shape n k B HB Hn). apply repeat_length.
  - apply HB.
  - rewrite Hd, dot_zeros_l. ring.
Qed.

(** [(A @ B) @ v = A @ (B @ v)]. *)
Lemma matvec_matmul n k A B v :
  has_shape n k B -> (0 < n)%nat ->
  np.matvec (np.matmul A B) v = np.matvec A (np.matvec B v).
Proof.
  intros HB Hn. unfold np.matmul, np.matvec at 1 2. rewrite map_map.
  apply map_ext. intros r. now apply (dot_vecmat n k).
Qed.

Lemma dot_unit i s n v :
  length v = n ->
  np.dot (map (fun j => if Nat.eqb i j then 1 else 0) (seq s n)) v
  = if Nat.leb s i && Nat.ltb i (s + n) then nth (i - s) v 0 else 0.
Proof.
  revert s v. induction n as [|n IH]; intros s v Hl.
  - rewrite dot_nil_l.
    destruct (Nat.leb_spec s i), (Nat.ltb_spec i (s + 0)); cbn; auto; lia.
  - destruct v as [|z v]; [discriminate|]. cbn [seq map].
    rewrite dot_cons, (IH (S s)) by (simpl in Hl; lia).
    destruct (Nat.eqb_spec i s) as [->|Hne].
    + rewrite Nat.sub_diag. cbn [nth].
      destruct (Nat.leb_spec (S s) s); [lia|].
      destruct (Nat.leb_spec s s); [|lia].
      destruct (Nat.ltb_spec s (s + S n)); [|lia]. cbn. ring.
    + destruct (Nat.leb_spec (S s) i), (Nat.leb_spec s i),
        (Nat.ltb_spec i (S s + n)), (Nat.ltb_spec i (s + S n));
        cbn; try lia; try ring.
      replace (i - s)%nat with (S (i - S s)) by lia. cbn. ring.
Qed.

(** [np.eye(n) @ v = v]. *)
Lemma matvec_eye n v : length v = n -> np.matvec (np.eye n) v = v.
Proof.
  intros Hl. apply (nth_ext _ _ 0 0).
  - unfold np.matvec, np.eye. now rewrite !length_map, length_seq.
  - intros i Hi. unfold np.matvec, np.eye in *.
    rewrite !length_map, length_seq in Hi.
    rewrite (nth_map_lt (fun row => np.dot row v) _ _ _ [])
      by (rewrite length_map, length_seq; lia).
    rewrite (nth_map_lt _ _ _ _ 0%nat) by (rewrite length_seq; lia).
    rewrite seq_nth by lia. cbn [Nat.add].
    rewrite dot_unit by assumption.
    destruct (Nat.ltb_spec i (0 + n)); [|lia]. cbn. now rewrite Nat.sub_0_r.
Qed.

Lemma matvec_vneg_r M v : np.matvec M (np.vneg v) = np.vneg (np.matvec M v).
Proof.
  unfold np.matvec, np.vneg at 2. rewrite map_map. apply map_ext.
  intros row. apply dot_vneg_r.
Qed.

Lemma matvec_mneg M v : np.matvec (np.mneg M) v = np.vneg (np.matvec M v).
Proof.
  unfold np.matvec, np.mneg, np.vneg at 2. rewrite !map_map. apply map_ext.
  intros row. apply dot_vneg_l.
Qed.

Lemma vscale_vdiv c v : c <> 0 -> np.vscale c (np.vdiv v c) = v.
Proof.
  intros Hc. unfold np.vscale, np.vdiv. rewrite map_map.
  rewrite <- (map_id v) at 2. apply map_ext. intros x. now field.
Qed.

(** ** The currents *)

(** C2.  [setup_currents_and_fields] computes the currents of all the
    [n = num_psc * symmetry] coils as [I_all = (-L_inv @ psi_total) / fac] with
    [L_inv = np.linalg.inv(L)]; when [L_inv] is the inverse of [L], the scaled
    currents [fac * I_all] solve [L @ (fac * I_all) = -psi_total]; and the
    current vector is the restriction [I = I_all[:num_psc]]. *)
Theorem currents_solve_full_system K E st n :
  has_shape n n (L st) ->
  length (psi_total (flux st)) = n ->
  has_shape n n (ext.linalg_inv E (L st)) ->
  np.matmul (L st) (ext.linalg_inv E (L st)) = np.eye n ->
  fac st <> 0 ->
  let st' := setup_currents_and_fields K E st in
  I_all (currents st')
  = np.vdiv (np.matvec (np.mneg (ext.linalg_inv E (L st))) (psi_total (flux st)))
            (fac st)
  /\ length (I_all (currents st')) = n
  /\ np.matvec (L st) (np.vscale (fac st) (I_all (currents st')))
     = np.vneg (psi_total (flux st))
  /\ I_psc (currents st') = firstn (num_psc st) (I_all (currents st')).
Proof.
  intros HL Hpsi Hinv Hprod Hfac st'.
  assert (HI : I_all (currents st')
               = np.vdiv (np.matvec (np.mneg (ext.linalg_inv E (L st)))
                                    (psi_total (flux st))) (fac st))
    by reflexivity.
  split; [exact HI|]. split; [|split].
  - rewrite HI. unfold np.vdiv, np.matvec, np.mneg.
    rewrite !length_map. apply Hinv.
  - rewrite HI, vscale_vdiv, matvec_mneg, matvec_vneg_r by assumption.
    f_equal.
    destruct (Nat.eq_dec n 0) as [->|Hn].
    + destruct HL as [HL0 _]. apply length_zero_iff_nil in HL0, Hpsi.
      rewrite HL0, Hpsi. reflexivity.
    + rewrite <- (matvec_matmul n n) by (assumption || lia).
      rewrite Hprod. now apply matvec_eye.
  - reflexivity.
Qed.

Lemma currents_solve_full_system_witness :
  let st' := setup_currents_and_fields toy_kernels halving solved_state in
  np.matvec (L solved_state) (np.vscale (fac solved_state) (I_all (currents st')))
  = np.vneg (psi_total (flux solved_state))
  /\ I_psc (currents st') = firstn (num_psc solved_state) (I_all (currents st')).
Proof.
  apply (currents_solve_full_system toy_kernels halving solved_state 1).
  - split; [reflexivity|]. repeat constructor.
  - reflexivity.
  - split; [reflexivity|]. repeat constructor.
  - cbn. do 2 f_equal. field.
  - unfold solved_state. cbn [fac set_L set_flux toy_state].
    apply Rgt_not_eq, Rdiv_lt_0_compat; [lra|apply pow_lt; lra].
Defined.

(** ** The symmetry expansion *)

(** The replica of [fp = 0] and [stell = 1] is the coil itself. *)
Lemma first_replica_id nfp (p : point) : replica nfp 0 1 p = p.
Proof.
  destruct p as [[x y] z]. unfold replica. cbn [INR px py pz fst snd].
  rewrite Rmult_0_r. unfold np.cos, np.sin. rewrite cos_0, sin_0.
  repeat f_equal; ring.
Qed.

Lemma first_replica_block nfp (pts : list point) :
  map (replica nfp 0 1) pts = pts.
Proof.
  rewrite <- (map_id pts) at 2. apply map_ext. intros p.
  apply first_replica_id.
Qed.

(** The loop starts with [q = 0], [fp = 0], [stell = 1] and goes on with
    [q >= 1]. *)
Lemma symmetry_loop_head nfp sl :
  (1 <= nfp)%nat ->
  exists rest,
    list_prod (seq 0 nfp) (1 :: sl) = (0%nat, 1) :: rest
    /\ symmetry_loop nfp (1 :: sl)
       = (0%nat, (0%nat, 1)) :: combine (seq 1 (length rest)) rest.
Proof.
  intros Hn. destruct nfp as [|n]; [lia|].
  unfold symmetry_loop. cbn [seq list_prod map app].
  eexists. split; reflexivity.
Qed.

Lemma firstn_assign_rows_later {A} nn lo (block a : list A) :
  (nn <= lo)%nat -> (nn <= length a)%nat ->
  firstn nn (assign_rows lo block a) = firstn nn a.
Proof.
  intros Hlo Ha. unfold assign_rows.
  rewrite firstn_app.
  replace (nn - length (firstn lo a))%nat with 0%nat
    by (rewrite length_firstn; lia).
  cbn [firstn]. rewrite app_nil_r, firstn_firstn. f_equal. lia.
Qed.

Lemma firstn_assign_rows_first {A} (block a : list A) :
  firstn (length block) (assign_rows 0 block a) = block.
Proof.
  unfold assign_rows. cbn [firstn app].
  rewrite firstn_app, Nat.sub_diag, firstn_all. cbn [firstn]. apply app_nil_r.
Qed.

(** The iterations with [q >= 1] leave the first [nn] rows alone. *)
Lemma later_replicas_keep_first {A B} nn (block : B -> list A) rest :
  forall s (a : list A),
    (1 <= s)%nat -> (nn <= length a)%nat ->
    firstn nn
      (fold_left (fun all it => assign_rows (nn * fst it) (block (snd it)) all)
                 (combine (seq s (length rest)) rest) a)
    = firstn nn a.
Proof.
  induction rest as [|x rest IH]; intros s a Hs Ha; [reflexivity|].
  cbn [length seq combine fold_left fst snd].
  rewrite IH.
  - apply firstn_assign_rows_later; [nia|assumption].
  - lia.
  - unfold assign_rows. rewrite !length_app, length_firstn.
    destruct (Nat.le_ge_cases (nn * s) (length a)); [nia|].
    rewrite Nat.min_r by lia. lia.
Qed.

(** The first [num_psc] expanded centers are the centers. *)
Lemma setup_full_grid_first_block K st :
  consistent st ->
  firstn (num_psc st) (grid_xyz_all (setup_full_grid K st)) = grid_xyz st.
Proof.
  intros [Hn Hnfp Hsl Hsym].
  unfold setup_full_grid. cbv zeta.
  match goal with
  | |- context [update_alphas_deltas K ?s] =>
      destruct (update_alphas_deltas_keeps K s) as (_ & _ & _ & Hg & _)
  end.
  rewrite Hg. cbn [grid_xyz_all set_full_grid].
  assert (Hhead : exists sl, stell_list st = 1 :: sl)
    by (rewrite Hsl; destruct (stellsym st); eexists; reflexivity).
  destruct Hhead as [sl Hsl'].
  destruct (symmetry_loop_head (nfp st) sl Hnfp) as (rest & _ & Hloop).
  rewrite Hsl', Hloop. cbn [fold_left fst snd].
  rewrite Nat.mul_0_r, first_replica_block.
  rewrite (later_replicas_keep_first (num_psc st)
             (fun it : nat * R =>
                map (replica (nfp st) (fst it) (snd it)) (grid_xyz st))).
  - rewrite Hn. apply firstn_assign_rows_first.
  - lia.
  - unfold assign_rows. cbn [firstn app]. rewrite length_app. lia.
Qed.

(** The first block of the expanded normals of the specification holds the
    normals. *)
Lemma expand_normals_first nfp ss cn :
  (1 <= nfp)%nat ->
  firstn (length cn) (expand_normals_spec nfp ss cn) = cn.
Proof.
  intros Hn. unfold expand_normals_spec. cbv zeta.
  assert (Hhead : exists sl, (if Nat.eqb ss 0 then [1] else [1; -1]) = 1 :: sl)
    by (destruct (Nat.eqb ss 0); eexists; reflexivity).
  destruct Hhead as [sl ->].
  destruct (symmetry_loop_head nfp sl Hn) as (rest & -> & _).
  cbn [flat_map fst snd]. rewrite first_replica_block.
  rewrite firstn_app, Nat.sub_diag, firstn_all. cbn [firstn]. apply app_nil_r.
Qed.

Lemma coil_normals_all_spec K st :
  coil_normals_all (expanded (update_alphas_deltas (with_spec_expander K) st))
  = expand_normals_spec (nfp st) (Nat.b2n (stellsym st)) (coil_normals st).
Proof.
  unfold update_alphas_deltas.
  cbn [with_spec_expander sopp.update_alphas_deltas_xsimd].
  case_xsimd. reflexivity.
Qed.

Lemma expanded_setup_orientations K st al de :
  expanded (setup_orientations K st al de)
  = expanded
      (update_alphas_deltas K
         (set_angles al de (flip_negative_zeros (normals_of_angles al de)) st)).
Proof. reflexivity. Qed.

(** C8.  With the expanded normals of the specification, after
    [setup_full_grid] and any orientation update the first [num_psc] entries
    of the expanded centers and of the expanded normals are the centers and
    the normals of the fundamental domain. *)
Theorem expansion_then_restriction K st alphas deltas :
  consistent st ->
  length alphas = num_psc st -> length deltas = num_psc st ->
  let K' := with_spec_expander K in
  let st1 := setup_full_grid K' st in
  let st2 := setup_orientations K' st1 alphas deltas in
  grid_xyz st2 = grid_xyz st /\ num_psc st2 = num_psc st
  /\ firstn (num_psc st2) (grid_xyz_all st2) = grid_xyz st2
  /\ firstn (num_psc st2) (coil_normals_all (expanded st2)) = coil_normals st2.
Proof.
  intros Hc Hal Hde K' st1 st2. subst K'.
  assert (Hf1 : fixed_attributes st1 = fixed_attributes st)
    by apply setup_full_grid_fixed.
  assert (Hf2 : fixed_attributes st2 = fixed_attributes st1)
    by apply setup_orientations_fixed.
  destruct (fixed_attributes_inv _ _ Hf1)
    as (_ & _ & _ & Hg1 & Hn1 & _ & Hnfp1 & Hs1 & _).
  destruct (fixed_attributes_inv _ _ Hf2)
    as (_ & _ & _ & Hg2 & Hn2 & _ & Hnfp2 & Hs2 & _).
  destruct (setup_orientations_keeps (with_spec_expander K) st1 alphas deltas)
    as (_ & _ & Hcn & Hga & _).
  fold st2 in Hcn, Hga.
  split; [congruence|]. split; [congruence|]. split.
  - rewrite Hga, Hn2, Hn1, Hg2, Hg1. now apply setup_full_grid_first_block.
  - unfold st2 at 2. rewrite expanded_setup_orientations, coil_normals_all_spec.
    cbn [nfp stellsym coil_normals set_angles]. rewrite Hcn.
    assert (Hlen : num_psc st2
                   = length (flip_negative_zeros (normals_of_angles alphas deltas))).
    { unfold flip_negative_zeros.
      rewrite length_map, length_normals_of_angles. lia. }
    rewrite Hlen. apply expand_normals_first.
    rewrite Hnfp1. apply Hc.
Qed.

Lemma expansion_then_restriction_witness :
  let K' := with_spec_expander toy_kernels in
  let st2 := setup_orientations K' (setup_full_grid K' toy_state) [0] [0] in
  firstn (num_psc st2) (grid_xyz_all st2) = grid_xyz st2
  /\ firstn (num_psc st2) (coil_normals_all (expanded st2)) = coil_normals st2.
Proof.
  apply (expansion_then_restriction toy_kernels toy_state [0] [0]).
  - split; reflexivity || (cbn; lia).
  - reflexivity.
  - reflexivity.
Defined.

(** The objects that the constructors return for a plasma boundary with
    [nfp >= 1] satisfy the invariant that the expansion relies on. *)
Lemma constructed_consistent K E st :
  constructed K E st -> (1 <= nfp st)%nat -> consistent st.
Proof.
  intros [pb coils inner outer kw st' H | points Rc kw st' H] Hnfp.
  - apply geo_setup_between_toroidal_surfaces_inv in H.
    destruct H as (g & pre & Hg & -> & _ & _ & Hxyz & Hn & _ & Hnfp' & Hs & Hsl
                   & Hsym & _).
    apply geo_setup_between_toroidal_surfaces_grid_inv in Hg.
    destruct Hg as (_ & Hgn & _ & _ & _ & Hgsl & Hgsym & _).
    apply (consistent_fixed pre); [apply finish_setup_fixed|].
    destruct (fixed_attributes_inv _ _ (finish_setup_fixed K E pre))
      as (_ & _ & _ & _ & _ & _ & Hnfp'' & _).
    split.
    + congruence.
    + now rewrite <- Hnfp''.
    + rewrite Hsl, Hs. exact Hgsl.
    + rewrite Hsym, Hnfp', Hs. exact Hgsym.
  - apply geo_setup_manual_inv in H.
    destruct H as (pre & -> & _ & _ & Hxyz & Hn & _ & _ & _ & _ & Hsl & Hsym & _).
    apply (consistent_fixed pre); [apply finish_setup_fixed|].
    destruct (fixed_attributes_inv _ _ (finish_setup_fixed K E pre))
      as (_ & _ & _ & _ & _ & _ & Hnfp'' & _).
    split.
    + congruence.
    + now rewrite <- Hnfp''.
    + exact Hsl.
    + exact Hsym.
Qed.

(** * Further properties of the constructors *)

(** ** The check of the shape of [Bn_plasma] *)

Lemma INR_lt_pow5 n : (n < 10 ^ 5)%nat -> INR n <= 10 ^ 5 - 1.
Proof.
  intros H. assert (H' : (S n <= 10 ^ 5)%nat) by lia.
  apply le_INR in H'. rewrite S_INR, pow_INR in H'.
  replace (INR 10) with 10 in H' by (simpl; lra). lra.
Qed.

Lemma INR_neq_gap a n : a <> n -> 1 <= Rabs (INR a - INR n).
Proof.
  intros H. destruct (Nat.lt_total a n) as [Hlt|[Heq|Hgt]]; [|contradiction|].
  - assert (H' : (S a <= n)%nat) by lia.
    apply le_INR in H'. rewrite S_INR in H'.
    rewrite Rabs_left by lra. lra.
  - assert (H' : (S n <= a)%nat) by lia.
    apply le_INR in H'. rewrite S_INR in H'.
    rewrite Rabs_right by lra. lra.
Qed.

(** Below [10^5] the tolerance of [np.allclose] is less than one: the check
    accepts a dimension only when it is the expected one. *)
Lemma isclose_INR_exact a n :
  (n < 10 ^ 5)%nat -> np.isclose (INR a) (INR n) = Nat.eqb a n.
Proof.
  intros Hn. destruct (Nat.eqb_spec a n) as [->|Hne].
  - apply isclose_refl.
  - unfold np.isclose. apply Rleb_false.
    pose proof (INR_neq_gap a n Hne). pose proof (INR_lt_pow5 n Hn).
    pose proof (pos_INR n). rewrite (Rabs_right (INR n)) by lra.
    unfold np.atol, np.rtol. lra.
Qed.

Lemma allclose_shape_exact s n m :
  (n < 10 ^ 5)%nat -> (m < 10 ^ 5)%nat ->
  s <> (n, m) -> np.allclose_shape s (n, m) = false.
Proof.
  intros Hn Hm Hs. destruct s as [a b]. unfold np.allclose_shape.
  cbn [fst snd]. rewrite !isclose_INR_exact by assumption.
  destruct (Nat.eqb_spec a n) as [->|]; [|reflexivity].
  destruct (Nat.eqb_spec b m) as [->|]; [|reflexivity].
  contradiction.
Qed.


(** X1.  Both constructors refuse a [Bn_plasma] whose shape is not
    [(nphi, ntheta)], for a plasma boundary with fewer than [10^5] quadrature
    points in each direction, with the [ValueError] of the shape, before any
    other check. *)
Theorem wrong_shape_rejected K E :
  (forall points Rc kwargs Bn,
      let pb := pop (kw_plasma_boundary kwargs) (default_surf E) in
      let nphi := length (s_quadpoints_phi pb) in
      let ntheta := length (s_quadpoints_theta pb) in
      kw_Bn_plasma kwargs = Some Bn ->
      (nphi < 10 ^ 5)%nat -> (ntheta < 10 ^ 5)%nat ->
      shape Bn <> (nphi, ntheta) ->
      geo_setup_manual K E points Rc kwargs = inl (ValueError msg_shape))
  /\ (forall plasma_boundary coils_TF inner outer kwargs Bn,
         let pb := ext.to_RZFourier E plasma_boundary in
         let nphi := length (s_quadpoints_phi pb) in
         let ntheta := length (s_quadpoints_theta pb) in
         gkw_Bn_plasma kwargs = Some Bn ->
         (nphi < 10 ^ 5)%nat -> (ntheta < 10 ^ 5)%nat ->
         shape Bn <> (nphi, ntheta) ->
         geo_setup_between_toroidal_surfaces K E plasma_boundary coils_TF
           inner outer kwargs = inl (ValueError msg_shape)).
Proof.
  split.
  - intros points Rc kwargs Bn pb nphi ntheta HBn Hn Hm Hs.
    unfold geo_setup_manual. cbv zeta. fold pb. fold nphi ntheta.
    rewrite HBn. cbn [pop].
    now rewrite (allclose_shape_exact _ _ _ Hn Hm Hs).
  - intros plasma_boundary coils_TF inner outer kwargs Bn pb nphi ntheta
      HBn Hn Hm Hs.
    unfold geo_setup_between_toroidal_surfaces,
      geo_setup_between_toroidal_surfaces_grid.
    cbv zeta. fold pb. fold nphi ntheta.
    rewrite HBn. cbn [pop].
    now rewrite (allclose_shape_exact _ _ _ Hn Hm Hs).
Qed.

Lemma pow5_pos : (0 < 10 ^ 5)%nat.
Proof. apply Nat.neq_0_lt_0, Nat.pow_nonzero. discriminate. Qed.

Lemma wrong_shape_rejected_witness :
  geo_setup_manual toy_kernels toy_collaborators close_points (1 / 10)
    (mkManualKwargs None None None None (Some (mkArray2 (2, 3)%nat []))
       None None None)
  = inl (ValueError msg_shape).
Proof.
  apply (proj1 (wrong_shape_rejected toy_kernels toy_collaborators)
           close_points (1 / 10) _ (mkArray2 (2, 3)%nat [])).
  - reflexivity.
  - apply pow5_pos.
  - apply pow5_pos.
  - discriminate.
Defined.


(** ** The uniform grid *)

Lemma length_flat_map_const {A B} (f : A -> list B) k l :
  (forall x, length (f x) = k) -> length (flat_map f l) = (length l * k)%nat.
Proof.
  intros H. induction l as [|x l IH]; [reflexivity|].
  cbn [flat_map length]. rewrite length_app, H, IH. lia.
Qed.

Lemma length_linspace a b n : length (np.linspace a b n) = n.
Proof. unfold np.linspace. now rewrite length_map, length_seq. Qed.

Lemma arctan2_pos_y y x : 0 < y -> 0 < np.arctan2 y x.
Proof.
  intros Hy. unfold np.arctan2. pose proof PI_RGT_0.
  destruct (Rlt_dec 0 x) as [Hx|Hx].
  - rewrite <- atan_0. apply atan_increasing. now apply Rdiv_lt_0_compat.
  - destruct (Rlt_dec x 0) as [Hx'|Hx'].
    + pose proof (atan_bound (y / x)).
      destruct (Rle_dec 0 y); lra.
    + destruct (Rlt_dec 0 y); lra.
Qed.

(** What [chop_sector] keeps when [phi2] is assigned. *)
Lemma chop_sector_spec nfp Rc rc00 pts kept :
  chop_sector nfp Rc rc00 pts = inr kept ->
  (length kept <= length pts)%nat
  /\ forall p, In p kept <->
       In p pts
       /\ exists phi2,
            sector_phi2 nfp Rc rc00 p (np.arctan2 (py p) (px p)) = inr phi2
            /\ 0 <= np.arctan2 (py p) (px p)
            /\ np.arctan2 (py p) (px p) < np.pi / INR nfp - phi2.
Proof.
  revert kept. induction pts as [|q pts IH]; intros kept H.
  - cbn in H. injection H as <-. split; [cbn; lia|].
    intros p. split.
    + intros Hp. destruct Hp.
    + intros [Hp _]. destruct Hp.
  - cbn [chop_sector] in H. cbv zeta in H. unfold bind in H.
    destruct (sector_phi2 nfp Rc rc00 q _) as [e|phi2] eqn:Hphi2; [discriminate|].
    destruct (chop_sector nfp Rc rc00 pts) as [e|rest] eqn:Hrest; [discriminate|].
    destruct (IH rest eq_refl) as [Hlen Hin].
    unfold ret in H. injection H as <-.
    unfold Rleb, Rltb.
    destruct (Rle_dec _ _) as [Hge|Hge]; cbn [orb].
    + split; [cbn; lia|]. intros p. rewrite Hin. split.
      * intros [Hp Hex]. split; [now right|exact Hex].
      * intros [[<-|Hp] (v & Hv & H0 & Hlt)]; [|split; [assumption|eauto]].
        rewrite Hphi2 in Hv. injection Hv as <-. lra.
    + destruct (Rlt_dec _ 0) as [Hneg|Hneg].
      * split; [cbn; lia|]. intros p. rewrite Hin. split.
        -- intros [Hp Hex]. split; [now right|exact Hex].
        -- intros [[<-|Hp] (v & Hv & H0 & Hlt)]; [lra|split; [assumption|eauto]].
      * split; [cbn; lia|]. intros p. cbn [In]. rewrite Hin. split.
        -- intros [<-|[Hp Hex]].
           ++ split; [now left|]. exists phi2. repeat split; [assumption|lra|lra].
           ++ split; [now right|exact Hex].
        -- intros [[<-|Hp] Hex]; [now left|right; now split].
Qed.


Lemma chop_sector_assigned nfp Rc rc00 pts :
  nfp = 2%nat \/ nfp = 3%nat \/ nfp = 4%nat ->
  exists kept, chop_sector nfp Rc rc00 pts = inr kept.
Proof.
  intros Hn. induction pts as [|p pts [kept IH]]; [now exists []|].
  cbn [chop_sector]. cbv zeta. rewrite IH.
  assert (Hphi2 : exists v, sector_phi2 nfp Rc rc00 p
                              (np.arctan2 (py p) (px p)) = inr v).
  { unfold sector_phi2. destruct Hn as [-> | [-> | ->]]; cbn; eexists; reflexivity. }
  destruct Hphi2 as [v ->]. cbn [bind ret]. eexists. reflexivity.
Qed.

(** The uniform grid before the sector is chopped off, and what
    [_setup_uniform_grid] makes of it. *)
Lemma _setup_uniform_grid_points inner outer pb Nx Ny Nz poff nfp ug :
  _setup_uniform_grid inner outer pb Nx Ny Nz poff nfp = inr ug ->
  exists grid0,
    length grid0 = (Z.to_nat Nx * Z.to_nat Ny * Z.to_nat Nz)%nat
    /\ if Nat.ltb 1 nfp
       then chop_sector nfp (ug_R ug) (s_rc00 pb) grid0 = inr (xyz_uniform ug)
       else xyz_uniform ug = grid0.
Proof.
  unfold _setup_uniform_grid. cbv zeta.
  match goal with
  | |- context [flat_map ?f ?X] =>
      match f with
      | (fun x => flat_map _ _) => set (grid0 := flat_map f X)
      end
  end.
  intros H. exists grid0. split.
  - unfold grid0.
    rewrite (length_flat_map_const _ (Z.to_nat Ny * Z.to_nat Nz)).
    + destruct (Nat.ltb 1 (s_nfp pb)); rewrite length_linspace; lia.
    + intros x. rewrite (length_flat_map_const _ (Z.to_nat Nz)).
      * destruct (Nat.ltb 1 (s_nfp pb)); rewrite length_linspace; lia.
      * intros y. now rewrite length_map, length_linspace.
  - destruct (Nat.ltb 1 nfp).
    + unfold bind in H.
      destruct (chop_sector _ _ _ grid0) as [e|kept] eqn:Hc in H; [discriminate|].
      injection H as <-. cbn [ug_R xyz_uniform]. exact Hc.
    + cbn [bind ret] in H. injection H as <-. reflexivity.
Qed.

(** X3.  When [_setup_uniform_grid] returns, the uniform grid has at most
    [Nx * Ny * Nz] points, and exactly that many without field periods
    ([nfp <= 1]); with [nfp > 1] every point that it keeps has [phi >= 0],
    and with [nfp] 2 or 4 and a positive coil radius every point has
    [phi < pi / nfp]: no point of the grid lies on the plane [phi = pi / nfp]
    or beyond. *)
Theorem uniform_grid_in_sector inner outer pb Nx Ny Nz poff nfp ug :
  _setup_uniform_grid inner outer pb Nx Ny Nz poff nfp = inr ug ->
  (length (xyz_uniform ug) <= Z.to_nat Nx * Z.to_nat Ny * Z.to_nat Nz)%nat
  /\ ((nfp <= 1)%nat ->
      length (xyz_uniform ug) = (Z.to_nat Nx * Z.to_nat Ny * Z.to_nat Nz)%nat)
  /\ ((1 < nfp)%nat ->
      forall p, In p (xyz_uniform ug) -> 0 <= np.arctan2 (py p) (px p))
  /\ (nfp = 2%nat \/ nfp = 4%nat -> 0 < ug_R ug ->
      forall p, In p (xyz_uniform ug) ->
        np.arctan2 (py p) (px p) < np.pi / INR nfp).
Proof.
  intros H.
  destruct (_setup_uniform_grid_points _ _ _ _ _ _ _ _ _ H) as (grid0 & Hlen & Hg).
  destruct (Nat.ltb_spec 1 nfp) as [Hn|Hn].
  - destruct (chop_sector_spec _ _ _ _ _ Hg) as [Hle Hin].
    split; [lia|]. split; [lia|]. split.
    + intros _ p Hp. apply Hin in Hp.
      destruct Hp as (_ & v & _ & H0 & _). exact H0.
    + intros Hnfp HR p Hp. apply Hin in Hp.
      destruct Hp as (_ & v & Hv & _ & Hlt).
      assert (0 < v); [|lra].
      unfold sector_phi2 in Hv.
      destruct Hnfp as [-> | ->]; cbn in Hv; injection Hv as <-;
        now apply arctan2_pos_y.
  - subst grid0. split; [lia|]. split; [intros _; exact Hlen|]. split; [lia|].
    intros [-> | ->]; lia.
Qed.




(** ** The checks of the grid constructor *)

(** X4.  With an accepted [Bn_plasma], [geo_setup_between_toroidal_surfaces]
    raises the [ValueError] of the grid dimensions when one of [Nx], [Ny],
    [Nz] is not positive; [Ny] and [Nz] default to [Nx] and [Nx] to 10. *)
Theorem nonpositive_N_rejected K E plasma_boundary coils_TF inner outer kwargs :
  let Nx := pop (gkw_Nx kwargs) 10%Z in
  let Ny := pop (gkw_Ny kwargs) Nx in
  let Nz := pop (gkw_Nz kwargs) Nx in
  grid_Bn_plasma_accepted E plasma_boundary kwargs = true ->
  (Nx <= 0)%Z \/ (Ny <= 0)%Z \/ (Nz <= 0)%Z ->
  geo_setup_between_toroidal_surfaces K E plasma_boundary coils_TF inner outer
    kwargs = inl (ValueError msg_N).
Proof.
  intros Nx Ny Nz Hshape HN.
  unfold geo_setup_between_toroidal_surfaces,
    geo_setup_between_toroidal_surfaces_grid.
  cbv zeta. unfold grid_Bn_plasma_accepted in Hshape. cbv zeta in Hshape.
  rewrite Hshape. cbn [negb]. fold Nx. fold Ny. fold Nz.
  assert (HN' : ((Nx <=? 0)%Z || (Ny <=? 0)%Z || (Nz <=? 0)%Z) = true).
  { destruct HN as [H|[H|H]]; apply Z.leb_le in H; rewrite H;
      rewrite ?orb_true_r; reflexivity. }
  rewrite HN'. reflexivity.
Qed.

Lemma nonpositive_N_rejected_witness :
  geo_setup_between_toroidal_surfaces toy_kernels toy_collaborators
    (toy_surface 1 false) [] (toy_surface 1 false) (toy_surface 1 false)
    (grid_kwargs_Nx 0) = inl (ValueError msg_N).
Proof.
  apply (nonpositive_N_rejected toy_kernels toy_collaborators
           (toy_surface 1 false) [] (toy_surface 1 false) (toy_surface 1 false)
           (grid_kwargs_Nx 0)).
  - apply allclose_shape_refl.
  - left. cbn. lia.
Defined.



(** ** The check for a symmetry plane *)

Lemma where_nil_inv mask :
  np.where_ mask = [] -> Forall (fun b => b = false) mask.
Proof.
  unfold np.where_. generalize 0%nat.
  induction mask as [|b mask IH]; intros n H; [constructor|].
  cbn [length seq combine filter snd] in H. destruct b.
  - discriminate.
  - constructor; [reflexivity|]. now apply (IH (S n)).
Qed.

Lemma Rltb_false_inv x y : Rltb x y = false -> ~ x < y.
Proof. unfold Rltb. destruct (Rlt_dec x y); [discriminate|auto]. Qed.

(** The list [inds] is empty exactly when no center conflicts with a plane. *)
Lemma symmetry_plane_inds_nil_iff nfp Rc pts :
  symmetry_plane_inds nfp Rc pts = []
  <-> forall i p, (i < nfp)%nat -> In p pts -> ~ plane_conflict nfp Rc i p.
Proof.
  split; [|apply symmetry_plane_inds_nil].
  unfold symmetry_plane_inds. cbv zeta. intros H i p Hi Hp.
  rewrite flat_map_concat_map in H.
  apply concat_nil_Forall in H. rewrite Forall_map, Forall_forall in H.
  specialize (H i). rewrite in_seq in H. specialize (H ltac:(lia)).
  rewrite map2_map_same in H.
  match type of H with
  | match ?w with _ => _ end = _ => destruct w eqn:Hw; [|discriminate]
  end.
  apply where_nil_inv in Hw. rewrite Forall_map, Forall_forall in Hw.
  specialize (Hw p Hp). apply Rltb_false_inv in Hw.
  unfold np.arange in Hw.
  rewrite (nth_map_lt _ _ _ _ 0) in Hw by (rewrite length_map, length_seq; lia).
  rewrite (nth_map_lt _ _ _ _ 0%nat) in Hw by (rewrite length_seq; lia).
  rewrite seq_nth in Hw by lia. exact Hw.
Qed.

Lemma geo_setup_manual_plane_conflict K E points Rc kwargs i p :
  let nfp := s_nfp (pop (kw_plasma_boundary kwargs) (default_surf E)) in
  manual_Bn_plasma_accepted E kwargs = true ->
  (i < nfp)%nat -> In p points -> plane_conflict nfp Rc i p ->
  geo_setup_manual K E points Rc kwargs = inl (ValueError msg_plane).
Proof.
  intros nfp. unfold manual_Bn_plasma_accepted. intros Hshape Hi Hp Hc.
  unfold geo_setup_manual. cbv zeta. rewrite Hshape. cbn [negb].
  fold nfp.
  destruct (symmetry_plane_inds nfp Rc points) eqn:Hinds; [|reflexivity].
  exfalso. rewrite symmetry_plane_inds_nil_iff in Hinds.
  exact (Hinds i p Hi Hp Hc).
Qed.



(** X7.  A center in the half plane [phi = 0] ([y = 0] and [x >= 0], the z
    axis included) always conflicts with the plane [phi0[0] = 0] when the
    coil radius is positive: [geo_setup_manual] refuses it for every plasma
    boundary with [nfp >= 1]. *)
Theorem center_at_phi0_rejected K E points Rc kwargs p :
  let nfp := s_nfp (pop (kw_plasma_boundary kwargs) (default_surf E)) in
  manual_Bn_plasma_accepted E kwargs = true ->
  (1 <= nfp)%nat -> 0 < Rc ->
  In p points -> py p = 0 -> 0 <= px p ->
  geo_setup_manual K E points Rc kwargs = inl (ValueError msg_plane).
Proof.
  intros nfp Hshape Hnfp HR Hp Hy Hx.
  apply (geo_setup_manual_plane_conflict K E points Rc kwargs 0 p);
    [exact Hshape | fold nfp; lia | exact Hp |].
  fold nfp. unfold plane_conflict. cbn [INR]. rewrite Hy.
  assert (Hphi : np.arctan2 0 (px p) = 0).
  { destruct Hx as [Hx|<-]; [now apply arctan2_pos_x_axis|].
    unfold np.arctan2.
    destruct (Rlt_dec 0 0); [lra|]. destruct (Rlt_dec 0 0); [lra|].
    reflexivity. }
  rewrite Hphi. unfold np.abs.
  replace (0 - 2 * np.pi / INR nfp * 0) with 0 by ring.
  rewrite Rabs_R0. now apply arctan2_pos_y.
Qed.

Lemma center_at_phi0_rejected_witness :
  geo_setup_manual toy_kernels toy_collaborators [(1, 0, 0); (-1, 0, 0)]
    (1 / 10) no_kwargs = inl (ValueError msg_plane).
Proof.
  apply (center_at_phi0_rejected toy_kernels toy_collaborators
           [(1, 0, 0); (-1, 0, 0)] (1 / 10) no_kwargs (1, 0, 0)).
  - apply allclose_shape_refl.
  - cbn. lia.
  - lra.
  - now left.
  - reflexivity.
  - cbn. lra.
Defined.

(** ** The geometry of a constructed object *)

Lemma finish_setup_geometry K E pre :
  let st := finish_setup K E pre in
  coil_R st = coil_R pre /\ grid_xyz st = grid_xyz pre
  /\ num_psc st = num_psc pre /\ nfp st = nfp pre.
Proof.
  destruct (fixed_attributes_inv _ _ (finish_setup_fixed K E pre))
    as (_ & HR & _ & Hg & Hn & _ & Hnfp & _).
  cbv zeta. auto.
Qed.

(** X8.  An object that a constructor returned has no center in conflict
    with a plane [phi0[i] = 2 pi i / nfp]: for every center and every
    [i < nfp], [|phi - phi0[i]| >= arctan2(R, sqrt(x^2 + y^2))]. *)
Theorem constructed_clear_of_planes K E st i p :
  constructed K E st -> (i < nfp st)%nat -> In p (grid_xyz st) ->
  np.arctan2 (coil_R st) (np.sqrt (px p ^ 2 + py p ^ 2))
  <= np.abs (np.arctan2 (py p) (px p) - 2 * np.pi / INR (nfp st) * INR i).
Proof.
  intros Hc Hi Hp. apply Rnot_lt_le.
  change (~ plane_conflict (nfp st) (coil_R st) i p).
  revert Hi Hp.
  destruct Hc as [pb coils inner outer kw st H | points Rc kw st H].
  - apply geo_setup_between_toroidal_surfaces_inv in H.
    destruct H as (g & pre & _ & -> & HR & _ & Hxyz & _ & _ & Hnfp & _ & _ & _
                   & _ & Hinds & _).
    destruct (finish_setup_geometry K E pre) as (-> & -> & _ & ->).
    rewrite HR, Hxyz, Hnfp. intros Hi Hp.
    rewrite symmetry_plane_inds_nil_iff in Hinds. now apply Hinds.
  - apply geo_setup_manual_inv in H.
    destruct H as (pre & -> & HR & _ & Hxyz & _ & _ & _ & _ & _ & _ & _ & _
                   & Hinds).
    destruct (finish_setup_geometry K E pre) as (-> & -> & _ & ->).
    rewrite HR, Hxyz. intros Hi Hp.
    rewrite symmetry_plane_inds_nil_iff in Hinds. now apply Hinds.
Qed.

(** X9.  In an object that [geo_setup_between_toroidal_surfaces] returned any
    two centers are at a distance of at least [2R]. *)
Theorem grid_centers_apart K E plasma_boundary coils_TF inner outer kwargs st
  i j :
  geo_setup_between_toroidal_surfaces K E plasma_boundary coils_TF inner outer
    kwargs = inr st ->
  (i < j)%nat -> (j < num_psc st)%nat ->
  2 * coil_R st
  <= dist (nth i (grid_xyz st) (0, 0, 0)) (nth j (grid_xyz st) (0, 0, 0)).
Proof.
  intros H Hij Hj.
  apply geo_setup_between_toroidal_surfaces_inv in H.
  destruct H as (g & pre & _ & -> & HR & _ & Hxyz & Hn & _ & _ & _ & _ & _
                 & _ & _ & Hd).
  destruct (finish_setup_geometry K E pre) as (HR' & Hxyz' & Hn' & _).
  rewrite HR', Hxyz', HR, Hxyz. rewrite Hn', Hn in Hj.
  now apply (diameter_conflict_false _ _ _ Hd).
Qed.

Lemma Reqb_true_inv x y : Reqb x y = true -> x = y.
Proof. unfold Reqb. destruct (Req_dec_T x y); [auto|discriminate]. Qed.

Lemma grid_stage_centers K E pb coils inner outer kw g :
  geo_setup_between_toroidal_surfaces_grid K E pb coils inner outer kw = inr g ->
  forall p, In p (grid_xyz g) -> p <> (0, 0, 0).
Proof.
  unfold geo_setup_between_toroidal_surfaces_grid. cbv zeta.
  destruct (negb (np.allclose_shape _ _)); [discriminate|].
  destruct (_ || _); [discriminate|].
  unfold bind.
  destruct (_setup_uniform_grid _ _ _ _ _ _ _ _) as [e|ug]; [discriminate|].
  intros H. injection H as <-. cbn [grid_xyz].
  intros p Hp ->. apply filter_In in Hp. destruct Hp as [_ Hp].
  cbn [px py pz fst snd] in Hp.
  unfold Reqb in Hp. destruct (Req_dec_T 0 0); [discriminate|lra].
Qed.

(** X10.  [geo_setup_between_toroidal_surfaces] reads a row of zeros in the
    array of the kernel as an empty cell: no center of the object that it
    returns is the origin, and [num_psc] counts the centers that are left. *)
Theorem grid_centers_not_origin K E plasma_boundary coils_TF inner outer
  kwargs st :
  geo_setup_between_toroidal_surfaces K E plasma_boundary coils_TF inner outer
    kwargs = inr st ->
  num_psc st = length (grid_xyz st)
  /\ forall p, In p (grid_xyz st) -> p <> (0, 0, 0).
Proof.
  intros H.
  apply geo_setup_between_toroidal_surfaces_inv in H.
  destruct H as (g & pre & Hg & -> & _ & _ & Hxyz & Hn & _).
  destruct (finish_setup_geometry K E pre) as (_ & -> & -> & _).
  rewrite Hxyz, Hn. split.
  - now apply geo_setup_between_toroidal_surfaces_grid_inv in Hg.
  - now apply (grid_stage_centers _ _ _ _ _ _ _ _ Hg).
Qed.

(** The grid constructor on the small instance, with coils of radius
    [poff / 2.5]. *)
Lemma toy_grid_stage poff :
  exists g,
    geo_setup_between_toroidal_surfaces_grid toy_kernels toy_collaborators
      (toy_surface 1 false) [] (toy_surface 1 false) (toy_surface 1 false)
      (grid_kwargs_poff poff) = inr g
    /\ grid_xyz g = close_points
    /\ num_psc g = 2%nat
    /\ coil_R g = poff / (25 / 10)
    /\ nfp g = 1%nat.
Proof.
  unfold geo_setup_between_toroidal_surfaces_grid. cbv zeta.
  rewrite allclose_shape_refl. cbn [negb].
  cbn [pop grid_kwargs_poff gkw_Nx gkw_Ny gkw_Nz gkw_poff Z.leb Z.compare orb].
  unfold _setup_uniform_grid. cbv zeta.
  cbn [toy_collaborators ext.to_RZFourier toy_surface s_nfp Nat.ltb Nat.leb
       Nat.eqb bind ret].
  assert (Hf : filter
                 (fun p => negb (Reqb (px p) 0 && Reqb (py p) 0 && Reqb (pz p) 0))
                 close_points = close_points).
  { unfold close_points. cbn [filter px py pz fst snd].
    rewrite (Reqb_false (-1) 0) by lra. reflexivity. }
  eexists. split; [reflexivity|].
  cbn [grid_xyz num_psc coil_R nfp ug_R toy_kernels
       sopp.define_a_uniform_cartesian_grid_between_two_toroidal_surfaces].
  fold close_points. rewrite Hf. repeat split.
Qed.

Lemma toy_grid_object :
  exists st,
    geo_setup_between_toroidal_surfaces toy_kernels toy_collaborators
      (toy_surface 1 false) [] (toy_surface 1 false) (toy_surface 1 false)
      (grid_kwargs_poff (1 / 100)) = inr st.
Proof.
  destruct (toy_grid_stage (1 / 100)) as (g & Hg & Hxyz & Hn & HR & Hnfp).
  unfold geo_setup_between_toroidal_surfaces. rewrite Hg. unfold bind.
  cbv zeta.
  destruct (initial_orientation _ _ _ _) as [[al de] cn].
  cbn [nfp coil_R grid_xyz num_psc set_angles set_field].
  rewrite Hxyz, Hn, HR, Hnfp, close_points_no_plane_conflict.
  cbn [length Nat.ltb Nat.leb].
  assert (Hd : diameter_conflict (1 / 100 / (25 / 10)) 2 close_points = false).
  { unfold diameter_conflict.
    cbn [seq existsb Nat.add Nat.sub orb].
    rewrite dist_close_points. rewrite Rltb_false by lra. reflexivity. }
  rewrite Hd. eexists. reflexivity.
Qed.

Lemma constructed_clear_of_planes_witness :
  exists st,
    geo_setup_manual toy_kernels toy_collaborators close_points (1 / 10)
      no_kwargs = inr st
    /\ np.arctan2 (coil_R st) (np.sqrt ((-1) ^ 2 + 0 ^ 2))
       <= np.abs (np.arctan2 0 (-1) - 2 * np.pi / INR (nfp st) * INR 0).
Proof.
  destruct (toy_manual_returns (1 / 10) None (close_points_no_plane_conflict _))
    as [st H].
  exists st. split; [exact H|].
  pose proof (geo_setup_manual_inv _ _ _ _ _ _ H)
    as (pre & Hst & _ & _ & Hxyz & _ & _ & Hpb & Hnfp & _).
  destruct (finish_setup_geometry toy_kernels toy_collaborators pre)
    as (_ & Hxyz' & _ & Hnfp').
  rewrite <- Hst in Hxyz', Hnfp'.
  apply (constructed_clear_of_planes toy_kernels toy_collaborators st 0
           (-1, 0, 0)).
  - exact (constructed_manual _ _ _ _ _ _ H).
  - rewrite Hnfp', Hnfp, Hpb. cbn. lia.
  - rewrite Hxyz', Hxyz. now left.
Defined.

Lemma grid_centers_apart_witness :
  exists st,
    geo_setup_between_toroidal_surfaces toy_kernels toy_collaborators
      (toy_surface 1 false) [] (toy_surface 1 false) (toy_surface 1 false)
      (grid_kwargs_poff (1 / 100)) = inr st
    /\ 2 * coil_R st
       <= dist (nth 0 (grid_xyz st) (0, 0, 0)) (nth 1 (grid_xyz st) (0, 0, 0)).
Proof.
  destruct toy_grid_object as [st H]. exists st. split; [exact H|].
  apply (grid_centers_apart _ _ _ _ _ _ _ st 0 1 H); [lia|].
  pose proof (geo_setup_between_toroidal_surfaces_inv _ _ _ _ _ _ _ _ H)
    as (g & pre & Hg & Hst & _ & _ & _ & Hn & _).
  destruct (toy_grid_stage (1 / 100)) as (g' & Hg' & _ & Hn' & _).
  rewrite Hg in Hg'. injection Hg' as <-.
  destruct (finish_setup_geometry toy_kernels toy_collaborators pre)
    as (_ & _ & Hn'' & _).
  rewrite Hst, Hn'', Hn, Hn'. lia.
Defined.

Lemma grid_centers_not_origin_witness :
  exists st,
    geo_setup_between_toroidal_surfaces toy_kernels toy_collaborators
      (toy_surface 1 false) [] (toy_surface 1 false) (toy_surface 1 false)
      (grid_kwargs_poff (1 / 100)) = inr st
    /\ num_psc st = length (grid_xyz st).
Proof.
  destruct toy_grid_object as [st H]. exists st. split; [exact H|].
  exact (proj1 (grid_centers_not_origin _ _ _ _ _ _ _ st H)).
Defined.

(** * Further properties of the methods *)

(** ** What a call recomputes from *)

Lemma static_recompute K E st kappas :
  static (recompute K E st kappas) = static st.
Proof.
  unfold static, recompute.
  rewrite setup_currents_and_fields_fixed, update_psi_fixed,
    setup_orientations_fixed.
  destruct (setup_orientations_keeps K st (firstn (num_psc st) kappas)
              (skipn (num_psc st) kappas)) as (_ & _ & _ & Hg & Hgn & _ & Hb).
  cbn [grid_xyz_all grid_xyz_all_normalized b_opt setup_currents_and_fields
       update_psi set_currents set_flux].
  now rewrite Hg, Hgn, Hb.
Qed.

Lemma least_squares_recompute K E st kappas :
  let st3 := recompute K E st kappas in
  let Ax_b :=
    np.vmul (np.vadd (Bn_PSC (currents st3)) (b_opt st3))
            (grid_normalization st3) in
  let BdotN2 := np.dot (np.vscale (5 / 10) Ax_b) Ax_b * fac2_norm st3 in
  least_squares K E st kappas
  = (BdotN2, set_BdotN2_list (BdotN2_list st3 ++ [BdotN2]) st3).
Proof. reflexivity. Qed.

Lemma static_set_BdotN2_list h st : static (set_BdotN2_list h st) = static st.
Proof. reflexivity. Qed.

Lemma derived_set_BdotN2_list h st : derived (set_BdotN2_list h st) = derived st.
Proof. reflexivity. Qed.

Lemma least_squares_state K E st kappas :
  static (snd (least_squares K E st kappas)) = static st
  /\ derived (snd (least_squares K E st kappas))
     = derived (recompute K E st kappas).
Proof.
  rewrite least_squares_recompute. cbn [snd].
  rewrite static_set_BdotN2_list, derived_set_BdotN2_list, static_recompute.
  now split.
Qed.

Lemma least_squares_jacobian_state K E st kappas :
  snd (least_squares_jacobian K E st kappas) = recompute K E st kappas.
Proof. reflexivity. Qed.

Lemma run_static K E st st' : run K E st st' -> static st' = static st.
Proof.
  induction 1 as [st | st st' kappas _ IH | st st' kappas _ IH].
  - reflexivity.
  - destruct (least_squares_state K E st' kappas) as [-> _]. exact IH.
  - rewrite least_squares_jacobian_state, static_recompute. exact IH.
Qed.

(** [update_alphas_deltas] assigns the seven arrays of the kernel and nothing
    else. *)
Lemma update_alphas_deltas_eq K st :
  update_alphas_deltas K st
  = set_expanded (expanded (update_alphas_deltas K st)) st.
Proof. unfold update_alphas_deltas. case_xsimd. reflexivity. Qed.

Lemma expanded_update_alphas_deltas K st st' :
  coil_normals st = coil_normals st' -> nfp st = nfp st' ->
  stellsym st = stellsym st' ->
  expanded (update_alphas_deltas K st) = expanded (update_alphas_deltas K st').
Proof.
  intros Hc Hn Hs. unfold update_alphas_deltas. rewrite Hc, Hn, Hs.
  case_xsimd. reflexivity.
Qed.

Ltac expose_static :=
  unfold static, fixed_attributes;
  cbn [mu0 fac quad_points_phi quad_weights quad_points_rho coil_R coil_a
       grid_xyz num_psc plasma_boundary nfp stellsym symmetry stell_list nphi
       ntheta plasma_unitnormals plasma_points grid_normalization Bn_plasma
       plasma_boundary_full coils_TF B_TF normalization fac2_norm ugrid
       grid_xyz_all grid_xyz_all_normalized b_opt].

(** Two objects with the same static attributes differ in the attributes that
    the methods assign, at most. *)
Lemma static_eq_rebuild st st' :
  static st = static st' ->
  st' = set_kappas (kappas st')
          (set_BdotN2_list (BdotN2_list st')
             (set_currents (currents st')
                (set_flux (flux st')
                   (set_L (L st')
                      (set_expanded (expanded st')
                         (set_angles (alphas st') (deltas st')
                            (coil_normals st') st)))))).
Proof.
  destruct st, st'. expose_static.
  intros H. injection H. intros. subst. reflexivity.
Qed.

Lemma setup_orientations_rebuild K st al' de' cn' e' l' f c h k al de :
  setup_orientations K
    (set_kappas k
       (set_BdotN2_list h
          (set_currents c
             (set_flux f
                (set_L l' (set_expanded e' (set_angles al' de' cn' st)))))))
    al de
  = set_kappas k
      (set_BdotN2_list h
         (set_currents c (set_flux f (setup_orientations K st al de)))).
Proof.
  unfold setup_orientations. cbv zeta.
  set (cn := flip_negative_zeros (normals_of_angles al de)).
  match goal with
  | |- context [update_alphas_deltas K (set_angles al de cn ?s)] =>
      rewrite (update_alphas_deltas_eq K (set_angles al de cn s));
      rewrite (expanded_update_alphas_deltas K (set_angles al de cn s)
                 (set_angles al de cn st)) by reflexivity
  end.
  rewrite (update_alphas_deltas_eq K (set_angles al de cn st)).
  generalize (expanded (update_alphas_deltas K (set_angles al de cn st))).
  intros e. reflexivity.
Qed.

Lemma update_psi_rebuild K st f c h k :
  update_psi K (set_kappas k (set_BdotN2_list h (set_currents c (set_flux f st))))
  = set_kappas k (set_BdotN2_list h (set_currents c (update_psi K st))).
Proof. reflexivity. Qed.

Lemma setup_currents_and_fields_rebuild K E st c h k :
  setup_currents_and_fields K E (set_kappas k (set_BdotN2_list h (set_currents c st)))
  = set_kappas k (set_BdotN2_list h (setup_currents_and_fields K E st)).
Proof. reflexivity. Qed.

(** A call on an object with the same static attributes leaves the same
    object, up to the history of losses and the attribute [kappas], which the
    call does not read. *)
Lemma recompute_static K E st st' x :
  static st = static st' ->
  recompute K E st' x
  = set_kappas (kappas st')
      (set_BdotN2_list (BdotN2_list st') (recompute K E st x)).
Proof.
  intros H.
  assert (Hn : num_psc st' = num_psc st).
  { apply (f_equal (fun t => fst (fst (fst t)))) in H.
    symmetry in H. apply fixed_attributes_inv in H. apply H. }
  unfold recompute. rewrite Hn.
  rewrite (static_eq_rebuild st st' H) at 1.
  now rewrite setup_orientations_rebuild, update_psi_rebuild,
    setup_currents_and_fields_rebuild.
Qed.

(** The recomputed attributes depend on the object through the static ones
    only. *)
Lemma recompute_depends K E st st' kappas :
  static st = static st' ->
  derived (recompute K E st kappas) = derived (recompute K E st' kappas).
Proof. intros H. now rewrite (recompute_static K E st st' kappas H). Qed.

Lemma least_squares_depends K E st st' kappas :
  static st = static st' ->
  fst (least_squares K E st kappas) = fst (least_squares K E st' kappas).
Proof.
  intros H. rewrite !least_squares_recompute. cbn [fst].
  rewrite (recompute_static K E st st' kappas H).
  generalize (recompute K E st kappas). intros s. reflexivity.
Qed.

Lemma least_squares_jacobian_depends K E st st' kappas :
  static st = static st' ->
  fst (least_squares_jacobian K E st kappas)
  = fst (least_squares_jacobian K E st' kappas).
Proof.
  intros H. unfold least_squares_jacobian. cbv zeta. cbn [fst].
  fold (recompute K E st kappas). fold (recompute K E st' kappas).
  rewrite (recompute_static K E st st' kappas H).
  generalize (recompute K E st kappas). intros s. reflexivity.
Qed.

(** X11.  No hidden state: after any calls of [least_squares] and
    [least_squares_jacobian] on an object, the loss and the gradient that the
    next call returns for a [kappas], and the attributes that it recomputes,
    are the ones that the first call on the object would have returned. *)
Theorem objective_has_no_hidden_state K E st st' kappas :
  run K E st st' ->
  fst (least_squares K E st' kappas) = fst (least_squares K E st kappas)
  /\ fst (least_squares_jacobian K E st' kappas)
     = fst (least_squares_jacobian K E st kappas)
  /\ derived (snd (least_squares K E st' kappas))
     = derived (snd (least_squares K E st kappas))
  /\ derived (snd (least_squares_jacobian K E st' kappas))
     = derived (snd (least_squares_jacobian K E st kappas)).
Proof.
  intros Hrun. apply run_static in Hrun.
  split; [now apply least_squares_depends|].
  split; [now apply least_squares_jacobian_depends|].
  destruct (least_squares_state K E st' kappas) as [_ ->].
  destruct (least_squares_state K E st kappas) as [_ ->].
  rewrite !least_squares_jacobian_state.
  split; now apply recompute_depends.
Qed.

Lemma objective_has_no_hidden_state_witness :
  let st' :=
    snd (least_squares toy_kernels toy_collaborators
           (snd (least_squares_jacobian toy_kernels toy_collaborators toy_state
                   [1; 2]))
           [3; 4]) in
  fst (least_squares toy_kernels toy_collaborators st' [0; 0])
  = fst (least_squares toy_kernels toy_collaborators toy_state [0; 0]).
Proof.
  apply (objective_has_no_hidden_state toy_kernels toy_collaborators toy_state).
  apply run_least_squares, run_jacobian, run_start.
Defined.

(** ** The end of the constructors *)

Lemma setup_full_grid_keeps K st :
  alphas (setup_full_grid K st) = alphas st
  /\ deltas (setup_full_grid K st) = deltas st
  /\ coil_normals (setup_full_grid K st) = coil_normals st
  /\ BdotN2_list (setup_full_grid K st) = BdotN2_list st.
Proof.
  unfold setup_full_grid. cbv zeta.
  match goal with
  | |- context [update_alphas_deltas K ?s] =>
      destruct (update_alphas_deltas_keeps K s) as (Ha & Hd & Hc & _ & _ & Hh & _)
  end.
  rewrite Ha, Hd, Hc, Hh. repeat split.
Qed.

Lemma finish_setup_angles K E pre :
  let st := finish_setup K E pre in
  alphas st = alphas pre /\ deltas st = deltas pre
  /\ coil_normals st
     = flip_negative_zeros (normals_of_angles (alphas pre) (deltas pre))
  /\ kappas st = alphas pre ++ deltas pre
  /\ BdotN2_list st = BdotN2_list pre
  /\ grid_xyz_all st = grid_xyz_all (setup_full_grid K pre).
Proof.
  cbv zeta. unfold finish_setup. cbv zeta.
  destruct (setup_full_grid_keeps K pre) as (Ha0 & Hd0 & _ & Hh0).
  set (st1 := setup_full_grid K pre) in *.
  destruct (setup_orientations_keeps K st1 (alphas st1) (deltas st1))
    as (Ha & Hd & Hc & Hg & _ & Hh & _).
  set (st2 := setup_orientations K st1 (alphas st1) (deltas st1)) in *.
  cbn [alphas deltas coil_normals kappas BdotN2_list grid_xyz_all set_kappas
       b_vector set_b_opt setup_currents_and_fields set_currents update_psi
       set_flux].
  rewrite Ha, Hd, Hc, Hh, Hg, Ha0, Hd0, Hh0. repeat split.
Qed.

Lemma constructed_history K E st : constructed K E st -> BdotN2_list st = [].
Proof.
  intros [pb coils inner outer kw st' H | points Rc kw st' H].
  - revert H. unfold geo_setup_between_toroidal_surfaces. unfold bind at 1.
    destruct (geo_setup_between_toroidal_surfaces_grid _ _ _ _ _ _ _)
      as [e|g] eqn:Hg; [discriminate|].
    assert (Hh : BdotN2_list g = []).
    { revert Hg. unfold geo_setup_between_toroidal_surfaces_grid. cbv zeta.
      destruct (negb (np.allclose_shape _ _)); [discriminate|].
      destruct (_ || _); [discriminate|].
      unfold bind.
      destruct (_setup_uniform_grid _ _ _ _ _ _ _ _); [discriminate|].
      intros H. injection H as <-. reflexivity. }
    cbv zeta.
    destruct (initial_orientation _ _ _ _) as [[al de] cn].
    destruct (Nat.ltb 0 _); [discriminate|].
    destruct (diameter_conflict _ _ _); [discriminate|].
    intros H. injection H as <-.
    match goal with
    | |- BdotN2_list (finish_setup K E ?pre) = _ =>
        destruct (finish_setup_angles K E pre) as (_ & _ & _ & _ & -> & _)
    end.
    exact Hh.
  - revert H. unfold geo_setup_manual. cbv zeta.
    destruct (negb (np.allclose_shape _ _)); [discriminate|].
    destruct (Nat.ltb 0 _); [discriminate|].
    intros H. injection H as <-.
    match goal with
    | |- BdotN2_list (finish_setup K E ?pre) = _ =>
        destruct (finish_setup_angles K E pre) as (_ & _ & _ & _ & -> & _)
    end.
    reflexivity.
Qed.

(** ** The history of the loss *)

Lemma least_squares_history K E st kappas :
  BdotN2_list (snd (least_squares K E st kappas))
  = BdotN2_list st ++ [fst (least_squares K E st kappas)].
Proof.
  destruct (least_squares_state_attrs K E st (firstn (num_psc st) kappas)
              (skipn (num_psc st) kappas)) as (_ & Hh & _).
  pose proof (least_squares_steps K E st kappas) as Hls. cbv zeta in Hls.
  rewrite Hls. cbn [fst snd BdotN2_list set_BdotN2_list]. now rewrite Hh.
Qed.

Lemma least_squares_jacobian_history K E st kappas :
  BdotN2_list (snd (least_squares_jacobian K E st kappas)) = BdotN2_list st.
Proof.
  rewrite least_squares_jacobian_state. unfold recompute.
  now destruct (least_squares_state_attrs K E st (firstn (num_psc st) kappas)
                  (skipn (num_psc st) kappas)) as (_ & -> & _).
Qed.

Lemma least_squares_nonneg_of_pos K E st kappas :
  0 < fac2_norm st -> 0 <= fst (least_squares K E st kappas).
Proof.
  intros Hpos.
  pose proof (least_squares_steps K E st kappas) as Hls. cbv zeta in Hls.
  destruct (least_squares_state_attrs K E st (firstn (num_psc st) kappas)
              (skipn (num_psc st) kappas)) as (_ & _ & _ & Hf2 & _).
  rewrite Hls. cbn [fst]. rewrite Hf2, dot_vscale_l.
  match goal with |- 0 <= 5 / 10 * np.dot ?v ?v * _ =>
    pose proof (dot_self_nonneg v) end.
  nra.
Qed.

(** X12.  The history [BdotN2_list] is empty on an object that a constructor
    returned; [least_squares] appends the loss that it returns and
    [least_squares_jacobian] appends nothing; so that after any calls, on a
    plasma boundary with a positive area and a field on axis that is not zero,
    the history extends the one before the calls and holds non-negative
    losses only. *)
Theorem history_of_losses K E st0 st :
  constructed K E st0 -> run K E st0 st ->
  B_axis E st0 <> 0 -> 0 < s_area (plasma_boundary st0) ->
  BdotN2_list st0 = []
  /\ Forall (fun v => 0 <= v) (BdotN2_list st)
  /\ (forall kappas,
         BdotN2_list (snd (least_squares K E st kappas))
         = BdotN2_list st ++ [fst (least_squares K E st kappas)])
  /\ (forall kappas,
         BdotN2_list (snd (least_squares_jacobian K E st kappas))
         = BdotN2_list st).
Proof.
  intros Hc Hrun HB Harea.
  pose proof (constructed_history K E st0 Hc) as H0.
  apply constructed_normalized in Hc.
  split; [exact H0|]. split; [|split].
  - induction Hrun as [st | st st' kappas Hrun IH | st st' kappas Hrun IH].
    + rewrite H0. constructor.
    + rewrite least_squares_history. apply Forall_app. split; [now apply IH|].
      constructor; [|constructor].
      apply least_squares_nonneg_of_pos.
      destruct (run_normalized K E st st' Hrun Hc) as (Hn & HB' & Hpb).
      apply (fac2_norm_pos E st' Hn); [now rewrite HB'|now rewrite Hpb].
    + rewrite least_squares_jacobian_history. now apply IH.
  - intros kappas. apply least_squares_history.
  - intros kappas. apply least_squares_jacobian_history.
Qed.

Lemma history_of_losses_witness :
  exists st,
    geo_setup_manual toy_kernels toy_collaborators close_points (1 / 10)
      no_kwargs = inr st
    /\ Forall (fun v => 0 <= v)
         (BdotN2_list
            (snd (least_squares toy_kernels toy_collaborators st [0; 0; 0; 0]))).
Proof.
  destruct (toy_manual_returns (1 / 10) None (close_points_no_plane_conflict _))
    as [st H].
  exists st. split; [exact H|].
  pose proof (geo_setup_manual_inv _ _ _ _ _ _ H)
    as (pre & Hst & _ & _ & _ & _ & _ & Hpb & _).
  assert (Hpb' : plasma_boundary st = toy_surface 1 false).
  { destruct (fixed_attributes_inv _ _
                (finish_setup_fixed toy_kernels toy_collaborators pre))
      as (_ & _ & _ & _ & _ & Hp & _).
    rewrite Hst, Hp, Hpb. reflexivity. }
  apply (history_of_losses toy_kernels toy_collaborators st).
  - exact (constructed_manual _ _ _ _ _ _ H).
  - apply run_least_squares, run_start.
  - unfold B_axis. cbn. lra.
  - rewrite Hpb'. cbn. lra.
Defined.

(** ** The angles enter through the normals *)

Lemma firstn_map2 {A B C} (f : A -> B -> C) n u v :
  firstn n (np.map2 f u v) = np.map2 f (firstn n u) (firstn n v).
Proof.
  revert u v. induction n as [|n IH]; intros [|x u] [|y v]; try reflexivity.
  rewrite map2_cons. cbn [firstn]. rewrite map2_cons. f_equal. apply IH.
Qed.

Lemma skipn_map2 {A B C} (f : A -> B -> C) n u v :
  skipn n (np.map2 f u v) = np.map2 f (skipn n u) (skipn n v).
Proof.
  revert u v. induction n as [|n IH]; intros [|x u] [|y v]; try reflexivity.
  - cbn [skipn]. unfold np.map2. now destruct (skipn n u).
  - rewrite map2_cons. cbn [skipn]. apply IH.
Qed.

Lemma map_map2_invariant {A B C} (g : A -> C) (f : A -> B -> A) u v :
  length u = length v -> (forall x k, g (f x k) = g x) ->
  map g (np.map2 f u v) = map g u.
Proof.
  intros Hl Hg. revert v Hl.
  induction u as [|x u IH]; intros [|y v] Hl; try discriminate; [reflexivity|].
  rewrite map2_cons. cbn [map]. rewrite Hg. f_equal. apply IH.
  simpl in Hl. lia.
Qed.

Lemma setup_orientations_depends_normals K st al de al' de' :
  normals_of_angles al' de' = normals_of_angles al de ->
  setup_orientations K st al' de'
  = set_angles al' de' (coil_normals (setup_orientations K st al de))
      (setup_orientations K st al de).
Proof.
  intros H. unfold setup_orientations. cbv zeta. rewrite H.
  set (cn := flip_negative_zeros (normals_of_angles al de)).
  rewrite (update_alphas_deltas_eq K (set_angles al' de' cn st)).
  rewrite (expanded_update_alphas_deltas K (set_angles al' de' cn st)
             (set_angles al de cn st)) by reflexivity.
  rewrite (update_alphas_deltas_eq K (set_angles al de cn st)).
  generalize (expanded (update_alphas_deltas K (set_angles al de cn st))).
  intros e. reflexivity.
Qed.

Lemma recompute_depends_normals K E st x x' :
  normals_of_angles (firstn (num_psc st) x') (skipn (num_psc st) x')
  = normals_of_angles (firstn (num_psc st) x) (skipn (num_psc st) x) ->
  recompute K E st x'
  = set_angles (firstn (num_psc st) x') (skipn (num_psc st) x')
      (coil_normals (recompute K E st x)) (recompute K E st x).
Proof.
  intros H. unfold recompute.
  rewrite (setup_orientations_depends_normals K st _ _ _ _ H).
  generalize (setup_orientations K st (firstn (num_psc st) x)
                (skipn (num_psc st) x)).
  intros s. reflexivity.
Qed.

Lemma least_squares_depends_normals K E st x x' :
  normals_of_angles (firstn (num_psc st) x') (skipn (num_psc st) x')
  = normals_of_angles (firstn (num_psc st) x) (skipn (num_psc st) x) ->
  fst (least_squares K E st x') = fst (least_squares K E st x)
  /\ fst (least_squares_jacobian K E st x')
     = fst (least_squares_jacobian K E st x)
  /\ coil_normals (recompute K E st x')
     = coil_normals (recompute K E st x)
  /\ L (recompute K E st x') = L (recompute K E st x).
Proof.
  intros H. pose proof (recompute_depends_normals K E st x x' H) as Hr.
  rewrite !least_squares_recompute.
  unfold least_squares_jacobian. cbv zeta. cbn [fst].
  fold (recompute K E st x). fold (recompute K E st x').
  rewrite Hr. generalize (recompute K E st x). intros s. repeat split.
Qed.

Lemma normals_of_angles_periodic al de ka kd :
  length ka = length al -> length kd = length de ->
  normals_of_angles (np.map2 (fun x (k : nat) => x + 2 * INR k * PI) al ka)
                    (np.map2 (fun x (k : nat) => x + 2 * INR k * PI) de kd)
  = normals_of_angles al de.
Proof.
  intros Ha Hd. unfold normals_of_angles.
  rewrite !(map_map2_invariant np.cos), !(map_map2_invariant np.sin);
    try (symmetry; assumption); try reflexivity.
  all: intros x k; first [apply sin_period | apply cos_period].
Qed.

(** X13.  The loss and the gradient are periodic in every angle: adding a
    multiple of [2 pi] to each entry of [kappas] changes neither of them, nor
    the normals and the inductance matrix that the call stores. *)
Theorem loss_periodic K E st kappas ks :
  length ks = length kappas ->
  let kappas' := np.map2 (fun x (k : nat) => x + 2 * INR k * PI) kappas ks in
  fst (least_squares K E st kappas') = fst (least_squares K E st kappas)
  /\ fst (least_squares_jacobian K E st kappas')
     = fst (least_squares_jacobian K E st kappas)
  /\ coil_normals (recompute K E st kappas')
     = coil_normals (recompute K E st kappas)
  /\ L (recompute K E st kappas') = L (recompute K E st kappas).
Proof.
  intros Hl kappas'. apply least_squares_depends_normals.
  unfold kappas'. rewrite firstn_map2, skipn_map2.
  apply normals_of_angles_periodic.
  - rewrite !length_firstn. lia.
  - rewrite !length_skipn. lia.
Qed.

Lemma loss_periodic_witness :
  fst (least_squares toy_kernels toy_collaborators toy_state
         (np.map2 (fun x (k : nat) => x + 2 * INR k * PI) [1; 2] [3; 0]%nat))
  = fst (least_squares toy_kernels toy_collaborators toy_state [1; 2]).
Proof.
  exact (proj1 (loss_periodic toy_kernels toy_collaborators toy_state [1; 2]
                  [3; 0]%nat eq_refl)).
Defined.

(** ** The stored normals *)

Lemma flip_negative_zero_cases x :
  flip_negative_zero x = x \/ (flip_negative_zero x = - x /\ - np.atol <= x < 0).
Proof.
  destruct (Rlt_dec x 0) as [Hneg|Hpos].
  - destruct (Rle_dec (- np.atol) x) as [Hs|Hs].
    + right. split; [now apply flip_negative_zero_small|lra].
    + left. apply flip_negative_zero_other. lra.
  - left. apply flip_negative_zero_other. lra.
Qed.

(** The sign fix keeps the magnitude of a component, leaves no component
    in [[-1e-8, 0)], and changes nothing when it is applied again. *)
Lemma flip_negative_zero_fix x :
  let y := flip_negative_zero x in
  Rabs y = Rabs x
  /\ ~ (- (1 / 10 ^ 8) <= y < 0)
  /\ flip_negative_zero y = y.
Proof.
  cbv zeta. pose proof atol_pos as Hat.
  assert (Hcase : 0 <= x \/ x < - np.atol \/ - np.atol <= x < 0) by lra.
  destruct Hcase as [H|[H|H]].
  - rewrite (flip_negative_zero_other x) by now left.
    split; [reflexivity|]. split; [lra|].
    apply flip_negative_zero_other. now left.
  - rewrite (flip_negative_zero_other x) by now right.
    split; [reflexivity|]. split; [unfold np.atol in H; lra|].
    apply flip_negative_zero_other. now right.
  - rewrite (flip_negative_zero_small x) by apply H.
    split; [apply Rabs_Ropp|]. split; [lra|].
    apply flip_negative_zero_other. left. lra.
Qed.

Lemma flip_negative_zero_sq x : flip_negative_zero x ^ 2 = x ^ 2.
Proof.
  destruct (flip_negative_zero_cases x) as [-> | [-> _]]; ring.
Qed.

Lemma unit_of_angles a d :
  (np.cos a * np.sin d) ^ 2 + (- np.sin a) ^ 2 + (np.cos a * np.cos d) ^ 2 = 1.
Proof.
  unfold np.cos, np.sin.
  pose proof (sin2_cos2 a) as Ha. pose proof (sin2_cos2 d) as Hd.
  unfold Rsqr in Ha, Hd.
  replace ((cos a * sin d) ^ 2 + (- sin a) ^ 2 + (cos a * cos d) ^ 2)
    with (cos a * cos a * (sin d * sin d + cos d * cos d) + sin a * sin a)
    by ring.
  rewrite Hd. lra.
Qed.

(** X14.  For all angles passed to [setup_orientations], every stored normal
    is a unit vector, and none of its components lies in [[-1e-8, 0)]. *)
Theorem stored_normals_unit K st alphas deltas n :
  In n (coil_normals (setup_orientations K st alphas deltas)) ->
  px n ^ 2 + py n ^ 2 + pz n ^ 2 = 1
  /\ ~ (- (1 / 10 ^ 8) <= px n < 0)
  /\ ~ (- (1 / 10 ^ 8) <= py n < 0)
  /\ ~ (- (1 / 10 ^ 8) <= pz n < 0).
Proof.
  intros Hn.
  destruct (In_nth _ _ (0, 0, 0) Hn) as (i & Hi & Hnth).
  destruct (setup_orientations_keeps K st alphas deltas) as (_ & _ & Hc & _).
  rewrite Hc in Hi. unfold flip_negative_zeros in Hi.
  rewrite length_map, length_normals_of_angles in Hi.
  rewrite nth_coil_normals_setup_orientations in Hnth by lia.
  subst n. cbn [px py pz fst snd].
  rewrite !flip_negative_zero_sq. split; [apply unit_of_angles|].
  repeat split; apply flip_negative_zero_fix.
Qed.

Lemma stored_normals_unit_witness :
  let n := nth 0 (coil_normals (setup_orientations toy_kernels toy_state [1] [2]))
               (0, 0, 0) in
  px n ^ 2 + py n ^ 2 + pz n ^ 2 = 1.
Proof.
  apply (stored_normals_unit toy_kernels toy_state [1] [2]).
  apply nth_In.
  destruct (setup_orientations_keeps toy_kernels toy_state [1] [2])
    as (_ & _ & -> & _).
  unfold flip_negative_zeros.
  rewrite length_map, length_normals_of_angles. cbn. lia.
Defined.

(** ** The initial orientation *)

Lemma normals_of_angles_cons a al d de :
  normals_of_angles (a :: al) (d :: de)
  = (np.cos a * np.sin d, - np.sin a, np.cos a * np.cos d)
    :: normals_of_angles al de.
Proof. reflexivity. Qed.

Lemma normals_of_angles_map {A} (f g : A -> R) l :
  normals_of_angles (map f l) (map g l)
  = map (fun n => (np.cos (f n) * np.sin (g n), - np.sin (f n),
                   np.cos (f n) * np.cos (g n))) l.
Proof.
  induction l as [|x l IH]; [reflexivity|].
  cbn [map]. rewrite normals_of_angles_cons. f_equal. exact IH.
Qed.

Lemma sqrt_one_plus_sq y x :
  x <> 0 -> sqrt (1 + (y / x)²) = sqrt (x ^ 2 + y ^ 2) / Rabs x.
Proof.
  intros Hx.
  assert (Hx2 : 0 < x ^ 2) by (destruct (Rdichotomy _ _ Hx); nra).
  replace (1 + (y / x)²) with ((x ^ 2 + y ^ 2) / x ^ 2)
    by (unfold Rsqr; field; assumption).
  rewrite sqrt_div_alt by assumption.
  f_equal. replace (x ^ 2) with (Rsqr x) by (unfold Rsqr; ring).
  apply sqrt_Rsqr_abs.
Qed.

(** The sine and cosine of [np.arctan2(y, x)] away from the origin. *)
Lemma arctan2_polar y x :
  0 < sqrt (x ^ 2 + y ^ 2) ->
  sin (np.arctan2 y x) = y / sqrt (x ^ 2 + y ^ 2)
  /\ cos (np.arctan2 y x) = x / sqrt (x ^ 2 + y ^ 2).
Proof.
  intros Hr. set (r := sqrt (x ^ 2 + y ^ 2)) in *.
  unfold np.arctan2.
  destruct (Rlt_dec 0 x) as [Hx|Hx].
  - rewrite sin_atan, cos_atan, sqrt_one_plus_sq by lra. fold r.
    rewrite Rabs_right by lra. split; field; lra.
  - destruct (Rlt_dec x 0) as [Hx'|Hx'].
    + assert (Hs : sin (atan (y / x)) = - y / r).
      { rewrite sin_atan, sqrt_one_plus_sq by lra. fold r.
        rewrite Rabs_left by lra. field; lra. }
      assert (Hc : cos (atan (y / x)) = - x / r).
      { rewrite cos_atan, sqrt_one_plus_sq by lra. fold r.
        rewrite Rabs_left by lra. field; lra. }
      destruct (Rle_dec 0 y).
      * rewrite neg_sin, neg_cos, Hs, Hc. split; field; lra.
      * rewrite sin_minus, cos_minus, sin_PI, cos_PI, Hs, Hc.
        split; field; lra.
    + assert (x = 0) by lra. subst x.
      assert (Hry : r = Rabs y).
      { unfold r. replace (0 ^ 2 + y ^ 2) with (Rsqr y) by (unfold Rsqr; ring).
        apply sqrt_Rsqr_abs. }
      destruct (Rlt_dec 0 y) as [Hy|Hy].
      * rewrite sin_PI2, cos_PI2, Hry, Rabs_right by lra. split; field; lra.
      * destruct (Rlt_dec y 0) as [Hy'|Hy'].
        -- rewrite sin_neg, cos_neg, sin_PI2, cos_PI2, Hry, Rabs_left by lra.
           split; field; lra.
        -- exfalso. assert (y = 0) by lra. subst y.
           rewrite Hry, Rabs_R0 in Hr. lra.
Qed.

(** The angles that the constructor recovers from a unit normal give the
    normal back. *)
Lemma angles_of_unit_normal n :
  px n ^ 2 + py n ^ 2 + pz n ^ 2 = 1 ->
  let al := - np.arcsin (py n) in
  let de := np.arctan2 (px n) (pz n) in
  (np.cos al * np.sin de, - np.sin al, np.cos al * np.cos de) = n.
Proof.
  destruct n as [[x y] z]. cbn [px py pz fst snd]. intros Hu. cbv zeta.
  unfold np.cos, np.sin, np.arcsin.
  assert (Hy : -1 <= y <= 1) by (split; nra).
  rewrite cos_neg, sin_neg, cos_asin, sin_asin by assumption.
  replace (1 - y²) with (z ^ 2 + x ^ 2) by (unfold Rsqr; lra).
  assert (Hr : 0 <= z ^ 2 + x ^ 2) by nra.
  destruct (Rle_lt_or_eq_dec _ _ (sqrt_pos (z ^ 2 + x ^ 2))) as [Hpos|Hzero].
  - destruct (arctan2_polar x z Hpos) as [-> ->].
    repeat f_equal; field; lra.
  - symmetry in Hzero. apply sqrt_eq_0 in Hzero; [|assumption].
    assert (x = 0) by nra. assert (z = 0) by nra. subst x z.
    replace (0 ^ 2 + 0 ^ 2) with 0 by ring. rewrite sqrt_0.
    repeat f_equal; ring.
Qed.

Lemma uniform_grid_in_sector_witness :
  exists ug,
    _setup_uniform_grid (toy_surface 1 false) (toy_surface 1 false)
      (toy_surface 1 false) 2 2 2 1 1 = inr ug
    /\ length (xyz_uniform ug) = 8%nat.
Proof.
  assert (H : exists ug,
             _setup_uniform_grid (toy_surface 1 false) (toy_surface 1 false)
               (toy_surface 1 false) 2 2 2 1 1 = inr ug).
  { unfold _setup_uniform_grid. cbv zeta.
    cbn [Nat.ltb Nat.leb bind ret]. eexists. reflexivity. }
  destruct H as [ug H]. exists ug. split; [exact H|].
  destruct (uniform_grid_in_sector _ _ _ _ _ _ _ _ _ H) as (_ & Hlen & _).
  rewrite Hlen by lia. reflexivity.
Defined.

(** The angles of an object that [geo_setup_between_toroidal_surfaces]
    returned are those of the keyword [initialization], computed on an object
    with the centers and the plasma data of the result. *)
Lemma geo_setup_between_toroidal_surfaces_angles K E pb coils inner outer kw st :
  geo_setup_between_toroidal_surfaces K E pb coils inner outer kw = inr st ->
  exists psc pts,
    num_psc psc = num_psc st
    /\ grid_xyz psc = grid_xyz st
    /\ alphas st
       = fst (fst (initial_orientation E psc pts
                     (pop (gkw_initialization kw) "zeros"%string)))
    /\ deltas st
       = snd (fst (initial_orientation E psc pts
                     (pop (gkw_initialization kw) "zeros"%string)))
    /\ coil_normals st
       = flip_negative_zeros (normals_of_angles (alphas st) (deltas st))
    /\ kappas st = alphas st ++ deltas st.
Proof.
  unfold geo_setup_between_toroidal_surfaces. unfold bind at 1.
  destruct (geo_setup_between_toroidal_surfaces_grid _ _ _ _ _ _ _)
    as [e|g] eqn:Hg; [discriminate|].
  cbv zeta.
  match goal with
  | |- context [initial_orientation E ?p ?q ?i] =>
      set (psc := p); set (pts := q);
      destruct (initial_orientation E psc pts i) as [[al de] cn] eqn:Hio
  end.
  destruct (Nat.ltb 0 _); [discriminate|].
  destruct (diameter_conflict _ _ _); [discriminate|].
  intros H. injection H as <-.
  match goal with
  | |- context [finish_setup K E ?p] =>
      destruct (finish_setup_angles K E p) as (Ha & Hd & Hc & Hk & _);
      destruct (finish_setup_geometry K E p) as (_ & Hxyz & Hn & _)
  end.
  exists psc, pts. rewrite Hio, Ha, Hd, Hc, Hk, Hxyz, Hn.
  repeat split.
Qed.

Lemma normals_of_zeros n :
  flip_negative_zeros (normals_of_angles (np.zeros n) (np.zeros n))
  = repeat (0, 0, 1) n.
Proof.
  induction n as [|n IH]; [reflexivity|].
  unfold np.zeros in *. cbn [repeat]. rewrite normals_of_angles_cons.
  unfold flip_negative_zeros in *. cbn [map]. rewrite IH. f_equal.
  unfold np.cos, np.sin. rewrite cos_0, sin_0.
  replace (1 * 0) with 0 by ring. replace (- 0) with 0 by ring.
  replace (1 * 1) with 1 by ring.
  destruct (flip_negative_zero_cases 0) as [H0 | [_ H0]]; [|lra].
  destruct (flip_negative_zero_cases 1) as [H1 | [_ H1]]; [|lra].
  cbn [px py pz fst snd]. now rewrite H0, H1.
Qed.

(** X15.  Without the keyword [initialization], or with a value that is none
    of "random", "plasma" and "TF", the object that
    [geo_setup_between_toroidal_surfaces] returns has all angles zero, every
    coil normal equal to [(0, 0, 1)], and [kappas] the zero vector of length
    [2 * num_psc]. *)
Theorem default_initialization K E plasma_boundary coils_TF inner outer kwargs
  st :
  geo_setup_between_toroidal_surfaces K E plasma_boundary coils_TF inner outer
    kwargs = inr st ->
  pop (gkw_initialization kwargs) "zeros"%string <> "random"%string ->
  pop (gkw_initialization kwargs) "zeros"%string <> "plasma"%string ->
  pop (gkw_initialization kwargs) "zeros"%string <> "TF"%string ->
  alphas st = np.zeros (num_psc st)
  /\ deltas st = np.zeros (num_psc st)
  /\ coil_normals st = repeat (0, 0, 1) (num_psc st)
  /\ kappas st = np.zeros (2 * num_psc st).
Proof.
  intros H Hr Hp Ht.
  destruct (geo_setup_between_toroidal_surfaces_angles _ _ _ _ _ _ _ _ H)
    as (psc & pts & Hn & _ & Ha & Hd & Hc & Hk).
  unfold initial_orientation in Ha, Hd.
  apply String.eqb_neq in Hr, Hp, Ht. rewrite Hr, Hp, Ht in Ha, Hd.
  cbv zeta in Ha, Hd. cbn [fst snd] in Ha, Hd. rewrite Hn in Ha, Hd.
  rewrite Hk, Hc, Ha, Hd. repeat split.
  - apply normals_of_zeros.
  - unfold np.zeros. rewrite <- repeat_app. f_equal. lia.
Qed.

Lemma default_initialization_witness :
  exists st,
    geo_setup_between_toroidal_surfaces toy_kernels toy_collaborators
      (toy_surface 1 false) [] (toy_surface 1 false) (toy_surface 1 false)
      (grid_kwargs_poff (1 / 100)) = inr st
    /\ coil_normals st = repeat (0, 0, 1) (num_psc st).
Proof.
  destruct toy_grid_object as [st H]. exists st. split; [exact H|].
  apply (default_initialization _ _ _ _ _ _ _ st H); cbn; discriminate.
Defined.

(** X16.  With [initialization] "plasma" or "TF" the angles are recovered from
    normal vectors as [deltas = arctan2(n_x, n_z)] and
    [alphas = -arcsin(n_y)]; when those vectors have unit length, the normals
    that the angles define, [(cos(alpha) sin(delta), -sin(alpha),
    cos(alpha) cos(delta))], are the vectors themselves. *)
Theorem recovered_angles_give_normals E psc_grid B_points initialization
  alphas deltas coil_normals :
  initialization = "plasma"%string \/ initialization = "TF"%string ->
  initial_orientation E psc_grid B_points initialization
  = (alphas, deltas, coil_normals) ->
  (forall n, In n coil_normals -> px n ^ 2 + py n ^ 2 + pz n ^ 2 = 1) ->
  normals_of_angles alphas deltas = coil_normals.
Proof.
  intros Hi H Hu.
  assert (Hmap : forall cn : list point,
             (forall n, In n cn -> px n ^ 2 + py n ^ 2 + pz n ^ 2 = 1) ->
             normals_of_angles (map (fun n => - np.arcsin (py n)) cn)
                               (map (fun n => np.arctan2 (px n) (pz n)) cn)
             = cn).
  { intros cn Hcn. rewrite normals_of_angles_map.
    rewrite <- (map_id cn) at 2. apply map_ext_in.
    intros n Hn. exact (angles_of_unit_normal n (Hcn n Hn)). }
  unfold initial_orientation in H.
  destruct Hi as [-> | ->]; cbn [String.eqb Ascii.eqb Bool.eqb] in H;
    cbv zeta in H; injection H as <- <- <-; apply Hmap;
    intros n Hn; apply Hu; exact Hn.
Qed.

Lemma recovered_angles_give_normals_witness :
  normals_of_angles
    (fst (fst (initial_orientation toy_collaborators toy_state [(0, 0, 0)] "TF")))
    (snd (fst (initial_orientation toy_collaborators toy_state [(0, 0, 0)] "TF")))
  = snd (initial_orientation toy_collaborators toy_state [(0, 0, 0)] "TF").
Proof.
  apply (recovered_angles_give_normals toy_collaborators toy_state [(0, 0, 0)]
           "TF").
  - now right.
  - now destruct (initial_orientation _ _ _ _) as [[al de] cn].
  - unfold initial_orientation.
    cbn [String.eqb Ascii.eqb Bool.eqb toy_state B_TF map px py pz fst snd norm3].
    cbv zeta. cbn [snd map px py pz fst norm3].
    intros n [<- | []]. cbn [px py pz fst snd]. unfold norm3, np.sqrt.
    cbn [px py pz fst snd].
    replace (0 ^ 2 + 0 ^ 2 + 1 ^ 2) with 1 by ring. rewrite sqrt_1. field.
Defined.

(** ** A call at the stored angles *)

Lemma set_history_kappas_same st :
  set_kappas (kappas st) (set_BdotN2_list (BdotN2_list st) st) = st.
Proof. now destruct st. Qed.

Lemma setup_orientations_set_b_opt K st b k al de :
  setup_orientations K (set_kappas k (set_b_opt b st)) al de
  = set_kappas k (set_b_opt b (setup_orientations K st al de)).
Proof.
  unfold setup_orientations. cbv zeta.
  set (cn := flip_negative_zeros (normals_of_angles al de)).
  match goal with
  | |- context [update_alphas_deltas K (set_angles al de cn ?s)] =>
      rewrite (update_alphas_deltas_eq K (set_angles al de cn s));
      rewrite (expanded_update_alphas_deltas K (set_angles al de cn s)
                 (set_angles al de cn st)) by reflexivity
  end.
  rewrite (update_alphas_deltas_eq K (set_angles al de cn st)).
  generalize (expanded (update_alphas_deltas K (set_angles al de cn st))).
  intros e. reflexivity.
Qed.

Lemma recompute_set_b_opt K E st b k x :
  recompute K E (set_kappas k (set_b_opt b st)) x
  = set_kappas k (set_b_opt b (recompute K E st x)).
Proof.
  unfold recompute.
  change (num_psc (set_kappas k (set_b_opt b st))) with (num_psc st).
  rewrite setup_orientations_set_b_opt.
  generalize (setup_orientations K st (firstn (num_psc st) x)
                (skipn (num_psc st) x)).
  intros s. reflexivity.
Qed.

Lemma recompute_idempotent K E st x :
  recompute K E (recompute K E st x) x = recompute K E st x.
Proof.
  rewrite (recompute_static K E st (recompute K E st x) x)
    by (symmetry; apply static_recompute).
  apply set_history_kappas_same.
Qed.

Lemma firstn_length_app {A} (u v : list A) : firstn (length u) (u ++ v) = u.
Proof. induction u as [|x u IH]; [reflexivity|]. cbn. now rewrite IH. Qed.

Lemma skipn_length_app {A} (u v : list A) : skipn (length u) (u ++ v) = v.
Proof. induction u as [|x u IH]; [reflexivity|]. exact IH. Qed.

Lemma finish_setup_recompute K E pre :
  length (alphas pre) = num_psc pre ->
  finish_setup K E pre
  = set_kappas (alphas pre ++ deltas pre)
      (b_vector (recompute K E (setup_full_grid K pre)
                   (alphas pre ++ deltas pre))).
Proof.
  intros Hl. unfold finish_setup. cbv zeta.
  destruct (setup_full_grid_keeps K pre) as (Ha & Hd & _).
  assert (Hn : num_psc (setup_full_grid K pre) = num_psc pre).
  { destruct (fixed_attributes_inv _ _ (setup_full_grid_fixed K pre))
      as (_ & _ & _ & _ & Hn & _). exact Hn. }
  unfold recompute. rewrite Hn, <- Hl, firstn_length_app, skipn_length_app.
  rewrite Ha, Hd.
  set (st1 := setup_full_grid K pre).
  destruct (setup_orientations_keeps K st1 (alphas pre) (deltas pre))
    as (Ha2 & Hd2 & _).
  set (st2 := setup_orientations K st1 (alphas pre) (deltas pre)) in *.
  cbn [alphas deltas b_vector set_b_opt setup_currents_and_fields set_currents
       update_psi set_flux].
  now rewrite Ha2, Hd2.
Qed.

Lemma finish_setup_round_trip K E pre :
  length (alphas pre) = num_psc pre ->
  recompute K E (finish_setup K E pre) (kappas (finish_setup K E pre))
  = finish_setup K E pre.
Proof.
  intros Hl. rewrite (finish_setup_recompute K E pre Hl).
  cbn [kappas set_kappas]. unfold b_vector at 1 2. cbv zeta.
  rewrite recompute_set_b_opt, recompute_idempotent. reflexivity.
Qed.

Lemma constructed_finish_setup K E st :
  constructed K E st -> exists pre, st = finish_setup K E pre.
Proof.
  intros [pb coils inner outer kw st' H | points Rc kw st' H].
  - apply geo_setup_between_toroidal_surfaces_inv in H.
    destruct H as (g & pre & _ & -> & _). now exists pre.
  - apply geo_setup_manual_inv in H.
    destruct H as (pre & -> & _). now exists pre.
Qed.

Lemma least_squares_object K E st x :
  snd (least_squares K E st x)
  = set_BdotN2_list
      (BdotN2_list (recompute K E st x) ++ [fst (least_squares K E st x)])
      (recompute K E st x).
Proof. reflexivity. Qed.

Lemma toy_manual_angles st :
  geo_setup_manual toy_kernels toy_collaborators close_points (1 / 10)
    no_kwargs = inr st ->
  length (alphas st) = num_psc st /\ length (deltas st) = num_psc st.
Proof.
  unfold geo_setup_manual. cbv zeta.
  destruct (negb (np.allclose_shape _ _)); [discriminate|].
  destruct (Nat.ltb 0 _); [discriminate|].
  intros H. injection H as <-.
  match goal with
  | |- context [finish_setup ?K ?E ?pre] =>
      destruct (finish_setup_angles K E pre) as (-> & -> & _);
      destruct (finish_setup_geometry K E pre) as (_ & _ & -> & _)
  end.
  split; reflexivity.
Qed.

(** X17.  On an object that a constructor returned with [num_psc] angles of
    each kind, the stored [kappas] reproduce the stored state: a call of
    [least_squares_jacobian] at [kappas] leaves the object as it is, and a
    call of [least_squares] at [kappas] only appends the loss to the
    history. *)
Theorem stored_kappas_round_trip K E st :
  constructed K E st ->
  length (alphas st) = num_psc st -> length (deltas st) = num_psc st ->
  snd (least_squares_jacobian K E st (kappas st)) = st
  /\ snd (least_squares K E st (kappas st))
     = set_BdotN2_list
         (BdotN2_list st ++ [fst (least_squares K E st (kappas st))]) st.
Proof.
  intros Hc Hl _. destruct (constructed_finish_setup K E st Hc) as [pre Hst].
  assert (Hl' : length (alphas pre) = num_psc pre).
  { destruct (finish_setup_angles K E pre) as (Ha & _).
    destruct (finish_setup_geometry K E pre) as (_ & _ & Hn & _).
    rewrite <- Ha, <- Hn, <- Hst. exact Hl. }
  pose proof (finish_setup_round_trip K E pre Hl') as Hr.
  rewrite <- Hst in Hr. clear Hst Hl' pre.
  split.
  - rewrite least_squares_jacobian_state. exact Hr.
  - rewrite least_squares_object.
    generalize (fst (least_squares K E st (kappas st))). intros v.
    rewrite Hr. reflexivity.
Qed.

Lemma stored_kappas_round_trip_witness :
  exists st,
    geo_setup_manual toy_kernels toy_collaborators close_points (1 / 10)
      no_kwargs = inr st
    /\ snd (least_squares_jacobian toy_kernels toy_collaborators st (kappas st))
       = st.
Proof.
  destruct (toy_manual_returns (1 / 10) None (close_points_no_plane_conflict _))
    as [st H].
  exists st. split; [exact H|].
  apply (stored_kappas_round_trip toy_kernels toy_collaborators st).
  - exact (constructed_manual _ _ _ _ _ _ H).
  - exact (proj1 (toy_manual_angles st H)).
  - exact (proj2 (toy_manual_angles st H)).
Defined.

(** ** What the optimizer cannot move *)

(** X18.  No call of [least_squares] or [least_squares_jacobian] moves a
    coil or changes the target: after any calls the centers, the symmetrized
    centers, their number, the symmetry data, the field of the TF coils, the
    vector [b_opt] and the normalization of the loss are the ones of the
    object before the calls. *)
Theorem run_keeps_geometry K E st st' :
  run K E st st' ->
  grid_xyz st' = grid_xyz st
  /\ grid_xyz_all st' = grid_xyz_all st
  /\ grid_xyz_all_normalized st' = grid_xyz_all_normalized st
  /\ num_psc st' = num_psc st
  /\ nfp st' = nfp st /\ stellsym st' = stellsym st
  /\ B_TF st' = B_TF st
  /\ b_opt st' = b_opt st
  /\ grid_normalization st' = grid_normalization st
  /\ fac2_norm st' = fac2_norm st.
Proof.
  intros Hrun. apply run_static in Hrun.
  unfold static, fixed_attributes in Hrun. injection Hrun. intros.
  repeat split; assumption.
Qed.

Lemma run_keeps_geometry_witness :
  grid_xyz_all
    (snd (least_squares toy_kernels toy_collaborators
            (snd (least_squares_jacobian toy_kernels toy_collaborators toy_state
                    [1; 2]))
            [3; 4]))
  = grid_xyz_all toy_state.
Proof.
  exact (proj1 (proj2 (run_keeps_geometry toy_kernels toy_collaborators
                         toy_state _
                         (run_least_squares _ _ _ _ [3; 4]
                            (run_jacobian _ _ _ _ [1; 2] (run_start _ _ _)))))).
Defined.

(** ** The symmetrized grid *)

Lemma skipn_repeat_add {A} (z : A) n m : skipn n (repeat z (n + m)) = repeat z m.
Proof. induction n as [|n IH]; [reflexivity|]. exact IH. Qed.

Lemma skipn_length_app_add {A} (u v : list A) n :
  skipn (length u + n) (u ++ v) = skipn n v.
Proof. induction u as [|x u IH]; [reflexivity|]. exact IH. Qed.

(** A loop that assigns the block [q] of [nn] rows at the rows
    [nn * q .. nn * (q + 1)] of an array, for [q = k, k + 1, ...], fills the
    array block after block. *)
Lemma fold_assign_blocks {A B} nn (block : B -> list A) (z : A) :
  (forall b, length (block b) = nn) ->
  forall its k acc r,
    length acc = (nn * k)%nat ->
    fold_left (fun all it => assign_rows (nn * fst it) (block (snd it)) all)
      (combine (seq k (length its)) its)
      (acc ++ repeat z (nn * (length its + r)))
    = acc ++ flat_map block its ++ repeat z (nn * r).
Proof.
  intros Hb its. induction its as [|b its IH]; intros k acc r Hacc.
  - reflexivity.
  - cbn [length seq combine fold_left fst snd flat_map].
    assert (Hstep : assign_rows (nn * k) (block b)
                      (acc ++ repeat z (nn * (S (length its) + r)))
                    = (acc ++ block b) ++ repeat z (nn * (length its + r))).
    { unfold assign_rows. rewrite <- Hacc, firstn_length_app.
      rewrite Hb, skipn_length_app_add.
      replace (nn * (S (length its) + r))%nat
        with (nn + nn * (length its + r))%nat by lia.
      rewrite skipn_repeat_add. now rewrite <- app_assoc. }
    rewrite Hstep, (IH (S k) (acc ++ block b) r).
    + now rewrite <- !app_assoc.
    + rewrite length_app, Hb. lia.
Qed.

Lemma setup_full_grid_blocks K st :
  num_psc st = length (grid_xyz st) ->
  symmetry st = length (list_prod (seq 0 (nfp st)) (stell_list st)) ->
  grid_xyz_all (setup_full_grid K st)
  = flat_map (fun it => map (replica (nfp st) (fst it) (snd it)) (grid_xyz st))
      (list_prod (seq 0 (nfp st)) (stell_list st)).
Proof.
  intros Hn Hsym. unfold setup_full_grid. cbv zeta.
  match goal with
  | |- context [update_alphas_deltas K ?s] =>
      destruct (update_alphas_deltas_keeps K s) as (_ & _ & _ & Hg & _)
  end.
  rewrite Hg. cbn [grid_xyz_all set_full_grid].
  unfold symmetry_loop. cbv zeta. rewrite Hsym.
  set (its := list_prod (seq 0 (nfp st)) (stell_list st)).
  pose proof (fold_assign_blocks (num_psc st)
                (fun it : nat * R =>
                   map (replica (nfp st) (fst it) (snd it)) (grid_xyz st))
                (0, 0, 0)) as Hfold.
  specialize (Hfold (fun b => eq_trans (length_map _ _) (eq_sym Hn)) its 0%nat
                [] 0%nat (eq_sym (Nat.mul_0_r (num_psc st)))).
  cbn [app] in Hfold. rewrite Nat.add_0_r, Nat.mul_0_r in Hfold.
  cbn [repeat] in Hfold. rewrite app_nil_r in Hfold. exact Hfold.
Qed.

Lemma length_symmetry_list nfp (ss : bool) :
  length (list_prod (seq 0 nfp) (if ss then [1; -1] else [1]))
  = (nfp * (Nat.b2n ss + 1))%nat.
Proof. rewrite length_prod, length_seq. now destruct ss. Qed.

Lemma full_grid_of_consistent K st :
  consistent st ->
  grid_xyz_all (setup_full_grid K st)
  = flat_map (fun it => map (replica (nfp st) (fst it) (snd it)) (grid_xyz st))
      (list_prod (seq 0 (nfp st)) (stell_list st))
  /\ length (grid_xyz_all (setup_full_grid K st))
     = (num_psc st * symmetry st)%nat.
Proof.
  intros [Hn Hnfp Hsl Hsym].
  assert (Hlen : symmetry st
                 = length (list_prod (seq 0 (nfp st)) (stell_list st))).
  { rewrite Hsl, length_symmetry_list. exact Hsym. }
  pose proof (setup_full_grid_blocks K st Hn Hlen) as Hb.
  split; [exact Hb|].
  rewrite Hb, (length_flat_map_const _ (num_psc st)).
  - rewrite <- Hlen. lia.
  - intros it. now rewrite length_map.
Qed.

(** X19.  [setup_full_grid] lays the symmetrized centers out block after
    block: for each field period [fp] and each [stell] of [stell_list], in
    the order of the loop, the block holds the image of every center under
    the flip by [stell] and the rotation by [2 pi fp / nfp]; there are
    [num_psc * symmetry] centers, and the normalized centers are the centers
    divided by [R]. *)
Theorem full_grid_blocks K st :
  consistent st ->
  grid_xyz_all (setup_full_grid K st)
  = flat_map (fun it => map (replica (nfp st) (fst it) (snd it)) (grid_xyz st))
      (list_prod (seq 0 (nfp st)) (stell_list st))
  /\ length (grid_xyz_all (setup_full_grid K st))
     = (num_psc st * symmetry st)%nat
  /\ grid_xyz_all_normalized (setup_full_grid K st)
     = map (fun p => (px p / coil_R st, py p / coil_R st, pz p / coil_R st))
         (grid_xyz_all (setup_full_grid K st)).
Proof.
  intros Hcons. destruct (full_grid_of_consistent K st Hcons) as (Hb & Hlen).
  split; [exact Hb|]. split; [exact Hlen|].
  - unfold setup_full_grid. cbv zeta.
    match goal with
    | |- context [update_alphas_deltas K ?s] =>
        destruct (update_alphas_deltas_keeps K s) as (_ & _ & _ & Hg & Hgn & _)
    end.
    rewrite Hg, Hgn. reflexivity.
Qed.

Lemma toy_state_consistent : consistent toy_state.
Proof. split; reflexivity || (cbn; lia). Qed.

Lemma full_grid_blocks_witness :
  length (grid_xyz_all (setup_full_grid toy_kernels toy_state))
  = (num_psc toy_state * symmetry toy_state)%nat.
Proof.
  exact (proj1 (proj2 (full_grid_blocks toy_kernels toy_state
                         toy_state_consistent))).
Defined.

(** ** The symmetric copies of a coil *)

Lemma replica_radius nfp fp stell p :
  stell = 1 \/ stell = -1 ->
  rho2 (replica nfp fp stell p) = rho2 p
  /\ pz (replica nfp fp stell p) ^ 2 = pz p ^ 2.
Proof.
  intros Hs. destruct p as [[x y] z]. unfold replica, rho2. cbv zeta.
  cbn [px py pz fst snd]. unfold np.cos, np.sin.
  set (phi0 := 2 * np.pi / INR nfp * INR fp).
  pose proof (sin2_cos2 phi0) as Hsc. unfold Rsqr in Hsc.
  destruct Hs as [-> | ->]; split; try ring.
  - replace ((x * cos phi0 - y * sin phi0 * 1) ^ 2
             + (x * sin phi0 + y * cos phi0 * 1) ^ 2)
      with ((x ^ 2 + y ^ 2) * (sin phi0 * sin phi0 + cos phi0 * cos phi0))
      by ring.
    rewrite Hsc. ring.
  - replace ((x * cos phi0 - y * sin phi0 * -1) ^ 2
             + (x * sin phi0 + y * cos phi0 * -1) ^ 2)
      with ((x ^ 2 + y ^ 2) * (sin phi0 * sin phi0 + cos phi0 * cos phi0))
      by ring.
    rewrite Hsc. ring.
Qed.

Lemma replica_dist nfp fp stell p q :
  stell = 1 \/ stell = -1 ->
  dist (replica nfp fp stell p) (replica nfp fp stell q) = dist p q.
Proof.
  intros Hs. destruct p as [[x y] z], q as [[x' y'] z'].
  unfold dist, replica, np.sqrt. cbv zeta. cbn [px py pz fst snd].
  unfold np.cos, np.sin.
  set (phi0 := 2 * np.pi / INR nfp * INR fp).
  pose proof (sin2_cos2 phi0) as Hsc. unfold Rsqr in Hsc.
  f_equal.
  destruct Hs as [-> | ->].
  - replace ((x * cos phi0 - y * sin phi0 * 1
              - (x' * cos phi0 - y' * sin phi0 * 1)) ^ 2
             + (x * sin phi0 + y * cos phi0 * 1
                - (x' * sin phi0 + y' * cos phi0 * 1)) ^ 2
             + (z * 1 - z' * 1) ^ 2)
      with (((x - x') ^ 2 + (y - y') ^ 2)
            * (sin phi0 * sin phi0 + cos phi0 * cos phi0) + (z - z') ^ 2)
      by ring.
    rewrite Hsc. ring.
  - replace ((x * cos phi0 - y * sin phi0 * -1
              - (x' * cos phi0 - y' * sin phi0 * -1)) ^ 2
             + (x * sin phi0 + y * cos phi0 * -1
                - (x' * sin phi0 + y' * cos phi0 * -1)) ^ 2
             + (z * -1 - z' * -1) ^ 2)
      with (((x - x') ^ 2 + (y - y') ^ 2)
            * (sin phi0 * sin phi0 + cos phi0 * cos phi0) + (z - z') ^ 2)
      by ring.
    rewrite Hsc. ring.
Qed.

(** The symmetrized centers of an object that a constructor returned. *)
Lemma constructed_full_grid K E st :
  constructed K E st -> (1 <= nfp st)%nat ->
  grid_xyz_all st
  = flat_map (fun it => map (replica (nfp st) (fst it) (snd it)) (grid_xyz st))
      (list_prod (seq 0 (nfp st)) (stell_list st))
  /\ length (grid_xyz_all st) = (num_psc st * symmetry st)%nat.
Proof.
  intros Hc Hnfp.
  pose proof (constructed_consistent K E st Hc Hnfp) as Hcons.
  destruct (constructed_finish_setup K E st Hc) as [pre Hst].
  pose proof (finish_setup_fixed K E pre) as Hf. rewrite <- Hst in Hf.
  assert (Hpre : consistent pre)
    by (apply (consistent_fixed st); [now symmetry | assumption]).
  destruct (fixed_attributes_inv _ _ Hf)
    as (_ & _ & _ & Hg & Hn & _ & Hnf & _ & Hsym & Hsl & _).
  destruct (finish_setup_angles K E pre) as (_ & _ & _ & _ & _ & Hall).
  rewrite <- Hst in Hall.
  destruct (full_grid_of_consistent K pre Hpre) as (Hb & Hlen).
  rewrite Hall, Hg, Hn, Hnf, Hsym, Hsl. now split.
Qed.

Lemma static_inv st st' :
  static st' = static st ->
  fixed_attributes st' = fixed_attributes st
  /\ grid_xyz_all st' = grid_xyz_all st
  /\ grid_xyz_all_normalized st' = grid_xyz_all_normalized st
  /\ b_opt st' = b_opt st.
Proof.
  intros H. unfold static in H.
  pose proof (f_equal (fun t => fst (fst (fst t))) H) as H1.
  pose proof (f_equal (fun t => snd (fst (fst t))) H) as H2.
  pose proof (f_equal (fun t => snd (fst t)) H) as H3.
  pose proof (f_equal snd H) as H4.
  cbn [fst snd] in H1, H2, H3, H4. auto.
Qed.

(** X20.  On an object that a constructor returned, and after any calls of
    [least_squares] and [least_squares_jacobian], the symmetrized grid holds
    every center, and each of its [num_psc * symmetry] centers is the image
    of a center under a flip by [stell = 1] or [-1] and a rotation about the
    z axis by [2 pi fp / nfp]: it has the distance to the z axis and the
    height [|z|] of that center, and two centers of one block are as far
    apart as the centers they come from. *)
Theorem symmetrized_centers K E st0 st :
  constructed K E st0 -> run K E st0 st -> (1 <= nfp st0)%nat ->
  length (grid_xyz_all st) = (num_psc st * symmetry st)%nat
  /\ (forall p, In p (grid_xyz st) -> In p (grid_xyz_all st))
  /\ (forall p', In p' (grid_xyz_all st) ->
        exists p fp stell,
          In p (grid_xyz st) /\ (fp < nfp st)%nat /\ (stell = 1 \/ stell = -1)
          /\ p' = replica (nfp st) fp stell p
          /\ rho2 p' = rho2 p /\ pz p' ^ 2 = pz p ^ 2
          /\ forall q,
               dist p' (replica (nfp st) fp stell q) = dist p q).
Proof.
  intros Hc Hrun Hnfp.
  destruct (constructed_full_grid K E st0 Hc Hnfp) as (Hall & Hlen).
  pose proof (constructed_consistent K E st0 Hc Hnfp) as [_ _ Hsl _].
  apply run_static, static_inv in Hrun. destruct Hrun as (Hf & Hg & _).
  destruct (fixed_attributes_inv _ _ Hf)
    as (_ & _ & _ & Hxyz & Hn & _ & Hnf & Hss & Hsym & Hsl' & _).
  rewrite Hg, Hxyz, Hn, Hnf, Hsym. clear Hf Hg Hxyz Hn Hnf Hsym Hsl' Hss st.
  split; [exact Hlen|]. rewrite Hall. split.
  - intros p Hp. apply in_flat_map. exists (0%nat, 1). split.
    + apply in_prod; [apply in_seq; lia|].
      rewrite Hsl. destruct (stellsym st0); now left.
    + cbn [fst snd]. rewrite first_replica_block. exact Hp.
  - intros p' Hp'. apply in_flat_map in Hp'.
    destruct Hp' as ([fp stell] & Hit & Hp'). cbn [fst snd] in Hp'.
    apply in_map_iff in Hp'. destruct Hp' as (p & <- & Hp).
    apply in_prod_iff in Hit. destruct Hit as [Hfp Hstell].
    apply in_seq in Hfp.
    assert (Hs : stell = 1 \/ stell = -1).
    { rewrite Hsl in Hstell.
      destruct (stellsym st0); cbn [In] in Hstell; intuition. }
    exists p, fp, stell.
    destruct (replica_radius (nfp st0) fp stell p Hs) as (Hr & Hz).
    repeat split; try assumption; try lia.
    intros q. now apply replica_dist.
Qed.

Lemma symmetrized_centers_witness :
  exists st,
    geo_setup_manual toy_kernels toy_collaborators close_points (1 / 10)
      no_kwargs = inr st
    /\ length (grid_xyz_all st) = (num_psc st * symmetry st)%nat.
Proof.
  destruct (toy_manual_returns (1 / 10) None (close_points_no_plane_conflict _))
    as [st H].
  exists st. split; [exact H|].
  apply (symmetrized_centers toy_kernels toy_collaborators st st).
  - exact (constructed_manual _ _ _ _ _ _ H).
  - apply run_start.
  - pose proof (geo_setup_manual_inv _ _ _ _ _ _ H)
      as (pre & Hst & _ & _ & _ & _ & _ & Hpb & Hnfp & _).
    destruct (finish_setup_geometry toy_kernels toy_collaborators pre)
      as (_ & _ & _ & Hnfp').
    rewrite Hst, Hnfp', Hnfp, Hpb. cbn. lia.
Defined.

(** ** The curves of the coils *)

(** X21.  The entries 3 to 6 of the array [dofs] that [setup_curves] passes
    to the curve of coil [ic] form a unit quaternion [(q0, qi, qj, qk)], and
    the rotation of that quaternion takes the z axis (the third column
    [(2(qi qk + q0 qj), 2(qj qk - q0 qi), 1 - 2(qi^2 + qj^2))] of its matrix)
    to the normal [(cos(alpha) sin(delta), -sin(alpha), cos(alpha) cos(delta))]
    that [setup_orientations] computes from the same angles. *)
Theorem curve_dofs_quaternion st ic :
  let dofs := curve_dofs st ic in
  let q0 := nth 3 dofs 0 in
  let qi := nth 4 dofs 0 in
  let qj := nth 5 dofs 0 in
  let qk := nth 6 dofs 0 in
  let alpha := nth ic (alphas st) 0 in
  let delta := nth ic (deltas st) 0 in
  q0 ^ 2 + qi ^ 2 + qj ^ 2 + qk ^ 2 = 1
  /\ (2 * (qi * qk + q0 * qj), 2 * (qj * qk - q0 * qi),
      1 - 2 * (qi ^ 2 + qj ^ 2))
     = (np.cos alpha * np.sin delta, - np.sin alpha,
        np.cos alpha * np.cos delta).
Proof.
  cbv zeta. unfold curve_dofs. cbv zeta. cbn [nth].
  unfold np.cos, np.sin.
  set (a := nth ic (alphas st) 0). set (d := nth ic (deltas st) 0).
  assert (Hsa : sin a = 2 * sin (a / 2) * cos (a / 2))
    by (rewrite <- sin_2a; f_equal; field).
  assert (Hca : cos a = cos (a / 2) * cos (a / 2) - sin (a / 2) * sin (a / 2))
    by (rewrite <- cos_2a; f_equal; field).
  assert (Hsd : sin d = 2 * sin (d / 2) * cos (d / 2))
    by (rewrite <- sin_2a; f_equal; field).
  assert (Hcd : cos d = cos (d / 2) * cos (d / 2) - sin (d / 2) * sin (d / 2))
    by (rewrite <- cos_2a; f_equal; field).
  rewrite Hsa, Hca, Hsd, Hcd. clear Hsa Hca Hsd Hcd.
  pose proof (sin2_cos2 (a / 2)) as Ha. pose proof (sin2_cos2 (d / 2)) as Hd.
  unfold Rsqr in Ha, Hd.
  set (sa := sin (a / 2)) in *. set (ca := cos (a / 2)) in *.
  set (sd := sin (d / 2)) in *. set (cd := cos (d / 2)) in *.
  assert (Hq : (ca * cd) ^ 2 + (sa * cd) ^ 2 + (ca * sd) ^ 2 + (- sa * sd) ^ 2
               = 1).
  { replace ((ca * cd) ^ 2 + (sa * cd) ^ 2 + (ca * sd) ^ 2 + (- sa * sd) ^ 2)
      with ((sa * sa + ca * ca) * (sd * sd + cd * cd)) by ring.
    rewrite Ha, Hd. ring. }
  split; [exact Hq|].
  f_equal; [f_equal|].
  - replace (2 * (sa * cd * (- sa * sd) + ca * cd * (ca * sd)))
      with ((ca * ca - sa * sa) * (2 * sd * cd)) by ring.
    reflexivity.
  - replace (2 * (ca * sd * (- sa * sd) - ca * cd * (sa * cd)))
      with (- (2 * sa * ca * (sd * sd + cd * cd))) by ring.
    rewrite Hd. ring.
  - replace (1 - 2 * ((sa * cd) ^ 2 + (ca * sd) ^ 2))
      with ((sa * sa + ca * ca) * (sd * sd + cd * cd)
            - 2 * ((sa * cd) ^ 2 + (ca * sd) ^ 2))
      by (rewrite Ha, Hd; ring).
    ring.
Qed.

(** ** The gradient of the inductance matrix *)

Lemma Forall_firstn_of {A} (P : A -> Prop) n l :
  Forall P l -> Forall P (firstn n l).
Proof.
  intros H. revert n. induction H as [|x l Hx Hl IH]; intros [|n];
    cbn [firstn]; constructor; auto.
Qed.

Lemma Forall_skipn_of {A} (P : A -> Prop) n l :
  Forall P l -> Forall P (skipn n l).
Proof.
  intros H. revert n. induction H as [|x l Hx Hl IH]; intros [|n];
    cbn [skipn]; try constructor; auto.
Qed.

Lemma Forall_slice {A} (P : A -> Prop) lo hi l :
  Forall P l -> Forall P (slice lo hi l).
Proof. intros H. unfold slice. now apply Forall_firstn_of, Forall_skipn_of. Qed.

Lemma Forall_assign_rows {A} (P : A -> Prop) lo block a :
  Forall P block -> Forall P a -> Forall P (assign_rows lo block a).
Proof.
  intros Hb Ha. unfold assign_rows. rewrite !Forall_app. repeat split.
  - now apply Forall_firstn_of.
  - exact Hb.
  - now apply Forall_skipn_of.
Qed.

Lemma Forall_map2 {A B C} (P : A -> Prop) (Q : C -> Prop) (f : A -> B -> C)
  u v :
  (forall x y, P x -> Q (f x y)) -> Forall P u -> Forall Q (np.map2 f u v).
Proof.
  intros Hf Hu. revert v.
  induction Hu as [|x u Hx Hu IH]; intros [|y v]; try constructor.
  - now apply Hf.
  - apply IH.
Qed.

Lemma Forall_map2_both {A B C} (P : A -> Prop) (P' : B -> Prop) (Q : C -> Prop)
  (f : A -> B -> C) u v :
  (forall x y, P x -> P' y -> Q (f x y)) ->
  Forall P u -> Forall P' v -> Forall Q (np.map2 f u v).
Proof.
  intros Hf Hu. revert v.
  induction Hu as [|x u Hx Hu IH]; intros [|y v] Hv; try constructor.
  - apply Hf; [assumption|]. now inversion Hv.
  - apply IH. now inversion Hv.
Qed.

Lemma shape_zeros_like n m (M : matrix) :
  has_shape n m M -> has_shape n m (map (map (fun _ : R => 0)) M).
Proof.
  intros [Hl HF]. split; [now rewrite length_map|].
  rewrite Forall_map. rewrite Forall_forall in *.
  intros row Hrow. rewrite length_map. now apply HF.
Qed.

(** A square matrix plus its transpose, times a scalar, is symmetric. *)
Lemma symmetrized_is_symmetric n M c :
  has_shape n n M ->
  np.transpose (np.mscale (np.madd M (np.transpose M)) c)
  = np.mscale (np.madd M (np.transpose M)) c.
Proof.
  intros HM.
  pose proof (shape_transpose n M HM) as HT.
  pose proof (shape_madd n n _ _ HM HT) as HA.
  pose proof (shape_mscale n n _ c HA) as HS.
  apply (matrix_ext n n); [now apply shape_transpose | assumption |].
  intros i j Hi Hj.
  rewrite (get_transpose n) by assumption.
  rewrite !(get_mscale n n) by assumption.
  rewrite !(get_madd n n) by assumption.
  rewrite !(get_transpose n) by assumption.
  ring.
Qed.

(** X22.  When every slice of the array of the kernel [L_deriv_simd] along
    its first axis is a square matrix of one size, every slice of the array
    that [L_deriv] returns is a symmetric matrix of that size, with or
    without symmetries ([nsym > 1] or not). *)
Theorem L_deriv_symmetric L_deriv_simd st n :
  Forall (has_shape n n) L_deriv_simd ->
  Forall (fun M => has_shape n n M /\ np.transpose M = M)
         (L_deriv L_deriv_simd st).
Proof.
  intros HT. unfold L_deriv. cbv zeta.
  set (copy := if Nat.ltb 1 (symmetry st) then _ else _).
  assert (Hcopy : Forall (has_shape n n) copy).
  { unfold copy. destruct (Nat.ltb 1 (symmetry st)); [|exact HT].
    assert (H0 : Forall (has_shape n n)
                   (map (map (map (fun _ : R => 0))) L_deriv_simd)).
    { rewrite Forall_map. revert HT. apply Forall_impl.
      intros M. apply shape_zeros_like. }
    revert H0.
    generalize (map (map (map (fun _ : R => 0))) L_deriv_simd).
    induction (symmetry_loop (nfp st) (stell_list st)) as [|it its IH];
      intros acc Hacc; [exact Hacc|].
    cbn [fold_left]. apply IH.
    assert (Hsum : forall s1 s2 lo hi lo' hi',
               Forall (has_shape n n)
                 (np.map2 np.madd
                    (np.map2 np.mscale (slice lo hi L_deriv_simd) s1)
                    (np.map2 np.mscale (slice lo' hi' L_deriv_simd) s2))).
    { intros s1 s2 lo hi lo' hi'.
      apply (Forall_map2_both (has_shape n n) (has_shape n n)).
      - intros A B. apply shape_madd.
      - apply (Forall_map2 (has_shape n n)); [|now apply Forall_slice].
        intros M c. apply shape_mscale.
      - apply (Forall_map2 (has_shape n n)); [|now apply Forall_slice].
        intros M c. apply shape_mscale. }
    apply Forall_assign_rows.
    - apply (Forall_map2_both (has_shape n n) (has_shape n n)).
      + intros A B. apply shape_madd.
      + apply Forall_slice, Forall_assign_rows; [|exact Hacc].
        apply (Forall_map2_both (has_shape n n) (has_shape n n)).
        * intros A B. apply shape_madd.
        * now apply Forall_slice.
        * apply Hsum.
      + apply Hsum.
    - apply Forall_assign_rows; [|exact Hacc].
      apply (Forall_map2_both (has_shape n n) (has_shape n n)).
      + intros A B. apply shape_madd.
      + now apply Forall_slice.
      + apply Hsum. }
  clearbody copy. rewrite !Forall_map. revert Hcopy. apply Forall_impl.
  intros M HM. split.
  - apply shape_mscale, shape_madd; [assumption|now apply shape_transpose].
  - now apply (symmetrized_is_symmetric n).
Qed.

Lemma L_deriv_symmetric_witness :
  Forall (fun M => has_shape 1 1 M /\ np.transpose M = M)
         (L_deriv [[[3]]; [[5]]] toy_state).
Proof.
  apply (L_deriv_symmetric [[[3]]; [[5]]] toy_state 1).
  repeat constructor.
Defined.

(** ** The currents that are plotted *)

Lemma fold_assign_indexed {A B} nn (block : nat -> B -> list A) (z : A) :
  forall its k acc r,
    (forall q b, In (q, b) (combine (seq k (length its)) its) ->
                 length (block q b) = nn) ->
    length acc = (k * nn)%nat ->
    fold_left
      (fun all it => assign_rows (fst it * nn) (block (fst it) (snd it)) all)
      (combine (seq k (length its)) its)
      (acc ++ repeat z (nn * (length its + r)))
    = acc
      ++ flat_map (fun it => block (fst it) (snd it))
           (combine (seq k (length its)) its)
      ++ repeat z (nn * r).
Proof.
  intros its. induction its as [|b its IH]; intros k acc r Hb Hacc.
  - reflexivity.
  - cbn [length seq combine fold_left fst snd flat_map].
    assert (Hlen : length (block k b) = nn) by (apply Hb; now left).
    assert (Hstep : assign_rows (k * nn) (block k b)
                      (acc ++ repeat z (nn * (S (length its) + r)))
                    = (acc ++ block k b) ++ repeat z (nn * (length its + r))).
    { unfold assign_rows. rewrite <- Hacc, firstn_length_app.
      rewrite Hlen, skipn_length_app_add.
      replace (nn * (S (length its) + r))%nat
        with (nn + nn * (length its + r))%nat by lia.
      rewrite skipn_repeat_add. now rewrite <- app_assoc. }
    rewrite Hstep, (IH (S k) (acc ++ block k b) r).
    + now rewrite <- !app_assoc.
    + intros q b' Hin. apply Hb. now right.
    + rewrite length_app, Hlen. lia.
Qed.

Lemma firstn_app_skipn {A} m p (l : list A) :
  firstn m l ++ firstn p (skipn m l) = firstn (m + p) l.
Proof.
  revert l. induction m as [|m IH]; intros [|x l]; cbn [firstn skipn app Nat.add];
    try reflexivity.
  - now destruct p.
  - f_equal. apply IH.
Qed.

Lemma slice_app {A} a b c (l : list A) :
  (a <= b)%nat -> (b <= c)%nat -> slice a b l ++ slice b c l = slice a c l.
Proof.
  intros Hab Hbc. unfold slice.
  replace (skipn b l) with (skipn (b - a) (skipn a l))
    by (rewrite skipn_skipn; f_equal; lia).
  rewrite firstn_app_skipn. f_equal. lia.
Qed.

Lemma concat_slices {A} nn (l : list A) n k :
  flat_map (fun q => slice (q * nn) ((q + 1) * nn) l) (seq k n)
  = slice (k * nn) ((k + n) * nn) l.
Proof.
  revert k. induction n as [|n IH]; intros k.
  - cbn [seq flat_map]. unfold slice.
    now replace ((k + 0) * nn - k * nn)%nat with 0%nat by lia.
  - cbn [seq flat_map]. rewrite IH.
    replace (S k * nn)%nat with ((k + 1) * nn)%nat by lia.
    rewrite slice_app by nia. f_equal. lia.
Qed.

Lemma map_fst_combine_seq {B} k (l : list B) :
  map fst (combine (seq k (length l)) l) = seq k (length l).
Proof.
  revert k. induction l as [|x l IH]; intros k; [reflexivity|].
  cbn [length seq combine map fst]. now rewrite IH.
Qed.

Lemma in_combine_seq {B} k (l : list B) q b :
  In (q, b) (combine (seq k (length l)) l) ->
  (k <= q < k + length l)%nat /\ In b l.
Proof.
  intros H. split.
  - apply in_combine_l in H. apply in_seq in H. lia.
  - now apply in_combine_r in H.
Qed.

Lemma length_slice_block {A} nn n q (l : list A) :
  length l = (nn * n)%nat -> (q < n)%nat ->
  length (slice (q * nn) ((q + 1) * nn) l) = nn.
Proof.
  intros Hl Hq. unfold slice. rewrite length_firstn, length_skipn, Hl. nia.
Qed.

(** The array of the loop of [plot_curves], block after block. *)
Lemma I_all_with_sign_flips_blocks st :
  length (I_all (currents st))
  = (num_psc st
     * length (list_prod (seq 0 (nfp st)) (stell_list st)))%nat ->
  I_all_with_sign_flips st
  = flat_map
      (fun it =>
         map (fun x => x * snd (snd it))
           (slice (fst it * num_psc st) ((fst it + 1) * num_psc st)
              (I_all (currents st))))
      (symmetry_loop (nfp st) (stell_list st)).
Proof.
  intros Hl. unfold I_all_with_sign_flips, symmetry_loop. cbv zeta.
  set (body := list_prod (seq 0 (nfp st)) (stell_list st)) in *.
  pose proof (fold_assign_indexed (num_psc st)
                (fun (q : nat) (b : nat * R) =>
                   map (fun x => x * snd b)
                     (slice (q * num_psc st) ((q + 1) * num_psc st)
                        (I_all (currents st))))
                0 body 0%nat [] 0%nat) as Hfold.
  cbn [app] in Hfold. rewrite Nat.add_0_r, Nat.mul_0_r in Hfold.
  cbn [repeat] in Hfold. rewrite app_nil_r in Hfold.
  unfold np.zeros. rewrite Hl. apply Hfold; [|reflexivity].
  intros q b Hin. apply in_combine_seq in Hin. rewrite length_map.
  apply (length_slice_block _ (length body)); [exact Hl|lia].
Qed.

Lemma map_flat_map_blocks {B} (sigma : B -> R) (S : nat -> vec)
  (f : R -> R) (l : list (nat * B)) :
  (forall it x, In it l -> f (x * sigma (snd it)) = f x) ->
  map f (flat_map (fun it => map (fun x => x * sigma (snd it)) (S (fst it))) l)
  = map f (flat_map S (map fst l)).
Proof.
  induction l as [|it l IH]; intros H; [reflexivity|].
  cbn [flat_map map]. rewrite !map_app, IH by (intros; apply H; now right).
  f_equal. rewrite map_map. apply map_ext. intros x. apply H. now left.
Qed.

(** X23.  When [I_all] holds one current for each of the
    [num_psc * symmetry] coils, the array [I_all_with_sign_flips] of
    [plot_curves] has the length and the magnitudes of [I_all]; the first
    [num_psc] entries, the currents of the coils themselves, are unchanged,
    and without stellarator symmetry the whole array is [I_all]. *)
Theorem sign_flips_keep_magnitudes st :
  consistent st ->
  length (I_all (currents st)) = (num_psc st * symmetry st)%nat ->
  length (I_all_with_sign_flips st) = length (I_all (currents st))
  /\ map Rabs (I_all_with_sign_flips st) = map Rabs (I_all (currents st))
  /\ firstn (num_psc st) (I_all_with_sign_flips st)
     = firstn (num_psc st) (I_all (currents st))
  /\ (stellsym st = false -> I_all_with_sign_flips st = I_all (currents st)).
Proof.
  intros [Hn Hnfp Hsl Hsym] Hl.
  assert (Hlen : symmetry st
                 = length (list_prod (seq 0 (nfp st)) (stell_list st))).
  { rewrite Hsl, length_symmetry_list. exact Hsym. }
  rewrite Hlen in Hl.
  pose proof (I_all_with_sign_flips_blocks st Hl) as Hb.
  unfold symmetry_loop in Hb. cbv zeta in Hb.
  set (body := list_prod (seq 0 (nfp st)) (stell_list st)) in *.
  set (I := I_all (currents st)) in *.
  assert (Hall : flat_map
                   (fun q => slice (q * num_psc st) ((q + 1) * num_psc st) I)
                   (map fst (combine (seq 0 (length body)) body))
                 = I).
  { rewrite map_fst_combine_seq, concat_slices. unfold slice.
    cbn [Nat.mul skipn]. rewrite Nat.sub_0_r.
    apply firstn_all2. rewrite Hl. lia. }
  assert (Hsigma : forall it, In it (combine (seq 0 (length body)) body) ->
                     snd (snd it) = 1 \/ snd (snd it) = -1).
  { intros [q [fp s]] Hin. apply in_combine_seq in Hin. destruct Hin as [_ Hin].
    apply in_prod_iff in Hin. destruct Hin as [_ Hs]. cbn [snd].
    rewrite Hsl in Hs. destruct (stellsym st); cbn [In] in Hs; intuition. }
  assert (Habs : map Rabs (I_all_with_sign_flips st) = map Rabs I).
  { rewrite Hb.
    rewrite (map_flat_map_blocks (fun b : nat * R => snd b)
               (fun q => slice (q * num_psc st) ((q + 1) * num_psc st) I) Rabs).
    - now rewrite Hall.
    - intros it x Hin. rewrite Rabs_mult.
      destruct (Hsigma it Hin) as [-> | ->].
      + rewrite Rabs_R1. ring.
      + rewrite (Rabs_left (-1)) by lra. ring. }
  split; [|split; [exact Habs|split]].
  - apply (f_equal (@length R)) in Habs. now rewrite !length_map in Habs.
  - rewrite Hb.
    assert (Hhead : exists sl, stell_list st = 1 :: sl)
      by (rewrite Hsl; destruct (stellsym st); eexists; reflexivity).
    destruct Hhead as [sl Hsl'].
    destruct (symmetry_loop_head (nfp st) sl Hnfp) as (rest & Hbody & _).
    unfold body in *. rewrite Hsl' in *. rewrite Hbody in *.
    cbn [length seq combine flat_map fst snd].
    cbn [length] in Hl.
    assert (Hblock : length (slice (0 * num_psc st) ((0 + 1) * num_psc st) I)
                     = num_psc st)
      by (apply (length_slice_block _ (S (length rest))); [exact Hl|lia]).
    rewrite firstn_app, length_map, Hblock, Nat.sub_diag.
    cbn [firstn]. rewrite app_nil_r.
    rewrite firstn_all2 by (rewrite length_map; lia).
    rewrite <- (map_id (firstn (num_psc st) I)).
    unfold slice. cbn [Nat.mul Nat.add skipn].
    rewrite Nat.add_0_r, Nat.sub_0_r.
    apply map_ext. intros x. ring.
  - intros Hss. rewrite Hb.
    rewrite <- (map_id (flat_map _ _)), <- (map_id I) at 1.
    rewrite (map_flat_map_blocks (fun b : nat * R => snd b)
               (fun q => slice (q * num_psc st) ((q + 1) * num_psc st) I)
               (fun x => x)).
    + now rewrite Hall.
    + intros [q [fp s]] x Hin. apply in_combine_seq in Hin.
      destruct Hin as [_ Hin]. apply in_prod_iff in Hin. destruct Hin as [_ Hs].
      rewrite Hsl, Hss in Hs. cbn [In] in Hs. cbn [snd].
      destruct Hs as [<- | []]. ring.
Qed.

Lemma sign_flips_keep_magnitudes_witness :
  let st := set_currents (mkCurrents [] [-7] [-7] [] []) toy_state in
  map Rabs (I_all_with_sign_flips st) = map Rabs (I_all (currents st)).
Proof.
  cbv zeta.
  apply (sign_flips_keep_magnitudes
           (set_currents (mkCurrents [] [-7] [-7] [] []) toy_state)).
  - split; reflexivity || (cbn; lia).
  - reflexivity.
Defined.

(** ** A vanishing loss *)

Lemma dot_self_zero v : np.dot v v = 0 <-> Forall (fun x => x = 0) v.
Proof.
  induction v as [|x v IH].
  - split; [constructor|]. intros _. apply dot_nil_l.
  - rewrite dot_cons. pose proof (dot_self_nonneg v) as Hv. split.
    + intros H. assert (Hx : x * x = 0) by nra.
      constructor; [nra|]. apply IH. nra.
    + intros H. inversion H as [|? ? Hx Hrest]; subst.
      apply IH in Hrest. rewrite Hrest. ring.
Qed.

(** X24.  With a positive normalization [fac2_norm], the loss that
    [least_squares] returns is zero exactly when every entry of the weighted
    residual [(Bn_PSC + b_opt) * grid_normalization] of the recomputed object
    is zero. *)
Theorem loss_zero_iff K E st kappas :
  0 < fac2_norm st ->
  let st3 := recompute K E st kappas in
  let Ax_b :=
    np.vmul (np.vadd (Bn_PSC (currents st3)) (b_opt st3))
            (grid_normalization st3) in
  fst (least_squares K E st kappas) = 0 <-> Forall (fun r => r = 0) Ax_b.
Proof.
  intros Hpos st3 Ax_b.
  assert (Hf2 : fac2_norm st3 = fac2_norm st).
  { pose proof (static_recompute K E st kappas) as Hs.
    apply static_inv in Hs. destruct Hs as (Hf & _).
    destruct (fixed_attributes_inv _ _ Hf)
      as (_ & _ & _ & _ & _ & _ & _ & _ & _ & _ & _ & _ & _ & H).
    exact H. }
  rewrite least_squares_recompute. cbn [fst]. fold st3. fold Ax_b.
  rewrite Hf2, dot_vscale_l, <- dot_self_zero.
  pose proof (dot_self_nonneg Ax_b) as Hd.
  split; intros H; [nra|]. rewrite H. ring.
Qed.

Lemma loss_zero_iff_witness :
  fst (least_squares toy_kernels toy_collaborators toy_state [0; 0]) = 0
  <-> Forall (fun r => r = 0)
        (np.vmul
           (np.vadd
              (Bn_PSC (currents (recompute toy_kernels toy_collaborators
                                   toy_state [0; 0])))
              (b_opt (recompute toy_kernels toy_collaborators toy_state [0; 0])))
           (grid_normalization
              (recompute toy_kernels toy_collaborators toy_state [0; 0]))).
Proof.
  apply (loss_zero_iff toy_kernels toy_collaborators toy_state [0; 0]).
  unfold toy_state. cbn [fac2_norm]. apply Rdiv_lt_0_compat; [lra|].
  apply pow_lt. lra.
Defined.

(** ** The quadrature points *)

Lemma fixed_quadrature st st' :
  fixed_attributes st' = fixed_attributes st ->
  quad_points_phi st' = quad_points_phi st
  /\ quad_weights st' = quad_weights st
  /\ quad_points_rho st' = quad_points_rho st
  /\ coil_R st' = coil_R st.
Proof.
  unfold fixed_attributes. intros H. injection H. intros. repeat split; assumption.
Qed.

(** The quadrature data of an object that a constructor returned, in terms
    of the nodes and weights of [np.polynomial.legendre.leggauss(8)]. *)
Lemma constructed_quadrature K E st :
  constructed K E st ->
  quad_points_phi st
  = map (fun x => x * np.pi + np.pi) (fst (ext.leggauss E 8))
  /\ quad_points_rho st
     = map (fun x => x * coil_R st)
         (map (fun x => x * (5 / 10) + 5 / 10) (fst (ext.leggauss E 8)))
  /\ quad_weights st = snd (ext.leggauss E 8).
Proof.
  intros [pb coils inner outer kw st' H | points Rc kw st' H].
  - revert H. unfold geo_setup_between_toroidal_surfaces. unfold bind at 1.
    destruct (geo_setup_between_toroidal_surfaces_grid _ _ _ _ _ _ _)
      as [e|g] eqn:Hg; [discriminate|].
    assert (Hq : quad_points_phi g
                 = map (fun x => x * np.pi + np.pi) (fst (ext.leggauss E 8))
                 /\ quad_points_rho g
                    = map (fun x => x * coil_R g)
                        (map (fun x => x * (5 / 10) + 5 / 10)
                           (fst (ext.leggauss E 8)))
                 /\ quad_weights g = snd (ext.leggauss E 8)).
    { revert Hg. unfold geo_setup_between_toroidal_surfaces_grid. cbv zeta.
      destruct (negb (np.allclose_shape _ _)); [discriminate|].
      destruct (_ || _); [discriminate|].
      unfold bind.
      destruct (_setup_uniform_grid _ _ _ _ _ _ _ _); [discriminate|].
      intros H. injection H as <-. repeat split. }
    cbv zeta.
    destruct (initial_orientation _ _ _ _) as [[al de] cn].
    destruct (Nat.ltb 0 _); [discriminate|].
    destruct (diameter_conflict _ _ _); [discriminate|].
    intros H. injection H as <-.
    match goal with
    | |- context [finish_setup K E ?pre] =>
        destruct (fixed_quadrature _ _ (finish_setup_fixed K E pre))
          as (-> & -> & -> & ->)
    end.
    exact Hq.
  - revert H. unfold geo_setup_manual. cbv zeta.
    destruct (negb (np.allclose_shape _ _)); [discriminate|].
    destruct (Nat.ltb 0 _); [discriminate|].
    intros H. injection H as <-.
    match goal with
    | |- context [finish_setup K E ?pre] =>
        destruct (fixed_quadrature _ _ (finish_setup_fixed K E pre))
          as (-> & -> & -> & ->)
    end.
    repeat split.
Qed.

(** X25.  When the nodes of [leggauss(8)] lie strictly between -1 and 1 and
    the coil radius is positive, then on an object that a constructor
    returned, and after any calls of [least_squares] and
    [least_squares_jacobian], every quadrature angle lies strictly between 0
    and [2 pi], every quadrature radius strictly between 0 and [R], and there
    is one weight, one angle and one radius for each node. *)
Theorem quadrature_points_inside K E st0 st :
  constructed K E st0 -> run K E st0 st ->
  (forall x, In x (fst (ext.leggauss E 8)) -> -1 < x < 1) ->
  length (snd (ext.leggauss E 8)) = length (fst (ext.leggauss E 8)) ->
  0 < coil_R st0 ->
  (forall phi, In phi (quad_points_phi st) -> 0 < phi < 2 * np.pi)
  /\ (forall rho, In rho (quad_points_rho st) -> 0 < rho < coil_R st)
  /\ length (quad_points_phi st) = length (quad_weights st)
  /\ length (quad_points_rho st) = length (quad_weights st).
Proof.
  intros Hc Hrun Hx Hw HR.
  destruct (constructed_quadrature K E st0 Hc) as (Hphi & Hrho & Hwt).
  destruct (fixed_quadrature _ _ (run_fixed K E st0 st Hrun))
    as (-> & -> & -> & ->).
  rewrite Hphi, Hrho, Hwt. clear Hphi Hrho Hwt.
  pose proof PI_RGT_0 as Hpi. unfold np.pi.
  repeat split.
  - apply in_map_iff in H. destruct H as (x & <- & Hin).
    apply Hx in Hin. nra.
  - apply in_map_iff in H. destruct H as (x & <- & Hin).
    apply Hx in Hin. nra.
  - apply in_map_iff in H. destruct H as (y & <- & Hin).
    apply in_map_iff in Hin. destruct Hin as (x & <- & Hin).
    apply Hx in Hin. nra.
  - apply in_map_iff in H. destruct H as (y & <- & Hin).
    apply in_map_iff in Hin. destruct Hin as (x & <- & Hin).
    apply Hx in Hin. nra.
  - now rewrite length_map.
  - now rewrite !length_map.
Qed.

Lemma quadrature_points_inside_witness :
  exists st,
    geo_setup_manual toy_kernels toy_collaborators close_points (1 / 10)
      no_kwargs = inr st
    /\ forall rho, In rho (quad_points_rho st) -> 0 < rho < coil_R st.
Proof.
  destruct (toy_manual_returns (1 / 10) None (close_points_no_plane_conflict _))
    as [st H].
  exists st. split; [exact H|].
  apply (quadrature_points_inside toy_kernels toy_collaborators st st).
  - exact (constructed_manual _ _ _ _ _ _ H).
  - apply run_start.
  - cbn [toy_collaborators ext.leggauss fst repeat]. intros x Hin.
    repeat (destruct Hin as [<- | Hin]; [lra|]). destruct Hin.
  - reflexivity.
  - pose proof (geo_setup_manual_inv _ _ _ _ _ _ H) as (pre & Hst & HR & _).
    destruct (finish_setup_geometry toy_kernels toy_collaborators pre)
      as (HR' & _).
    rewrite Hst, HR', HR. lra.
Defined.
